(** * ngmix: Fourier-space galsim fit models and Gaussian weighted moments

    A shallow embedding of [ngmix/fitting/galsim_results.py] and of
    [ngmix/gaussmom.py].

    - Python floats and numpy [f8] entries are IEEE binary64 numbers: Rocq's
      primitive floats.
    - A 1-D numpy array is a [list]. A galsim image (a Fourier image, a
      weight map) is its bounds, the pixel scale of its wcs, and its 2-D
      numpy array: the shape and the list of the entries in row-major
      order, which is the order of [ravel()]. Operations in place keep the
      shape and the number of entries; numpy broadcasts an axis of length 1.
    - A Python exception is a value of [exn]; a call that may raise returns a
      [result]. Messages of exceptions are not modelled.
    - The object [self] and the buffers the methods overwrite in place are
      passed explicitly: a method that mutates returns the new [self]
      together with its result, also when it raises. *)

From Stdlib Require Import String Bool ZArith Lia Floats List.
Import ListNotations.

Set Implicit Arguments.
Set Warnings "-inexact-float".

(* ------------------------------------------------------------------ *)
(** ** Exceptions and results *)

(** The exception classes the code raises or catches. [GalSimError] stands
    for the renderer's errors that inherit from both [RuntimeError] and
    [ValueError]; [NotImplementedError] is a subclass of [RuntimeError] in
    Python; [GMixRangeError] inherits from [Exception] only. *)
Inductive exn : Type :=
| GMixRangeError
| RuntimeError
| ValueError
| GalSimError
| IndexError
| NotImplementedError
| OtherError.

Definition isinstance_RuntimeError (e : exn) : bool :=
  match e with
  | RuntimeError | GalSimError | NotImplementedError => true
  | _ => false
  end.

Definition isinstance_ValueError (e : exn) : bool :=
  match e with
  | ValueError | GalSimError => true
  | _ => false
  end.

Definition isinstance_GMixRangeError (e : exn) : bool :=
  match e with
  | GMixRangeError => true
  | _ => false
  end.

Inductive result (A : Type) : Type :=
| Ok (a : A)
| Raise (e : exn).

Arguments Ok {A} a.
Arguments Raise {A} e.

Definition bind {A B : Type} (r : result A) (k : A -> result B) : result B :=
  match r with
  | Ok a => k a
  | Raise e => Raise e
  end.

Notation "x <- r ;; k" := (bind r (fun x => k))
  (at level 61, r at next level, right associativity).

(** [try: r except is_cls → raise GMixRangeError]: the pattern
    [try ... except Cls as err: raise GMixRangeError(str(err))]. *)
Definition reraise_as_range (is_cls : exn -> bool) {A : Type} (r : result A)
  : result A :=
  match r with
  | Ok a => Ok a
  | Raise e => if is_cls e then Raise GMixRangeError else Raise e
  end.

(* ------------------------------------------------------------------ *)
(** ** numpy indexing on 1-D arrays *)

(** [a[i]] for [0 <= i]. *)
Definition get_item {A : Type} (a : list A) (i : nat) : result A :=
  match nth_error a i with
  | Some x => Ok x
  | None => Raise IndexError
  end.

Fixpoint replace_at {A : Type} (a : list A) (i : nat) (x : A) : list A :=
  match a, i with
  | [], _ => []
  | _ :: t, O => x :: t
  | h :: t, S i' => h :: replace_at t i' x
  end.

(** [a[i] = x] for [0 <= i]. *)
Definition set_item {A : Type} (a : list A) (i : nat) (x : A)
  : result (list A) :=
  if i <? length a then Ok (replace_at a i x) else Raise IndexError.

(** [a[lo:hi]] for [0 <= lo <= hi]: the slice is clipped to the array. *)
Definition get_slice {A : Type} (a : list A) (lo hi : nat) : list A :=
  firstn (hi - lo) (skipn lo a).

(** Number of entries of [a[lo:hi]] for an array of [n] entries. *)
Definition slice_len (n lo hi : nat) : nat := Nat.min hi n - Nat.min lo n.

(** [a[lo:hi] = src]: the source must have the slice's length, or be a single
    entry, which is broadcast; anything else is numpy's broadcast
    [ValueError]. *)
Definition set_slice {A : Type} (a : list A) (lo hi : nat) (src : list A)
  : result (list A) :=
  let m := slice_len (length a) lo hi in
  if length src =? m then
    Ok (firstn lo a ++ src ++ skipn (lo + m) a)
  else
    match src with
    | [x] => Ok (firstn lo a ++ repeat x m ++ skipn (lo + m) a)
    | _ => Raise ValueError
    end.

(** [a[lo:hi] = x] for a scalar [x]. *)
Definition fill_slice {A : Type} (a : list A) (lo hi : nat) (x : A) : list A :=
  let m := slice_len (length a) lo hi in
  firstn lo a ++ repeat x m ++ skipn (lo + m) a.

(** [a[:] = x] for a scalar [x]. *)
Definition fill_all {A : Type} (a : list A) (x : A) : list A :=
  map (fun _ => x) a.

(** [np.zeros(n)]. *)
Definition np_zeros (n : nat) : list float := repeat 0%float n.

(** An element-wise binary operation on the entries of two arrays of one
    size, the left one updated in place. *)
Fixpoint map2 {A B : Type} (f : A -> B -> A) (a : list A) (b : list B)
  : list A :=
  match a, b with
  | x :: a', y :: b' => f x y :: map2 f a' b'
  | _, _ => []
  end.

(* ------------------------------------------------------------------ *)
(** ** Images and 2-D arrays *)

(** The bounds of a galsim image. *)
Record Bounds : Type := { xmin : Z; xmax : Z; ymin : Z; ymax : Z }.

(** A galsim image: its bounds and the pixel scale of its wcs, which the fit
    models never read and the renderer does, and its numpy array: the shape
    (rows, columns) and the entries in row-major order. *)
Record Image (A : Type) : Type := {
  bounds : Bounds;
  wcs_scale : float;
  shape : nat * nat;
  array : list A
}.

(** The image with new entries in its array. *)
Definition with_array {A B : Type} (im : Image A) (a : list B) : Image B :=
  {| bounds := bounds im; wcs_scale := wcs_scale im; shape := shape im;
     array := a |}.

(** numpy's broadcasting of the entries [b] of an array of [c'] columns and
    [r'] rows to [c] columns and [r] rows: an axis of length 1 is stretched,
    an axis of another length is refused. *)
Definition stretch_columns {B : Type} (c c' : nat) (b : list B)
  : option (list B) :=
  if c' =? c then Some b
  else if c' =? 1 then Some (flat_map (fun y => repeat y c) b)
  else None.

Definition stretch_rows {B : Type} (r r' : nat) (b : list B)
  : option (list B) :=
  if r' =? r then Some b
  else if r' =? 1 then Some (concat (repeat b r))
  else None.

Definition broadcast_to {B : Type} (s : nat * nat) (b : Image B)
  : option (list B) :=
  match stretch_columns (snd s) (snd (shape b)) (array b) with
  | Some b' => stretch_rows (fst s) (fst (shape b)) b'
  | None => None
  end.

(** [a.array[:, :] = f(a.array[:, :], b.array[:, :])], the array of [a]
    updated in place from the array of [b], which numpy broadcasts to the
    shape of [a]; when it cannot, that is numpy's broadcast [ValueError].
    An array has as many entries as its shape says: entries that are not
    as many as those of [a] do not combine with them either. *)
Definition elementwise {A B : Type} (f : A -> B -> A) (a : Image A)
  (b : Image B) : result (Image A) :=
  match broadcast_to (shape a) b with
  | Some b' =>
    if length b' =? length (array a)
    then Ok (with_array a (map2 f (array a) b'))
    else Raise ValueError
  | None => Raise ValueError
  end.

(* ------------------------------------------------------------------ *)
(** ** Complex Fourier images *)

Definition complex : Type := (float * float)%type.
Definition real (z : complex) : float := fst z.
Definition imag (z : complex) : float := snd z.

Definition csub (a b : complex) : complex :=
  (real a - real b, imag a - imag b)%float.

(** A Fourier image: a galsim image of complex entries. *)
Definition karray : Type := Image complex.

(* ------------------------------------------------------------------ *)
(** ** The model registry *)

Definition str_in (s : string) (l : list string) : bool :=
  existsb (String.eqb s) l.

(** [get_galsim_npars(model, nband)]. *)
Definition get_galsim_npars (model : string) (nband : Z) : result Z :=
  if str_in model ["exp"; "dev"; "gauss"]%string then Ok (5 + nband)%Z
  else if str_in model ["spergel"; "moffat"]%string then Ok (6 + nband)%Z
  else Raise ValueError.

(* ------------------------------------------------------------------ *)
(** ** Methods that mutate: state and exceptions *)

(** A computation on a mutable object of type [St]: it returns or raises, and
    leaves the object in a new state either way. *)
Definition M (St A : Type) : Type := St -> result A * St.

Definition ret {St A : Type} (a : A) : M St A := fun s => (Ok a, s).

Definition mbind {St A B : Type} (m : M St A) (k : A -> M St B) : M St B :=
  fun s =>
    match m s with
    | (Ok a, s') => k a s'
    | (Raise e, s') => (Raise e, s')
    end.

Notation "x <-- m ;; k" := (mbind m (fun x => k))
  (at level 61, m at next level, right associativity).

Definition lift {St A : Type} (r : result A) : M St A := fun s => (r, s).

Definition gets {St A : Type} (f : St -> A) : M St A := fun s => (Ok (f s), s).

Definition modify {St : Type} (f : St -> St) : M St unit := fun s => (Ok tt, f s).

(** [try: m except Cls as err: raise GMixRangeError(str(err))]. *)
Definition except_as_range {St A : Type} (is_cls : exn -> bool) (m : M St A)
  : M St A :=
  fun s => let (r, s') := m s in (reraise_as_range is_cls r, s').

(** Run [m] on a part of the state. *)
Definition zoom {St T A : Type} (get : St -> T) (set : St -> T -> St) (m : M T A)
  : M St A :=
  fun s => let (r, t) := m (get s) in (r, set s t).

(** Run [m] on the object [l[i]]. *)
Definition zoom_nth {X A : Type} (i : nat) (m : M X A) : M (list X) A :=
  fun l =>
    match nth_error l i with
    | None => (Raise IndexError, l)
    | Some x => let (r, x') := m x in (r, replace_at l i x')
    end.

(** [for x in l: acc = body(acc)] where the body mutates the object [x]. *)
Fixpoint for_list {X Acc : Type} (body : Acc -> M X Acc) (acc : Acc)
  (l : list X) : result Acc * list X :=
  match l with
  | [] => (Ok acc, [])
  | x :: rest =>
    match body acc x with
    | (Raise e, x') => (Raise e, x' :: rest)
    | (Ok acc', x') =>
      let (r, rest') := for_list body acc' rest in (r, x' :: rest')
    end
  end.

(** [for i in range(i0, i0 + n): acc = body(i, acc)]. *)
Fixpoint for_range {St Acc : Type} (n i0 : nat) (body : nat -> Acc -> M St Acc)
  (acc : Acc) : M St Acc :=
  match n with
  | O => ret acc
  | S n' => acc' <-- body i0 acc ;; for_range n' (S i0) body acc'
  end.

(* ------------------------------------------------------------------ *)
(** ** The external renderer and the prior *)

(** The galsim profile classes the fit models instantiate. *)
Inductive galsim_class : Type :=
| Exponential
| DeVaucouleurs
| Gaussian
| Spergel
| Moffat.

(** What the code asks of galsim. [galsim_new c extra r50 flux] is the call
    [c(half_light_radius=r50, flux=flux)], with [extra] the leading
    positional argument ([nu] or [beta]) when there is one; [gs_shear] and
    [gs_shift] are the methods [shear(g1=, g2=)] and [shift]; the two draw
    methods take the profile and the image they draw into and give the
    image as they leave it: [_drawKImage(image)] trusts the bounds of the
    image, [drawKImage(image=image)] may rewrite them (it recentres the
    image) before it draws. [complex_mul] is the product of two entries as
    [Image.__imul__] computes it through numpy: the platform may round the
    four products and the two sums one by one, or fuse some of them. Every
    call may raise. *)
Class Galsim : Type := {
  GSObject : Type;
  galsim_new : galsim_class -> option float -> float -> float -> result GSObject;
  gs_shear : GSObject -> float -> float -> result GSObject;
  gs_shift : GSObject -> list float -> result GSObject;
  _drawKImage : GSObject -> karray -> result karray;
  drawKImage : GSObject -> karray -> result karray;
  complex_mul : complex -> complex -> complex
}.

(** A galsim image updated in place by another image ([a -= b], [a *= b]):
    galsim checks that the shapes of the two arrays agree, and so do then
    the numbers of their entries. *)
Definition same_shape {A B : Type} (a : Image A) (b : Image B) : bool :=
  (fst (shape a) =? fst (shape b)) && (snd (shape a) =? snd (shape b))
  && (length (array a) =? length (array b)).

Definition image_op (f : complex -> complex -> complex) (a b : karray)
  : result karray :=
  if same_shape a b then Ok (with_array a (map2 f (array a) (array b)))
  else Raise GalSimError.

(** A prior, as far as the fit models use it: [penalty_terms pars] are the
    penalty terms of the parameters [pars], in the order they are written;
    evaluating them may raise. *)
Record Prior : Type := { penalty_terms : list float -> result (list float) }.

(* ------------------------------------------------------------------ *)
(** ** Observations *)

(** A Fourier-space observation as [observation.make_kobs] gives it:
    [psf] is [kobs.psf.kimage] when [kobs.has_psf()]. *)
Record KObservation : Type := {
  kimage : karray;
  weight : Image float;
  psf : option karray
}.

(** An observation with the entries [_init_model_images] adds to its
    [meta]. *)
Record KObs : Type := {
  kobs : KObservation;
  meta_ierr : Image float;
  meta_kmodel : karray;
  meta_scratch : karray
}.

Definition with_kmodel (k : KObs) (a : karray) : KObs :=
  {| kobs := kobs k; meta_ierr := meta_ierr k; meta_kmodel := a;
     meta_scratch := meta_scratch k |}.

Definition with_scratch (k : KObs) (a : karray) : KObs :=
  {| kobs := kobs k; meta_ierr := meta_ierr k; meta_kmodel := meta_kmodel k;
     meta_scratch := a |}.

(* ------------------------------------------------------------------ *)
(** ** The fit model object *)

Inductive fit_class : Type :=
| GalsimFitModel
| GalsimSpergelFitModel
| GalsimMoffatFitModel.

Record Self : Type := {
  cls : fit_class;
  model : string;
  _model_class : galsim_class;
  prior : option Prior;
  mb_kobs : list (list KObs);
  nband : nat;
  n_prior_pars : nat;
  totpix : nat;
  fdiff_size : nat;
  npars : Z;
  _band_pars : list float
}.

Definition with_band_pars (self : Self) (p : list float) : Self :=
  {| cls := cls self; model := model self; _model_class := _model_class self;
     prior := prior self; mb_kobs := mb_kobs self; nband := nband self;
     n_prior_pars := n_prior_pars self; totpix := totpix self;
     fdiff_size := fdiff_size self; npars := npars self; _band_pars := p |}.

Definition with_mb_kobs (self : Self) (mb : list (list KObs)) : Self :=
  {| cls := cls self; model := model self; _model_class := _model_class self;
     prior := prior self; mb_kobs := mb; nband := nband self;
     n_prior_pars := n_prior_pars self; totpix := totpix self;
     fdiff_size := fdiff_size self; npars := npars self;
     _band_pars := _band_pars self |}.

(** Number of leading parameters shared by all bands:
    [c1, c2, e1, e2, r50] and, for Spergel and Moffat, [nu] or [beta]. *)
Definition nshared (c : fit_class) : nat :=
  match c with
  | GalsimFitModel => 5
  | GalsimSpergelFitModel => 6
  | GalsimMoffatFitModel => 6
  end.

(** The body the three [get_band_pars] share, [k] being 5 or 6:
    [pars = self._band_pars; pars[0:k] = pars_in[0:k];
     pars[k] = pars_in[k + band]; return pars]. *)
Definition get_band_pars_at (k : nat) (pars_in : list float) (band : nat)
  : M Self (list float) :=
  pars <-- gets _band_pars ;;
  pars <-- lift (set_slice pars 0 k (get_slice pars_in 0 k)) ;;
  _ <-- modify (fun self => with_band_pars self pars) ;;
  pars <-- lift (x <- get_item pars_in (k + band) ;; set_item pars k x) ;;
  _ <-- modify (fun self => with_band_pars self pars) ;;
  ret pars.

(** [get_band_pars(pars_in, band)], by class. *)
Definition get_band_pars (pars_in : list float) (band : nat)
  : M Self (list float) :=
  fun self =>
    match cls self with
    | GalsimFitModel => get_band_pars_at 5 pars_in band self
    | GalsimSpergelFitModel => get_band_pars_at 6 pars_in band self
    | GalsimMoffatFitModel => get_band_pars_at 6 pars_in band self
    end.

Section FitModel.

Context {G : Galsim}.

(** [defaults.LOWVAL], the value of a strongly disfavoured fit. *)
Variable LOWVAL : float.

(** [ndarray.sum()] of a 2-D array (numpy adds pairwise, in an order of its
    own). *)
Variable np_sum : list float -> float.

(** [make_round_model(pars)], by class. *)
Definition make_round_model (self : Self) (pars : list float)
  : result GSObject :=
  match cls self with
  | GalsimFitModel =>
    r50 <- get_item pars 4 ;;
    flux <- get_item pars 5 ;;
    if (r50 <? 0.0001)%float then Raise GMixRangeError
    else
      reraise_as_range isinstance_RuntimeError
        (galsim_new (_model_class self) None r50 flux)
  | GalsimSpergelFitModel =>
    r50 <- get_item pars 4 ;;
    nu <- get_item pars 5 ;;
    flux <- get_item pars 6 ;;
    reraise_as_range isinstance_RuntimeError
      (galsim_new Spergel (Some nu) r50 flux)
  | GalsimMoffatFitModel =>
    r50 <- get_item pars 4 ;;
    beta <- get_item pars 5 ;;
    flux <- get_item pars 6 ;;
    reraise_as_range isinstance_RuntimeError
      (galsim_new Moffat (Some beta) r50 flux)
  end.

(** [make_model(pars)]. *)
Definition make_model (self : Self) (pars : list float) : result GSObject :=
  gsmodel <- make_round_model self pars ;;
  let shift := get_slice pars 0 (0 + 2) in
  g1 <- get_item pars 2 ;;
  g2 <- get_item pars 3 ;;
  gsmodel <- reraise_as_range isinstance_ValueError (gs_shear gsmodel g1 g2) ;;
  gs_shift gsmodel shift.

(** The body of the loop over the epochs of a band in [_fill_models]. *)
Definition _fill_models_kobs (self : Self) (band_pars : list float)
  : M KObs unit :=
  gal <-- lift (make_model self band_pars) ;;
  kmodel <-- gets meta_kmodel ;;
  kmodel <-- lift (_drawKImage gal kmodel) ;;
  _ <-- modify (fun k => with_kmodel k kmodel) ;;
  has_psf <-- gets (fun k => psf (kobs k)) ;;
  match has_psf with
  | Some psf_kimage =>
    kmodel <-- lift (image_op complex_mul kmodel psf_kimage) ;;
    modify (fun k => with_kmodel k kmodel)
  | None => ret tt
  end.

(** The body of the loop over the bands in [_fill_models]. *)
Definition _fill_models_band (pars : list float) (band : nat) (_ : unit)
  : M Self unit :=
  band_pars <-- get_band_pars pars band ;;
  fun self =>
    zoom mb_kobs with_mb_kobs
      (zoom_nth band
         (for_list (fun _ => _fill_models_kobs self band_pars) tt))
      self.

(** [_fill_models(pars)]. *)
Definition _fill_models (pars : list float) : M Self unit :=
  except_as_range isinstance_RuntimeError
    (n <-- gets (fun self => length (mb_kobs self)) ;;
     for_range n 0 (_fill_models_band pars) tt).

(** Modelled from the spec: [FitModel._fill_priors] of
    [fitting/results.py], the base class, which is not among the sources.
    With a prior, its penalty terms for [pars] are written at the front of
    [fdiff], positions [0] to their number, and the next free position is
    returned; without one nothing is written and the position is 0. *)
Definition _fill_priors (self : Self) (pars : list float)
  (fdiff : list float) : result (nat * list float) :=
  match prior self with
  | None => Ok (0, fdiff)
  | Some p =>
    terms <- penalty_terms p pars ;;
    let n := length terms in
    if n <=? length fdiff then Ok (n, terms ++ skipn n fdiff)
    else Raise IndexError
  end.

(** The body of the loop over the epochs of a band in [calc_fdiff]:
    [acc] is [(start, fdiff)]. *)
Definition calc_fdiff_kobs (acc : nat * list float)
  : M KObs (nat * list float) :=
  let (start, fdiff) := acc in
  kmodel <-- gets meta_kmodel ;;
  ierr <-- gets meta_ierr ;;
  scratch <-- gets meta_scratch ;;
  (* model-data *)
  scratch <-- lift (elementwise (fun _ z => z) scratch kmodel) ;;
  _ <-- modify (fun k => with_scratch k scratch) ;;
  data <-- gets (fun k => kimage (kobs k)) ;;
  scratch <-- lift (image_op csub scratch data) ;;
  _ <-- modify (fun k => with_scratch k scratch) ;;
  (* (model-data)/err *)
  scratch <-- lift (elementwise (fun z e => (real z * e, imag z)%float)
                      scratch ierr) ;;
  _ <-- modify (fun k => with_scratch k scratch) ;;
  scratch <-- lift (elementwise (fun z e => (real z, imag z * e)%float)
                      scratch ierr) ;;
  _ <-- modify (fun k => with_scratch k scratch) ;;
  (* now copy into the full fdiff array *)
  let imsize := length (array scratch) in
  fdiff <-- lift (set_slice fdiff start (start + imsize)
                    (map real (array scratch))) ;;
  let start := start + imsize in
  fdiff <-- lift (set_slice fdiff start (start + imsize)
                    (map imag (array scratch))) ;;
  let start := start + imsize in
  ret (start, fdiff).

(** The body of the loop over the bands in [calc_fdiff]. *)
Definition calc_fdiff_band (band : nat) (acc : nat * list float)
  : M Self (nat * list float) :=
  zoom mb_kobs with_mb_kobs (zoom_nth band (for_list calc_fdiff_kobs acc)).

(** The [try] block of [calc_fdiff]. *)
Definition calc_fdiff_try (pars : list float) (fdiff : list float)
  : M Self (list float) :=
  _ <-- _fill_models pars ;;
  acc <-- (fun self => lift (_fill_priors self pars fdiff) self) ;;
  nb <-- gets nband ;;
  acc <-- for_range nb 0 calc_fdiff_band acc ;;
  ret (snd acc).

(** [calc_fdiff(pars)]. The array [fdiff] is allocated with [fdiff_size]
    entries and only written in place, so [fdiff[:] = LOWVAL] fills that
    many entries, whatever was written before the exception. *)
Definition calc_fdiff (pars : list float) : M Self (list float) :=
  fun self =>
    let fdiff := np_zeros (fdiff_size self) in
    match calc_fdiff_try pars fdiff self with
    | (Ok fdiff', self') => (Ok fdiff', self')
    | (Raise e, self') =>
      if isinstance_GMixRangeError e then (Ok (fill_all fdiff LOWVAL), self')
      else (Raise e, self')
    end.

(** The body of the loop over the bands in [_check_guess]. *)
Definition _check_guess_band (guess : list float) (band : nat) (_ : unit)
  : M Self unit :=
  band_pars <-- get_band_pars guess band ;;
  fun self => lift (gal <- make_model self band_pars ;; Ok tt) self.

(** [_check_guess(guess)]: the guess is already an array of [f8]. *)
Definition _check_guess (guess : list float) : M Self (list float) :=
  np <-- gets npars ;;
  if negb (Z.of_nat (length guess) =? np)%Z then lift (Raise ValueError)
  else
    nb <-- gets nband ;;
    _ <-- for_range nb 0 (_check_guess_band guess) tt ;;
    ret guess.

(** [_get_guess(guess)]. *)
Definition _get_guess (guess : list float) : M Self (list float) :=
  _check_guess guess.

(** [_set_model_class()], by class: the base class knows three models. *)
Definition _set_model_class (c : fit_class) (model : string)
  : result galsim_class :=
  match c with
  | GalsimFitModel =>
    if String.eqb model "exp" then Ok Exponential
    else if String.eqb model "dev" then Ok DeVaucouleurs
    else if String.eqb model "gauss" then Ok Gaussian
    else Raise NotImplementedError
  | GalsimSpergelFitModel => Ok Spergel
  | GalsimMoffatFitModel => Ok Moffat
  end.

(** [_set_n_prior_pars()], by class. *)
Definition _set_n_prior_pars (c : fit_class) (prior : option Prior)
  (nband : nat) : nat :=
  match c with
  | GalsimFitModel =>
    match prior with
    | None => 0
    | Some _ => 1 + 1 + 1 + 1 + nband
    end
  | GalsimSpergelFitModel =>
    match prior with
    | None => 0
    | Some _ => 1 + 1 + 1 + 1 + 1 + nband
    end
  | GalsimMoffatFitModel =>
    match prior with
    | None => 0
    | Some _ => 1 + 1 + 1 + 1 + 1 + nband
    end
  end.

(** [_set_totpix()]. *)
Definition _set_totpix (mb_kobs : list (list KObservation)) : nat :=
  fold_left
    (fun totpix kobs_list =>
       fold_left (fun totpix kobs => totpix + length (array (kimage kobs)))
         kobs_list totpix)
    mb_kobs 0.

(** [_set_fdiff_size()]. *)
Definition _set_fdiff_size (n_prior_pars totpix : nat) : nat :=
  n_prior_pars + 2 * totpix.

(** The body of [_init_model_images] with [_create_models_in_kobs]. *)
Definition init_kobs (k : KObservation) : KObs :=
  {| kobs := k;
     meta_ierr :=
       with_array (weight k)
         (map (fun w => if (0 <? w)%float then PrimFloat.sqrt w else 0%float)
            (array (weight k)));
     meta_kmodel := kimage k;
     meta_scratch := kimage k |}.

(** [_init_model_images()]. *)
Definition _init_model_images (mb_kobs : list (list KObservation))
  : list (list KObs) :=
  map (map init_kobs) mb_kobs.

(** [_set_band_pars()] with [_set_npars()]: the total number of parameters
    and the per-band buffer. *)
Definition _set_band_pars (model : string) (nband : nat)
  : result (Z * list float) :=
  npars <- get_galsim_npars model (Z.of_nat nband) ;;
  let npars_band := (npars - Z.of_nat nband + 1)%Z in
  if (npars_band <? 0)%Z then Raise ValueError
  else Ok (npars, np_zeros (Z.to_nat npars_band)).

(** The model name each class passes to the base constructor. *)
Definition model_of (c : fit_class) (model : string) : string :=
  match c with
  | GalsimFitModel => model
  | GalsimSpergelFitModel => "spergel"
  | GalsimMoffatFitModel => "moffat"
  end.

(** [__init__(obs, model, guess, prior)] of the class [c] up to
    [_set_band_pars()], after the observations were converted by [_set_kobs]
    to [mb_kobs]; [model] counts for the base class only. *)
Definition init_setup (c : fit_class) (mb_kobs : list (list KObservation))
  (model : string) (prior : option Prior) : result Self :=
  let model := model_of c model in
  model_class <- _set_model_class c model ;;
  let nband := length mb_kobs in
  let n_prior_pars := _set_n_prior_pars c prior nband in
  let totpix := _set_totpix mb_kobs in
  let fdiff_size := _set_fdiff_size n_prior_pars totpix in
  let kobs := _init_model_images mb_kobs in
  b <- _set_band_pars model nband ;;
  Ok {| cls := c; model := model; _model_class := model_class;
        prior := prior; mb_kobs := kobs; nband := nband;
        n_prior_pars := n_prior_pars; totpix := totpix;
        fdiff_size := fdiff_size; npars := fst b; _band_pars := snd b |}.

(** [__init__(obs, model, guess, prior)] of the class [c]: the set-up, then
    [guess = self._get_guess(guess)]. *)
Definition __init__ (c : fit_class) (mb_kobs : list (list KObservation))
  (model : string) (guess : list float) (prior : option Prior)
  : result Self :=
  self <- init_setup c mb_kobs model prior ;;
  match _get_guess guess self with
  | (Ok _, self') => Ok self'
  | (Raise e, _) => Raise e
  end.

(** The body of the loop over the epochs of a band in [calc_s2n_r]. *)
Definition calc_s2n_r_kobs (self : Self) (band_pars : list float)
  (s2n_sum : float) : M KObs float :=
  let round_pars := fill_slice band_pars 2 (2 + 2) 0%float in
  gal <-- lift (make_model self round_pars) ;;
  kmodel <-- gets meta_kmodel ;;
  kmodel <-- lift (drawKImage gal kmodel) ;;
  _ <-- modify (fun k => with_kmodel k kmodel) ;;
  has_psf <-- gets (fun k => psf (kobs k)) ;;
  kmodel <-- match has_psf with
             | Some psf_kimage =>
               kmodel <-- lift (image_op complex_mul kmodel psf_kimage) ;;
               _ <-- modify (fun k => with_kmodel k kmodel) ;;
               ret kmodel
             | None => ret kmodel
             end ;;
  let kmodel :=
    with_array kmodel
      (map (fun z => (real z * real z, imag z)%float) (array kmodel)) in
  let kmodel :=
    with_array kmodel
      (map (fun z => (real z, imag z * imag z)%float) (array kmodel)) in
  _ <-- modify (fun k => with_kmodel k kmodel) ;;
  w <-- gets (fun k => weight (kobs k)) ;;
  kmodel <-- lift (elementwise (fun z w => (real z * w, imag z)%float)
                     kmodel w) ;;
  _ <-- modify (fun k => with_kmodel k kmodel) ;;
  kmodel <-- lift (elementwise (fun z w => (real z, imag z * w)%float)
                     kmodel w) ;;
  _ <-- modify (fun k => with_kmodel k kmodel) ;;
  let s2n_sum := (s2n_sum + np_sum (map real (array kmodel)))%float in
  let s2n_sum := (s2n_sum + np_sum (map imag (array kmodel)))%float in
  ret s2n_sum.

(** The body of the loop over the bands in [calc_s2n_r]. *)
Definition calc_s2n_r_band (pars : list float) (band : nat) (s2n_sum : float)
  : M Self float :=
  band_pars <-- get_band_pars pars band ;;
  fun self =>
    zoom mb_kobs with_mb_kobs
      (zoom_nth band (for_list (calc_s2n_r_kobs self band_pars) s2n_sum))
      self.

(** The loops of [calc_s2n_r]: the accumulated [s2n_sum]. *)
Definition calc_s2n_sum (pars : list float) : M Self float :=
  n <-- gets (fun self => length (mb_kobs self)) ;;
  for_range n 0 (calc_s2n_r_band pars) 0%float.

(** [calc_s2n_r(pars)]. *)
Definition calc_s2n_r (pars : list float) : M Self float :=
  s2n_sum <-- calc_s2n_sum pars ;;
  if (0.0 <? s2n_sum)%float then ret (PrimFloat.sqrt s2n_sum)
  else ret 0%float.

End FitModel.

(* ------------------------------------------------------------------ *)
(** ** Gaussian weighted moments ([gaussmom.py]) *)

(** The entries of the result dictionary of [get_weighted_moments] that
    [_measure_moments] reads or writes, and its [flagstr]. *)
Record MomResult : Type := {
  flags : Z;
  flagstr : string;
  flux : float;
  flux_err : float;
  pars : list float;
  sums : list float;
  sums_cov : list (list float);
  sums_norm : float;
  wsum : float;
  sums_err : list float
}.

Section GaussMom.

(** The observations, the weight's [get_weighted_moments(obs=,
    with_higher_order=)], [obs.jacobian.area] (a numpy [f8]) and the
    power [x**y] of the platform. *)
Variable Obs : Type.
Variable get_weighted_moments : Obs -> bool -> MomResult.
Variable jacobian_area : Obs -> float.
Variable float_pow : float -> float -> float.

(** [a *= fac] on an array. *)
Definition scale (fac : float) (a : list float) : list float :=
  map (fun x => (x * fac)%float) a.

(** [_measure_moments(obs)]. *)
Definition _measure_moments (with_higher_order : bool) (obs : Obs)
  : result MomResult :=
  let res := get_weighted_moments obs with_higher_order in
  if negb (flags res =? 0)%Z then Ok res
  else
    let area := jacobian_area obs in
    let fac := (1 / area)%float in
    p5 <- get_item (pars res) 5 ;;
    pars' <- set_item (pars res) 5 (p5 * fac)%float ;;
    Ok {| flags := flags res;
          flagstr := flagstr res;
          flux := (flux res * fac)%float;
          flux_err := (flux_err res * fac)%float;
          pars := pars';
          sums := scale fac (sums res);
          sums_cov := map (scale (float_pow fac 2)) (sums_cov res);
          sums_norm := (sums_norm res * fac)%float;
          wsum := (wsum res * fac)%float;
          sums_err := scale fac (sums_err res) |}.

End GaussMom.

(* ------------------------------------------------------------------ *)
(** ** A small renderer and a small prior, to run the code on *)

(** The product of two complex numbers with each of its six operations
    rounded on its own. *)
Definition cmul (a b : complex) : complex :=
  (real a * real b - imag a * imag b, real a * imag b + imag a * real b)%float.

(** Bounds moved so that their centre, which galsim takes to be
    [((xmin + xmax + 1) // 2, (ymin + ymax + 1) // 2)], is the origin. *)
Definition recentred (b : Bounds) : Bounds :=
  let cx := ((xmin b + xmax b + 1) / 2)%Z in
  let cy := ((ymin b + ymax b + 1) / 2)%Z in
  {| xmin := xmin b - cx; xmax := xmax b - cx;
     ymin := ymin b - cy; ymax := ymax b - cy |}.

(** A renderer whose profiles are a flux: a profile is refused with
    [RuntimeError] when its size is not positive, a shear with [ValueError]
    when a component exceeds 1, and a drawn image has the flux in every
    entry, wherever its bounds are; [drawKImage] recentres the image it
    draws into. *)
Definition flat_galsim : Galsim := {|
  GSObject := float;
  galsim_new := fun _ _ r50 flux =>
    if (0 <? r50)%float then Ok flux else Raise RuntimeError;
  gs_shear := fun g g1 g2 =>
    if ((1 <? g1) || (1 <? g2))%float then Raise ValueError else Ok g;
  gs_shift := fun g _ => Ok g;
  _drawKImage := fun g im =>
    Ok (with_array im (map (fun _ => (g, 0%float)) (array im)));
  drawKImage := fun g im =>
    Ok {| bounds := recentred (bounds im); wcs_scale := wcs_scale im;
          shape := shape im;
          array := map (fun _ => (g, 0%float)) (array im) |};
  complex_mul := cmul
|}.

(** The coordinates of the entry [i] of the array of an image of [ncol]
    columns with the bounds [b]. *)
Definition pixel_at (b : Bounds) (ncol i : nat) : Z * Z :=
  ((xmin b + Z.of_nat (i mod ncol))%Z, (ymin b + Z.of_nat (i / ncol))%Z).

(** A renderer whose profiles have all their power at [k = 0]: the pixel at
    the origin of the image's bounds gets the flux and every other pixel 0;
    [drawKImage] recentres the image and then draws. *)
Definition draw_point (g : float) (im : karray) : karray :=
  with_array im
    (map (fun i =>
            match pixel_at (bounds im) (snd (shape im)) i with
            | (0%Z, 0%Z) => (g, 0%float)
            | _ => (0%float, 0%float)
            end)
       (seq 0 (length (array im)))).

Definition point_galsim : Galsim := {|
  GSObject := float;
  galsim_new := fun _ _ r50 flux =>
    if (0 <? r50)%float then Ok flux else Raise RuntimeError;
  gs_shear := fun g g1 g2 =>
    if ((1 <? g1) || (1 <? g2))%float then Raise ValueError else Ok g;
  gs_shift := fun g _ => Ok g;
  _drawKImage := fun g im => Ok (draw_point g im);
  drawKImage := fun g im =>
    Ok (draw_point g
          {| bounds := recentred (bounds im); wcs_scale := wcs_scale im;
             shape := shape im; array := array im |});
  complex_mul := cmul
|}.

(** The same renderer with profiles that cannot be shifted: [shift] raises
    [NotImplementedError]. *)
Definition abstract_galsim : Galsim := {|
  GSObject := float;
  galsim_new := fun _ _ r50 flux =>
    if (0 <? r50)%float then Ok flux else Raise RuntimeError;
  gs_shear := fun g g1 g2 =>
    if ((1 <? g1) || (1 <? g2))%float then Raise ValueError else Ok g;
  gs_shift := fun _ _ => Raise NotImplementedError;
  _drawKImage := fun g im =>
    Ok (with_array im (map (fun _ => (g, 0%float)) (array im)));
  drawKImage := fun g im =>
    Ok {| bounds := recentred (bounds im); wcs_scale := wcs_scale im;
          shape := shape im;
          array := map (fun _ => (g, 0%float)) (array im) |};
  complex_mul := cmul
|}.

(** A prior with [n] penalty terms, all 1. *)
Definition unit_prior (n : nat) : Prior :=
  {| penalty_terms := fun _ => Ok (repeat 1%float n) |}.

(** Centred images of two rows and two columns, and of one row and two
    columns. *)
Definition image22 {A : Type} (a : list A) : Image A :=
  {| bounds := {| xmin := -1; xmax := 0; ymin := -1; ymax := 0 |};
     wcs_scale := 1; shape := (2, 2); array := a |}.

Definition image12 {A : Type} (a : list A) : Image A :=
  {| bounds := {| xmin := -1; xmax := 0; ymin := 0; ymax := 0 |};
     wcs_scale := 1; shape := (1, 2); array := a |}.

(** One observation of four Fourier pixels, one of two, and sets of
    them. *)
Definition kobs4 : KObservation :=
  {| kimage := image22 [(1, 0); (2, 1); (3, 0); (4, -1)]%float;
     weight := image22 [4; 4; 0; 1]%float;
     psf := Some (image22 [(1, 0); (1, 0); (1, 0); (1, 0)]%float) |}.

Definition kobs2 : KObservation :=
  {| kimage := image12 [(1, 1); (0, 2)]%float;
     weight := image12 [1; 1]%float;
     psf := None |}.

Definition one_band : list (list KObservation) := [[kobs4]].
Definition two_bands : list (list KObservation) := [[kobs4; kobs2]; [kobs2]].

Definition gauss_guess : list float := [0; 0; 0; 0; 0.3; 100.0]%float.

Definition LOWVAL0 : float := (-9999.0e47)%float.

(** A pairwise-free sum, to run [calc_s2n_r] on. *)
Definition left_sum (a : list float) : float :=
  fold_left PrimFloat.add a 0%float.

(** The model a constructor call built; an empty model when it raised. *)
Definition blank : Self :=
  {| cls := GalsimFitModel; model := ""; _model_class := Gaussian;
     prior := None; mb_kobs := []; nband := 0; n_prior_pars := 0;
     totpix := 0; fdiff_size := 0; npars := 0; _band_pars := [] |}.

Definition constructed (r : result Self) : Self :=
  match r with
  | Ok self => self
  | Raise _ => blank
  end.

(** One band, one epoch, Gaussian, no prior. *)
Definition gauss_model : Self :=
  constructed
    (__init__ (G := flat_galsim) GalsimFitModel one_band "gauss" gauss_guess
       None).

Definition spergel_guess : list float := [0; 0; 0; 0; 0.3; 0.5; 10; 20]%float.

(** Two bands, Spergel, a prior of seven terms. *)
Definition spergel_model : Self :=
  constructed
    (__init__ (G := flat_galsim) GalsimSpergelFitModel two_bands ""
       spergel_guess (Some (unit_prior 7))).

(** Two bands, exponential, a prior of six terms. *)
Definition exp_guess : list float := [0; 0; 0; 0; 0.3; 10; 20]%float.

Definition exp_model : Self :=
  constructed
    (__init__ (G := flat_galsim) GalsimFitModel two_bands "exp" exp_guess
       (Some (unit_prior 6))).

(** One band of one epoch whose image of two pixels is not centred,
    Gaussian, no prior, for the renderer whose profiles are a point. *)
Definition off_centre {A : Type} (a : list A) : Image A :=
  {| bounds := {| xmin := 1; xmax := 2; ymin := 0; ymax := 0 |};
     wcs_scale := 1; shape := (1, 2); array := a |}.

Definition off_centre_model : Self :=
  constructed
    (__init__ (G := point_galsim) GalsimFitModel
       [[ {| kimage := off_centre [(1, 1); (0, 2)]%float;
             weight := off_centre [1; 1]%float;
             psf := None |} ]]
       "gauss" gauss_guess None).

(** One band, Moffat, no prior. *)
Definition moffat_guess : list float := [0; 0; 0; 0; 0.3; 2.5; 10]%float.

Definition moffat_model : Self :=
  constructed
    (__init__ (G := flat_galsim) GalsimMoffatFitModel one_band ""
       moffat_guess None).

(** A size below the threshold of the base class, in a Spergel or Moffat
    slice. *)
Definition tiny_slice : list float := [0; 0; 0; 0; 0.00001; 2.5; 10]%float.

(** A moments result of the weight, successful or flagged, and an
    observation of pixel area 4. *)
Definition sample_moments (fl : Z) : MomResult :=
  {| flags := fl; flagstr := ""; flux := 8; flux_err := 2;
     pars := [0; 0; 0; 0; 1; 8]%float; sums := [4; 8]%float;
     sums_cov := [[16; 0]; [0; 16]]%float; sums_norm := 4; wsum := 12;
     sums_err := [4; 4]%float |}.

(* ------------------------------------------------------------------ *)
(** ** Notions the properties are stated with *)

(** The per-band slice [c1, c2, e1, e2, r50, (extra), flux_band] of a full
    parameter vector. *)
Definition band_slice (c : fit_class) (pars : list float) (band : nat)
  : list float :=
  firstn (nshared c) pars ++ [nth (nshared c + band) pars 0%float].

(** The normalized difference (model - data) / error of an observation whose
    model image is filled, and its part of the residual vector: the real
    parts, then the imaginary parts. *)
Definition normalized_diff (k : KObs) : list complex :=
  map2 (fun z e => (real z * e, imag z * e)%float)
    (map2 csub (array (meta_kmodel k)) (array (kimage (kobs k))))
    (array (meta_ierr k)).

Definition residual_block (k : KObs) : list float :=
  map real (normalized_diff k) ++ map imag (normalized_diff k).

(** The residual vector: the prior's terms, then the blocks of the
    observations, bands in index order and epochs in list order. *)
Definition residual_layout (terms : list float) (mb : list (list KObs))
  : list float :=
  terms ++ concat (map (fun kobs_list => concat (map residual_block kobs_list)) mb).

(** The prior's penalty terms for [pars]: none without a prior. *)
Definition prior_terms (self : Self) (pars : list float)
  : result (list float) :=
  match prior self with
  | None => Ok []
  | Some p => penalty_terms p pars
  end.

(** Total number of Fourier pixels of an observation set. *)
Definition total_pixels (mb : list (list KObservation)) : nat :=
  list_sum
    (map (fun kobs_list =>
            list_sum (map (fun k => length (array (kimage k))) kobs_list))
       mb).

(** The sizes of a model for the observations [mb] and the prior [pr]. *)
Definition sized (mb : list (list KObservation)) (pr : option Prior)
  (self : Self) : Prop :=
  fdiff_size self = n_prior_pars self + 2 * totpix self /\
  totpix self = total_pixels mb /\
  (pr = None -> n_prior_pars self = 0).

(** Two images of one shape and one number of entries. *)
Definition same_grid {A B : Type} (a : Image A) (b : Image B) : Prop :=
  shape a = shape b /\ length (array a) = length (array b).

(** Two images that differ in their entries only. *)
Definition same_frame {A : Type} (a b : Image A) : Prop :=
  bounds a = bounds b /\ wcs_scale a = wcs_scale b /\ same_grid a b.

(** The images of an observation have one shape. *)
Definition kobs_wf (k : KObs) : Prop :=
  same_grid (meta_kmodel k) (kimage (kobs k)) /\
  same_grid (meta_scratch k) (kimage (kobs k)) /\
  same_grid (meta_ierr k) (kimage (kobs k)).

(** What the constructor establishes and the methods keep. *)
Definition wf (self : Self) : Prop :=
  nband self = length (mb_kobs self) /\
  fdiff_size self = n_prior_pars self + 2 * totpix self /\
  totpix self = total_pixels (map (map kobs) (mb_kobs self)) /\
  length (_band_pars self) = nshared (cls self) + 1 /\
  Forall (Forall kobs_wf) (mb_kobs self).

(** Two states of one observation that differ in the contents of its
    buffers only. *)
Definition kobs_sim (k1 k2 : KObs) : Prop :=
  kobs k1 = kobs k2 /\
  meta_ierr k1 = meta_ierr k2 /\
  same_frame (meta_kmodel k1) (meta_kmodel k2) /\
  same_frame (meta_scratch k1) (meta_scratch k2).

(** Two states of one fit model that differ in the contents of its buffers
    only. *)
Definition sim (s1 s2 : Self) : Prop :=
  cls s1 = cls s2 /\
  _model_class s1 = _model_class s2 /\
  prior s1 = prior s2 /\
  nband s1 = nband s2 /\
  fdiff_size s1 = fdiff_size s2 /\
  npars s1 = npars s2 /\
  length (_band_pars s1) = nshared (cls s1) + 1 /\
  length (_band_pars s2) = nshared (cls s2) + 1 /\
  Forall2 (Forall2 kobs_sim) (mb_kobs s1) (mb_kobs s2).

(** Two states of one observation whose model images are filled alike. *)
Definition kobs_eq (k1 k2 : KObs) : Prop :=
  kobs_sim k1 k2 /\ meta_kmodel k1 = meta_kmodel k2.

(** Two states of one fit model whose first [b] bands are filled alike. *)
Definition sim_upto (b : nat) (s1 s2 : Self) : Prop :=
  sim s1 s2 /\
  Forall2 (Forall2 kobs_eq) (firstn b (mb_kobs s1)) (firstn b (mb_kobs s2)).

(** Two states of one fit model whose model images are all filled alike. *)
Definition sim_eq (s1 s2 : Self) : Prop :=
  sim s1 s2 /\ Forall2 (Forall2 kobs_eq) (mb_kobs s1) (mb_kobs s2).

(** A computation that sees of the state only what [R] relates: from
    related states it gives one result and related states, it keeps the
    state related to the one it started from, and when it returns the
    states are related by [Rok]. *)
Definition respects {St A : Type} (R Rok : St -> St -> Prop) (m : M St A)
  : Prop :=
  forall s1 s2, R s1 s2 ->
    fst (m s1) = fst (m s2) /\
    R (snd (m s1)) (snd (m s2)) /\
    R s1 (snd (m s1)) /\
    (forall a, fst (m s1) = Ok a -> Rok (snd (m s1)) (snd (m s2))).

(** A partial equivalence. *)
Definition per {St : Type} (R : St -> St -> Prop) : Prop :=
  (forall a b, R a b -> R b a) /\ (forall a b c, R a b -> R b c -> R a c).

(** The renderer draws in place: [_drawKImage] changes the entries of the
    image only, and what the image held before does not count. *)
Definition draws_in_place (G : Galsim) : Prop :=
  (forall g im im', _drawKImage g im = Ok im' -> same_frame im im') /\
  (forall g im1 im2,
     same_frame im1 im2 -> _drawKImage g im1 = _drawKImage g im2).

(** The other draw method, [drawKImage], leaves an image with the bounds,
    the scale and the shape of [im] as it finds it but for the entries: it
    has nothing to recentre or to rescale there. *)
Definition settled (G : Galsim) (im : karray) : Prop :=
  forall g im1 im',
    same_frame im im1 -> drawKImage g im1 = Ok im' -> same_frame im1 im'.

(** The accumulated weighted model power, in the words of the
    specification: for each band and each of its epochs, the band's slice
    of the parameters with the ellipticity set to zero, the round model of
    that slice rendered into the epoch's model image and multiplied by the
    PSF image when there is one, the squares of the real and of the
    imaginary parts multiplied by the weight map, and their sums over the
    pixels added to what was accumulated: the real parts, then the
    imaginary parts, the bands in index order and the epochs in list
    order. *)
Section Power.

Context {G : Galsim}.
Variable np_sum : list float -> float.

Definition round_slice (band_pars : list float) : list float :=
  fill_slice band_pars 2 (2 + 2) 0%float.

Definition round_image (self : Self) (band_pars : list float) (k : KObs)
  : result karray :=
  gal <- make_model self (round_slice band_pars) ;;
  km <- drawKImage gal (meta_kmodel k) ;;
  match psf (kobs k) with
  | Some p => image_op complex_mul km p
  | None => Ok km
  end.

Definition squares (km : karray) : karray :=
  with_array km
    (map (fun z => (real z * real z, imag z * imag z)%float) (array km)).

Definition weighted_power (km : karray) (w : Image float) : result karray :=
  elementwise (fun z x => (real z * x, imag z * x)%float) (squares km) w.

Definition add_power (self : Self) (band_pars : list float) (acc : float)
  (k : KObs) : result float :=
  km <- round_image self band_pars k ;;
  pw <- weighted_power km (weight (kobs k)) ;;
  Ok (acc + np_sum (map real (array pw)) + np_sum (map imag (array pw)))%float.

Fixpoint add_powers (self : Self) (band_pars : list float) (acc : float)
  (kobs_list : list KObs) : result float :=
  match kobs_list with
  | [] => Ok acc
  | k :: rest =>
    acc' <- add_power self band_pars acc k ;;
    add_powers self band_pars acc' rest
  end.

Fixpoint power_of_bands (self : Self) (pars : list float) (band : nat)
  (mb : list (list KObs)) (acc : float) : result float :=
  match mb with
  | [] => Ok acc
  | kobs_list :: rest =>
    acc' <- add_powers self (band_slice (cls self) pars band) acc kobs_list ;;
    power_of_bands self pars (S band) rest acc'
  end.

Definition weighted_model_power (self : Self) (pars : list float)
  : result float :=
  power_of_bands self pars 0 (mb_kobs self) 0%float.

End Power.

(** Two lists related entry by entry, the relation knowing the index of the
    entry, which counts from [i]. *)
Fixpoint Forall2_from {A B : Type} (R : nat -> A -> B -> Prop) (i : nat)
  (l1 : list A) (l2 : list B) : Prop :=
  match l1, l2 with
  | [], [] => True
  | x :: l1', y :: l2' => R i x y /\ Forall2_from R (S i) l1' l2'
  | _, _ => False
  end.

(** The observation [k1] is the observation [k] with its model image
    filled for the per-band parameters [band_pars]: the profile of these
    parameters drawn into the image and multiplied by the PSF image when
    there is one; the rest is as it was. *)
Definition rendered {G : Galsim} (self : Self) (band_pars : list float)
  (k k1 : KObs) : Prop :=
  kobs k1 = kobs k /\ meta_ierr k1 = meta_ierr k /\
  meta_scratch k1 = meta_scratch k /\
  exists gal km,
    make_model self band_pars = Ok gal /\
    _drawKImage gal (meta_kmodel k) = Ok km /\
    match psf (kobs k) with
    | None => meta_kmodel k1 = km
    | Some p =>
      same_grid km p /\
      meta_kmodel k1 = with_array km (map2 complex_mul (array km) (array p))
    end.

(* ================================================================== *)
(** * Properties *)

Unset Implicit Arguments.

(** ** The registry *)

(** C3: [get_galsim_npars(model, B)] is [5 + B] for 'exp', 'dev' and
    'gauss', [6 + B] for 'spergel' and 'moffat', and raises the error of an
    unsupported model, a [ValueError], for every other name; this for every
    integer [B]. *)
Theorem get_galsim_npars_spec : forall (model : string) (B : Z),
  (In model ["exp"; "dev"; "gauss"]%string ->
     get_galsim_npars model B = Ok (5 + B)%Z) /\
  (In model ["spergel"; "moffat"]%string ->
     get_galsim_npars model B = Ok (6 + B)%Z) /\
  (~ In model ["exp"; "dev"; "gauss"; "spergel"; "moffat"]%string ->
     get_galsim_npars model B = Raise ValueError).
Proof.
  intros model B. unfold get_galsim_npars, str_in. simpl.
  repeat split.
  - intros [H | [H | [H | []]]]; subst; reflexivity.
  - intros [H | [H | []]]; subst; reflexivity.
  - intros H.
    destruct (String.eqb_spec model "exp"); [exfalso; apply H; subst; auto|].
    destruct (String.eqb_spec model "dev"); [exfalso; apply H; subst; auto|].
    destruct (String.eqb_spec model "gauss"); [exfalso; apply H; subst; auto|].
    destruct (String.eqb_spec model "spergel");
      [exfalso; apply H; subst; simpl; auto 6|].
    destruct (String.eqb_spec model "moffat");
      [exfalso; apply H; subst; simpl; auto 6|].
    reflexivity.
Qed.

(** ** Lists and slices *)

Lemma replace_at_length : forall {A : Type} (a : list A) i x,
  length (replace_at a i x) = length a.
Proof.
  induction a as [|h t IH]; intros [|i] x; simpl; auto.
Qed.

Lemma replace_at_app : forall {A : Type} (a t : list A) y x,
  replace_at (a ++ y :: t) (length a) x = a ++ x :: t.
Proof.
  induction a as [|h a IH]; intros; simpl; [reflexivity|].
  now rewrite IH.
Qed.

Lemma skipn_last_one : forall {A : Type} (k : nat) (a : list A),
  length a = k + 1 -> exists y, skipn k a = [y].
Proof.
  induction k as [|k IH]; intros [|h t] H; simpl in *; try discriminate.
  - destruct t; [eauto | discriminate].
  - apply IH. lia.
Qed.

Lemma get_item_nth : forall {A : Type} (a : list A) i d,
  i < length a -> get_item a i = Ok (nth i a d).
Proof.
  intros A a i d H. unfold get_item.
  rewrite (nth_error_nth' a d H). reflexivity.
Qed.

Lemma set_slice_length : forall {A : Type} (a src r : list A) lo hi,
  set_slice a lo hi src = Ok r -> length r = length a.
Proof.
  intros A a src r lo hi. unfold set_slice, slice_len.
  destruct (Nat.eqb_spec (length src)
              (Nat.min hi (length a) - Nat.min lo (length a))) as [E|E].
  - intros H; inversion H; subst; clear H.
    rewrite !length_app, length_firstn, length_skipn. lia.
  - destruct src as [|x [|? ?]]; try discriminate.
    intros H; inversion H; subst; clear H.
    rewrite !length_app, length_firstn, repeat_length, length_skipn. lia.
Qed.

(** ** Steps of the state-and-exception computations *)

Lemma with_band_pars_twice : forall self p q,
  with_band_pars (with_band_pars self p) q = with_band_pars self q.
Proof. reflexivity. Qed.

Lemma with_band_pars_same : forall self,
  with_band_pars self (_band_pars self) = self.
Proof. intros []; reflexivity. Qed.

(** [get_band_pars_at] on a buffer of [k + 1] entries and a parameter
    vector that has the entry [k + band]. *)
Lemma get_band_pars_at_ok : forall k pars_in band self,
  length (_band_pars self) = k + 1 ->
  k + band < length pars_in ->
  let slice := firstn k pars_in ++ [nth (k + band) pars_in 0%float] in
  get_band_pars_at k pars_in band self = (Ok slice, with_band_pars self slice).
Proof.
  intros k pars_in band self Hb Hp slice.
  unfold get_band_pars_at, mbind, gets, lift, modify, ret.
  destruct (skipn_last_one k (_band_pars self) Hb) as [y Hy].
  assert (Hs : set_slice (_band_pars self) 0 k (get_slice pars_in 0 k)
               = Ok (firstn k pars_in ++ [y])).
  { unfold set_slice, slice_len, get_slice. rewrite Hb.
    rewrite Nat.sub_0_r. simpl skipn at 1.
    rewrite length_firstn.
    replace (Nat.min k (length pars_in)) with k by lia.
    replace (Nat.min k (k + 1) - Nat.min 0 (k + 1)) with k by lia.
    rewrite Nat.eqb_refl. simpl. now rewrite Hy. }
  rewrite Hs. cbn [bind].
  rewrite (get_item_nth pars_in _ 0%float Hp). cbn [bind].
  unfold set_item.
  assert (Hl : length (firstn k pars_in) = k)
    by (rewrite length_firstn; lia).
  rewrite length_app, Hl. simpl length.
  replace (k <? k + 1) with true by (symmetry; apply Nat.ltb_lt; lia).
  pose proof (replace_at_app (firstn k pars_in) [] y
                (nth (k + band) pars_in 0%float)) as Hr.
  rewrite Hl in Hr. rewrite Hr. reflexivity.
Qed.

(** [get_band_pars] on a model whose buffer has the size the constructor
    gives it. *)
Lemma get_band_pars_ok : forall pars_in band self,
  length (_band_pars self) = nshared (cls self) + 1 ->
  nshared (cls self) + band < length pars_in ->
  get_band_pars pars_in band self
  = (Ok (band_slice (cls self) pars_in band),
     with_band_pars self (band_slice (cls self) pars_in band)).
Proof.
  intros pars_in band self Hb Hp. unfold get_band_pars, band_slice.
  destruct (cls self); simpl in *; now apply get_band_pars_at_ok.
Qed.

(** Whatever it does, [get_band_pars] changes the buffer only. *)
Lemma get_band_pars_state : forall pars_in band self,
  exists p, snd (get_band_pars pars_in band self) = with_band_pars self p.
Proof.
  intros pars_in band self.
  assert (H : forall k, exists p,
             snd (get_band_pars_at k pars_in band self) = with_band_pars self p).
  { intros k. unfold get_band_pars_at, mbind, gets, lift, modify, ret.
    destruct (set_slice _ _ _ _) as [q|e]; simpl.
    - destruct (bind _ _); simpl; eexists; reflexivity.
    - exists (_band_pars self). now rewrite with_band_pars_same. }
  unfold get_band_pars. destruct (cls self); apply H.
Qed.

(** ** Per-band slices *)

Lemma nth_replace_at_other : forall {A : Type} (a : list A) i j x d,
  i <> j -> nth j (replace_at a i x) d = nth j a d.
Proof.
  induction a as [|h t IH]; intros [|i] [|j] x d H; simpl; auto.
  - congruence.
Qed.

Lemma firstn_replace_at_beyond : forall {A : Type} (a : list A) i k x,
  k <= i -> firstn k (replace_at a i x) = firstn k a.
Proof.
  induction a as [|h t IH]; intros [|i] [|k] x H; simpl; auto; try lia.
  f_equal. apply IH. lia.
Qed.

(** C7: for a full parameter vector of the variant's total length and two
    distinct bands [b] and [b'] in range, the slice extracted for [b'] is the
    shared leading parameters followed by the flux of [b'] (entries 0 to 4
    and [5 + b'] for exp, dev and gauss; 0 to 5 and [6 + b'] for spergel and
    moffat), and it stays the same when the flux of band [b] is changed. *)
Theorem get_band_pars_other_band : forall (self : Self) (pars : list float)
    (b b' : nat) (x : float),
  length (_band_pars self) = nshared (cls self) + 1 ->
  length pars = nshared (cls self) + nband self ->
  b < nband self -> b' < nband self -> b <> b' ->
  fst (get_band_pars pars b' self)
  = Ok (firstn (nshared (cls self)) pars
        ++ [nth (nshared (cls self) + b') pars 0%float]) /\
  fst (get_band_pars (replace_at pars (nshared (cls self) + b) x) b' self)
  = fst (get_band_pars pars b' self).
Proof.
  intros self pars b b' x Hbuf Hlen Hb Hb' Hne.
  rewrite !get_band_pars_ok;
    try rewrite replace_at_length; try assumption; try lia.
  simpl. split; [reflexivity|]. unfold band_slice.
  rewrite firstn_replace_at_beyond by lia.
  rewrite nth_replace_at_other by lia. reflexivity.
Qed.

Lemma get_band_pars_other_band_witness :
  fst (get_band_pars spergel_guess 1 spergel_model)
  = Ok (firstn 6 spergel_guess ++ [nth (6 + 1) spergel_guess 0%float]) /\
  fst (get_band_pars (replace_at spergel_guess (6 + 0) 99%float) 1
         spergel_model)
  = fst (get_band_pars spergel_guess 1 spergel_model).
Proof.
  apply (get_band_pars_other_band spergel_model spergel_guess 0 1 99%float).
  - reflexivity.
  - reflexivity.
  - simpl; lia.
  - simpl; lia.
  - lia.
Defined.

(** ** The constructor *)

Section Constructor.

Context {G : Galsim}.

Lemma make_model_with_band_pars : forall self p pars,
  make_model (with_band_pars self p) pars = make_model self pars.
Proof. reflexivity. Qed.

(** One round of the loop of [_check_guess] on a buffer of the right size. *)
Lemma check_guess_band_ok : forall guess b self,
  length (_band_pars self) = nshared (cls self) + 1 ->
  nshared (cls self) + b < length guess ->
  _check_guess_band guess b tt self
  = (gal <- make_model self (band_slice (cls self) guess b) ;; Ok tt,
     with_band_pars self (band_slice (cls self) guess b)).
Proof.
  intros guess b self Hbuf Hlen. unfold _check_guess_band, mbind.
  rewrite get_band_pars_ok by assumption. reflexivity.
Qed.

Lemma band_slice_length : forall c pars b,
  nshared c <= length pars -> length (band_slice c pars b) = nshared c + 1.
Proof.
  intros c pars b H. unfold band_slice.
  rewrite length_app, length_firstn. simpl. lia.
Qed.

(** The loop of [_check_guess] over the bands [i0, i0 + n): either every
    band's model is built and the loop ends, or the first band whose model
    is refused raises its exception. *)
Lemma check_guess_loop : forall guess n i0 self,
  length (_band_pars self) = nshared (cls self) + 1 ->
  nshared (cls self) + i0 + n <= length guess ->
  ((forall b, i0 <= b < i0 + n ->
      exists gal, make_model self (band_slice (cls self) guess b) = Ok gal) /\
   exists p, for_range n i0 (_check_guess_band guess) tt self
             = (Ok tt, with_band_pars self p) /\
             length p = nshared (cls self) + 1)
  \/
  (exists b e p, i0 <= b < i0 + n /\
     (forall b', i0 <= b' < b ->
        exists gal, make_model self (band_slice (cls self) guess b') = Ok gal) /\
     make_model self (band_slice (cls self) guess b) = Raise e /\
     for_range n i0 (_check_guess_band guess) tt self
     = (Raise e, with_band_pars self p)).
Proof.
  intros guess n. induction n as [|n IH]; intros i0 self Hbuf Hlen.
  - left. split; [intros b Hb; lia|].
    exists (_band_pars self). simpl. unfold ret.
    now rewrite with_band_pars_same.
  - assert (Hstep :
      for_range (S n) i0 (_check_guess_band guess) tt self
      = match make_model self (band_slice (cls self) guess i0) with
        | Ok _ =>
          for_range n (S i0) (_check_guess_band guess) tt
            (with_band_pars self (band_slice (cls self) guess i0))
        | Raise e =>
          (Raise e, with_band_pars self (band_slice (cls self) guess i0))
        end).
    { simpl for_range. unfold mbind.
      rewrite check_guess_band_ok by (assumption || lia).
      destruct (make_model self (band_slice (cls self) guess i0));
        reflexivity. }
    rewrite Hstep. clear Hstep.
    destruct (make_model self (band_slice (cls self) guess i0)) as [gal|e]
      eqn:Hm.
    + set (s1 := with_band_pars self (band_slice (cls self) guess i0)).
      assert (Hb1 : length (_band_pars s1) = nshared (cls s1) + 1).
      { subst s1. simpl. apply band_slice_length. lia. }
      destruct (IH (S i0) s1 Hb1) as [[Hall [p [Hr Hp]]] | [b [e [p H]]]].
      { subst s1; simpl; lia. }
      * left. split.
        -- intros b Hb. destruct (Nat.eq_dec b i0) as [->|Hne]; [eauto|].
           apply (Hall b). lia.
        -- exists p. rewrite Hr. split; [reflexivity | exact Hp].
      * destruct H as (Hb & Hprev & Hfail & Hr).
        right. exists b, e, p. split; [lia|]. split; [|split].
        -- intros b' Hb'. destruct (Nat.eq_dec b' i0) as [->|Hne]; [eauto|].
           apply (Hprev b'). lia.
        -- exact Hfail.
        -- rewrite Hr. reflexivity.
    + right. exists i0, e, (band_slice (cls self) guess i0).
      split; [lia|]. split; [intros b' Hb'; lia|]. split; [exact Hm|].
      reflexivity.
Qed.

Lemma set_band_pars_ok : forall name (k nb : nat),
  get_galsim_npars name (Z.of_nat nb) = Ok (Z.of_nat k + Z.of_nat nb)%Z ->
  _set_band_pars name nb = Ok (Z.of_nat (k + nb), np_zeros (k + 1)).
Proof.
  intros name k nb H. unfold _set_band_pars. rewrite H. cbn [bind].
  replace (Z.of_nat k + Z.of_nat nb - Z.of_nat nb + 1)%Z
    with (Z.of_nat (k + 1)) by lia.
  replace (Z.of_nat (k + 1) <? 0)%Z with false
    by (symmetry; apply Z.ltb_ge; lia).
  rewrite Nat2Z.id. do 2 f_equal. lia.
Qed.

(** What the set-up of the constructor leaves in the new model. *)
Lemma init_setup_inv : forall c mb name pr self,
  init_setup c mb name pr = Ok self ->
  cls self = c /\ prior self = pr /\ nband self = length mb /\
  mb_kobs self = _init_model_images mb /\
  n_prior_pars self = _set_n_prior_pars c pr (length mb) /\
  totpix self = _set_totpix mb /\
  fdiff_size self = n_prior_pars self + 2 * totpix self /\
  npars self = Z.of_nat (nshared c + length mb) /\
  _band_pars self = np_zeros (nshared c + 1).
Proof.
  intros c mb name pr self. unfold init_setup.
  destruct c; simpl model_of; simpl _set_model_class.
  - destruct (String.eqb_spec name "exp") as [->|];
      [|destruct (String.eqb_spec name "dev") as [->|];
        [|destruct (String.eqb_spec name "gauss") as [->|];
          [|discriminate]]];
      cbn [bind]; rewrite (set_band_pars_ok _ 5) by reflexivity;
      cbn [bind fst snd]; intros H; inversion H; subst; clear H;
      simpl; repeat split; reflexivity.
  - cbn [bind]; rewrite (set_band_pars_ok _ 6) by reflexivity;
      cbn [bind fst snd]; intros H; inversion H; subst; clear H;
      simpl; repeat split; reflexivity.
  - cbn [bind]; rewrite (set_band_pars_ok _ 6) by reflexivity;
      cbn [bind fst snd]; intros H; inversion H; subst; clear H;
      simpl; repeat split; reflexivity.
Qed.

End Constructor.

(** [_check_guess] on a freshly set-up model, the length of the guess being
    right: the loop over all bands decides. *)
Lemma check_guess_unfold : forall (G : Galsim) guess self,
  Z.of_nat (length guess) = npars self ->
  _check_guess guess self
  = match for_range (nband self) 0 (_check_guess_band guess) tt self with
    | (Ok _, self') => (Ok guess, self')
    | (Raise e, self') => (Raise e, self')
    end.
Proof.
  intros G guess self H. unfold _check_guess, mbind, gets, ret.
  rewrite H, Z.eqb_refl. cbv beta iota delta [negb].
  destruct (for_range (nband self) 0 (_check_guess_band guess) tt self)
    as [[[]|e] s']; reflexivity.
Qed.

(** C9: when the guess has not as many entries as the variant has
    parameters, the check raises a [ValueError] at once, before any model is
    built, and so does the constructor; when the length is right a trial
    model is built for every band from the guess, and the failure of the
    first band whose model cannot be built leaves the constructor as it is:
    a constructor that returns has built the model of every band. *)
Theorem check_guess_validates : forall (G : Galsim) (c : fit_class)
    (mb : list (list KObservation)) (name : string) (guess : list float)
    (pr : option Prior) (self0 : Self),
  init_setup c mb name pr = Ok self0 ->
  (Z.of_nat (length guess) <> npars self0 ->
     _check_guess guess self0 = (Raise ValueError, self0) /\
     __init__ c mb name guess pr = Raise ValueError) /\
  (forall b e,
     Z.of_nat (length guess) = npars self0 -> b < nband self0 ->
     (forall b', b' < b ->
        exists gal, make_model self0 (band_slice c guess b') = Ok gal) ->
     make_model self0 (band_slice c guess b) = Raise e ->
     __init__ c mb name guess pr = Raise e) /\
  (forall self,
     __init__ c mb name guess pr = Ok self ->
     Z.of_nat (length guess) = npars self0 /\
     forall b, b < nband self0 ->
       exists gal, make_model self0 (band_slice c guess b) = Ok gal).
Proof.
  intros G c mb name guess pr self0 Hs.
  destruct (init_setup_inv _ _ _ _ _ Hs)
    as (Hc & _ & Hnb & _ & _ & _ & _ & Hnp & Hbp).
  assert (Hbuf : length (_band_pars self0) = nshared (cls self0) + 1).
  { rewrite Hbp, Hc. unfold np_zeros. apply repeat_length. }
  assert (Hmis : Z.of_nat (length guess) <> npars self0 ->
                 _check_guess guess self0 = (Raise ValueError, self0)).
  { intros Hne. unfold _check_guess, mbind, gets, lift.
    replace (Z.of_nat (length guess) =? npars self0)%Z with false
      by (symmetry; now apply Z.eqb_neq).
    reflexivity. }
  assert (Hloop : Z.of_nat (length guess) = npars self0 ->
                  nshared (cls self0) + 0 + nband self0 <= length guess).
  { intros He. rewrite Hnp in He. rewrite Hc, Hnb. lia. }
  unfold __init__, _get_guess. rewrite Hs. cbn [bind].
  split; [|split].
  - intros Hne. rewrite (Hmis Hne). split; reflexivity.
  - intros b e Hlen Hb Hprev Hfail.
    rewrite check_guess_unfold by assumption.
    destruct (check_guess_loop guess (nband self0) 0 self0 Hbuf (Hloop Hlen))
      as [[Hall _] | (b1 & e1 & p & Hb1 & Hprev1 & Hfail1 & Hr)].
    + destruct (Hall b) as [gal Hgal]; [lia|].
      rewrite Hc in Hgal. congruence.
    + rewrite Hr. rewrite Hc in *.
      destruct (Nat.lt_trichotomy b b1) as [Hlt | [-> | Hgt]].
      * destruct (Hprev1 b) as [gal Hgal]; [lia | congruence].
      * congruence.
      * destruct (Hprev b1) as [gal Hgal]; [lia | congruence].
  - intros self Hok.
    destruct (Z.eq_dec (Z.of_nat (length guess)) (npars self0)) as [Hlen|Hne].
    + split; [assumption|].
      rewrite check_guess_unfold in Hok by assumption.
      destruct (check_guess_loop guess (nband self0) 0 self0 Hbuf (Hloop Hlen))
        as [[Hall _] | (b1 & e1 & p & Hb1 & Hprev1 & Hfail1 & Hr)].
      * intros b Hb. rewrite <- Hc. apply Hall. lia.
      * rewrite Hr in Hok. discriminate.
    + rewrite (Hmis Hne) in Hok. discriminate.
Qed.

Lemma check_guess_validates_witness :
  __init__ (G := flat_galsim) GalsimFitModel one_band "gauss" [1; 2]%float
    None = Raise ValueError /\
  __init__ (G := flat_galsim) GalsimFitModel one_band "gauss"
    [0; 0; 1.5; 0; 0.3; 100]%float None = Raise GMixRangeError.
Proof.
  pose proof (check_guess_validates flat_galsim GalsimFitModel one_band
                "gauss" [1; 2]%float None
                (constructed (init_setup GalsimFitModel
                                one_band "gauss" None))
                eq_refl) as H1.
  pose proof (check_guess_validates flat_galsim GalsimFitModel one_band
                "gauss" [0; 0; 1.5; 0; 0.3; 100]%float None
                (constructed (init_setup GalsimFitModel
                                one_band "gauss" None))
                eq_refl) as H2.
  split.
  - apply (proj1 H1). simpl. lia.
  - apply (proj1 (proj2 H2) 0 GMixRangeError).
    + reflexivity.
    + simpl; lia.
    + intros b' Hb'. lia.
    + reflexivity.
Defined.

(** A constructed model is the set-up model with its buffer filled. *)
Lemma init_inv : forall (G : Galsim) c mb name guess pr self,
  __init__ c mb name guess pr = Ok self ->
  exists self0 p,
    init_setup c mb name pr = Ok self0 /\
    self = with_band_pars self0 p /\
    length p = nshared c + 1.
Proof.
  intros G c mb name guess pr self. unfold __init__, _get_guess.
  destruct (init_setup c mb name pr) as [self0|e] eqn:Hs; [|discriminate].
  cbn [bind].
  destruct (init_setup_inv _ _ _ _ _ Hs)
    as (Hc & _ & Hnb & _ & _ & _ & _ & Hnp & Hbp).
  assert (Hbuf : length (_band_pars self0) = nshared (cls self0) + 1).
  { rewrite Hbp, Hc. unfold np_zeros. apply repeat_length. }
  destruct (Z.eq_dec (Z.of_nat (length guess)) (npars self0)) as [Hlen|Hne].
  - rewrite check_guess_unfold by assumption.
    destruct (check_guess_loop guess (nband self0) 0 self0 Hbuf)
      as [[_ (p & Hr & Hp)] | (b1 & e1 & p & _ & _ & _ & Hr)].
    { rewrite Hnp in Hlen. rewrite Hc, Hnb. lia. }
    + rewrite Hr. intros H; inversion H; subst self.
      exists self0, p. rewrite Hc in Hp. auto.
    + rewrite Hr. discriminate.
  - unfold _check_guess, mbind, gets, lift.
    replace (Z.of_nat (length guess) =? npars self0)%Z with false
      by (symmetry; now apply Z.eqb_neq).
    discriminate.
Qed.

(** ** Prior terms *)

(** C5, as stated, fails: an exponential model of two bands with a prior
    counts six penalty terms, not [3 + 2]. *)
Lemma n_prior_pars_counterexample :
  exists self,
    __init__ (G := flat_galsim) GalsimFitModel two_bands "exp" exp_guess
      (Some (unit_prior 6)) = Ok self /\
    nband self = 2 /\ n_prior_pars self = 6 /\
    n_prior_pars self <> 3 + nband self.
Proof.
  eexists. split; [vm_compute; reflexivity|].
  repeat split. simpl. lia.
Qed.

(** C5, amended: with a prior, the constructed model counts one penalty
    term for each of [c1] and [c2], one for the ellipticity, one for the
    size, one for the extra shape parameter of Spergel and Moffat, and one
    per band: [4 + bands] for exp, dev and gauss and [5 + bands] for spergel
    and moffat. *)
Theorem n_prior_pars_constructed : forall (G : Galsim) (c : fit_class)
    (mb : list (list KObservation)) (name : string) (guess : list float)
    (p : Prior) (self : Self),
  __init__ c mb name guess (Some p) = Ok self ->
  nband self = length mb /\
  n_prior_pars self
  = match c with
    | GalsimFitModel => 4 + nband self
    | GalsimSpergelFitModel => 5 + nband self
    | GalsimMoffatFitModel => 5 + nband self
    end.
Proof.
  intros G c mb name guess p self H.
  destruct (init_inv _ _ _ _ _ _ _ H) as (self0 & q & Hs & -> & _).
  destruct (init_setup_inv _ _ _ _ _ Hs)
    as (_ & _ & Hnb & _ & Hn & _).
  simpl. rewrite Hn, Hnb. split; [reflexivity|].
  destruct c; reflexivity.
Qed.

Lemma n_prior_pars_constructed_witness :
  nband spergel_model = length two_bands /\
  n_prior_pars spergel_model = 5 + nband spergel_model.
Proof.
  apply (n_prior_pars_constructed flat_galsim GalsimSpergelFitModel
           two_bands "" spergel_guess (unit_prior 7) spergel_model).
  vm_compute. reflexivity.
Defined.

(** ** Round models *)

(** The base class refuses a size below its threshold before it calls the
    renderer, whatever the other parameters are. *)
Lemma make_round_model_base_low_r50 : forall (G : Galsim) self pars r50 fl,
  cls self = GalsimFitModel ->
  nth_error pars 4 = Some r50 ->
  nth_error pars 5 = Some fl ->
  (r50 <? 0.0001)%float = true ->
  make_round_model self pars = Raise GMixRangeError.
Proof.
  intros G self pars r50 fl Hc H4 H5 Hlow.
  unfold make_round_model, get_item. rewrite Hc, H4, H5. cbn [bind].
  now rewrite Hlow.
Qed.

(** The Spergel and Moffat classes hand every size to the renderer: their
    round model is what the renderer answers. *)
Lemma make_round_model_extra : forall (G : Galsim) self pars r50 x fl,
  cls self <> GalsimFitModel ->
  nth_error pars 4 = Some r50 ->
  nth_error pars 5 = Some x ->
  nth_error pars 6 = Some fl ->
  make_round_model self pars
  = reraise_as_range isinstance_RuntimeError
      (galsim_new
         match cls self with
         | GalsimMoffatFitModel => Moffat
         | _ => Spergel
         end (Some x) r50 fl).
Proof.
  intros G self pars r50 x fl Hc H4 H5 H6.
  unfold make_round_model, get_item. rewrite H4, H5, H6.
  destruct (cls self); [congruence | reflexivity | reflexivity].
Qed.

(** C4, where the code departs from it: the size [1e-05] is below the
    threshold [0.0001], the base class refuses it, and the Spergel and the
    Moffat class build the round model all the same with a renderer that
    accepts every positive size. *)
Theorem make_round_model_threshold_only_in_base :
  (nth 4 tiny_slice 0 <? 0.0001)%float = true /\
  make_round_model (G := flat_galsim) gauss_model tiny_slice
  = Raise GMixRangeError /\
  make_round_model (G := flat_galsim) spergel_model tiny_slice = Ok 10%float /\
  make_round_model (G := flat_galsim) moffat_model tiny_slice = Ok 10%float.
Proof.
  repeat split; vm_compute; reflexivity.
Qed.

(** ** Weighted moments *)

(** C10: [_measure_moments] returns the result of the moments measurement
    untouched when its flags are not 0; when they are 0 it multiplies
    [flux], [flux_err], [pars[5]], [sums], [sums_norm], [wsum] and
    [sums_err] by [1 / area] and [sums_cov] by the square of that factor,
    and nothing else. *)
Theorem measure_moments_rescales_on_success : forall (Obs : Type)
    (get_weighted_moments : Obs -> bool -> MomResult)
    (jacobian_area : Obs -> float) (float_pow : float -> float -> float)
    (with_higher_order : bool) (obs : Obs),
  let res := get_weighted_moments obs with_higher_order in
  let fac := (1 / jacobian_area obs)%float in
  let measured :=
    _measure_moments get_weighted_moments jacobian_area float_pow
      with_higher_order obs in
  (flags res <> 0%Z -> measured = Ok res) /\
  (flags res = 0%Z ->
   forall p5, nth_error (pars res) 5 = Some p5 ->
   exists res',
     measured = Ok res' /\
     flags res' = flags res /\ flagstr res' = flagstr res /\
     flux res' = (flux res * fac)%float /\
     flux_err res' = (flux_err res * fac)%float /\
     pars res' = replace_at (pars res) 5 (p5 * fac)%float /\
     sums res' = map (fun x => (x * fac)%float) (sums res) /\
     sums_cov res'
     = map (map (fun x => (x * float_pow fac 2)%float)) (sums_cov res) /\
     sums_norm res' = (sums_norm res * fac)%float /\
     wsum res' = (wsum res * fac)%float /\
     sums_err res' = map (fun x => (x * fac)%float) (sums_err res)).
Proof.
  intros Obs gwm area fpow who obs res fac measured.
  subst measured. unfold _measure_moments. fold res. fold fac.
  split.
  - intros Hf.
    replace (flags res =? 0)%Z with false by (symmetry; now apply Z.eqb_neq).
    reflexivity.
  - intros Hf p5 Hp. rewrite Hf. simpl negb. cbv iota.
    unfold get_item, set_item. rewrite Hp. cbn [bind].
    assert (Hl : 5 < length (pars res))
      by (apply nth_error_Some; congruence).
    replace (5 <? length (pars res)) with true
      by (symmetry; now apply Nat.ltb_lt).
    cbn [bind]. eexists. split; [reflexivity|].
    simpl. repeat split; reflexivity.
Qed.

(** The two cases on a measurement of an observation of pixel area 4. *)
Example measure_moments_flagged :
  _measure_moments (fun _ _ => sample_moments 4) (fun _ => 4%float)
    (fun x _ => (x * x)%float) false tt
  = Ok (sample_moments 4).
Proof. reflexivity. Qed.

Example measure_moments_clean :
  _measure_moments (fun _ _ => sample_moments 0) (fun _ => 4%float)
    (fun x _ => (x * x)%float) false tt
  = Ok {| flags := 0; flagstr := ""; flux := 2; flux_err := 0.5;
          pars := [0; 0; 0; 0; 1; 2]%float; sums := [1; 2]%float;
          sums_cov := [[1; 0]; [0; 1]]%float; sums_norm := 1; wsum := 3;
          sums_err := [1; 1]%float |}.
Proof. vm_compute. reflexivity. Qed.

(** ** Round signal-to-noise *)

(** The square root of a positive binary64 number is not negative; this
    goes through the specification of the primitive operations. *)

Lemma iter_pos_invariant : forall {A : Type} (P : A -> Prop) (f : A -> A),
  (forall x, P x -> P (f x)) ->
  forall p x, P x -> P (SpecFloat.iter_pos f p x).
Proof.
  intros A P f Hf. induction p as [p IH|p IH|]; intros x Hx; simpl; auto.
Qed.

Lemma shr_1_nonneg : forall mrs,
  (0 <= SpecFloat.shr_m mrs)%Z -> (0 <= SpecFloat.shr_m (SpecFloat.shr_1 mrs))%Z.
Proof.
  intros [m r s] H. simpl in *.
  destruct m as [|[p|p|]|[p|p|]]; simpl; lia.
Qed.

Lemma shr_fexp_nonneg : forall prec emax m e l,
  (0 <= m)%Z ->
  (0 <= SpecFloat.shr_m (fst (SpecFloat.shr_fexp prec emax m e l)))%Z.
Proof.
  intros prec emax m e l Hm. unfold SpecFloat.shr_fexp, SpecFloat.shr.
  assert (H0 : (0 <= SpecFloat.shr_m (SpecFloat.shr_record_of_loc m l))%Z)
    by (destruct l as [|[]]; simpl; exact Hm).
  destruct (_ - e)%Z; simpl; try exact H0.
  apply iter_pos_invariant; [apply shr_1_nonneg | exact H0].
Qed.

Lemma round_nearest_even_nonneg : forall m l,
  (0 <= m)%Z -> (0 <= SpecFloat.round_nearest_even m l)%Z.
Proof.
  intros m l H. destruct l as [|[]]; simpl; try lia.
  destruct (Z.even m); lia.
Qed.

Lemma binary_round_aux_nonneg : forall prec emax mx ex lx,
  (0 <= mx)%Z ->
  SpecFloat.SFleb (SpecFloat.S754_zero false)
    (SpecFloat.binary_round_aux prec emax false mx ex lx) = true.
Proof.
  intros prec emax mx ex lx H. unfold SpecFloat.binary_round_aux.
  pose proof (shr_fexp_nonneg prec emax mx ex lx H) as H1.
  destruct (SpecFloat.shr_fexp prec emax mx ex lx) as [mrs' e']. simpl in H1.
  pose proof (shr_fexp_nonneg prec emax _ e' SpecFloat.loc_Exact
                (round_nearest_even_nonneg _
                   (SpecFloat.loc_of_shr_record mrs') H1)) as H2.
  destruct (SpecFloat.shr_fexp prec emax _ e' SpecFloat.loc_Exact) as [mrs'' e''].
  simpl in H2.
  destruct (SpecFloat.shr_m mrs'') as [|p|p]; try lia; try reflexivity.
  destruct (e'' <=? emax - prec)%Z; reflexivity.
Qed.

Lemma sqrt_of_positive_nonneg : forall s : float,
  (0 <? s)%float = true -> (0 <=? PrimFloat.sqrt s)%float = true.
Proof.
  intros s H. rewrite ltb_spec in H. rewrite leb_spec, sqrt_spec.
  change (Prim2SF 0) with (SpecFloat.S754_zero false) in *.
  destruct (Prim2SF s) as [sg|sg| |sg m e]; simpl in H; try discriminate.
  - destruct sg; [discriminate | reflexivity].
  - destruct sg; [discriminate|].
    unfold SF64sqrt, SpecFloat.SFsqrt.
    destruct (SpecFloat.SFsqrt_core_binary prec emax (Z.pos m) e) as [[mz ez] lz] eqn:Hc.
    apply binary_round_aux_nonneg.
    unfold SpecFloat.SFsqrt_core_binary in Hc.
    match type of Hc with context [Z.sqrtrem ?a] =>
      pose proof (Z.sqrtrem_sqrt a) as Hq; pose proof (Z.sqrt_nonneg a) as Hn;
      destruct (Z.sqrtrem a) as [q r] end.
    cbn [fst] in Hq. injection Hc as Hmz _ _. rewrite <- Hmz, Hq. exact Hn.
Qed.

(** On the Gaussian model of one epoch the weighted power is 90000 and the
    signal-to-noise 300; a parameter vector the model refuses raises. *)
Example calc_s2n_r_gauss :
  fst (calc_s2n_r (G := flat_galsim) left_sum gauss_guess gauss_model)
  = Ok 300%float.
Proof. vm_compute. reflexivity. Qed.

Example calc_s2n_r_refused :
  fst (calc_s2n_r (G := flat_galsim) left_sum
         [0; 0; 0; 0; 0.00001; 100]%float gauss_model)
  = Raise GMixRangeError.
Proof. vm_compute. reflexivity. Qed.

(** ** Running the loops *)

Lemma mbind_ok : forall {St A B : Type} (m : M St A) (k : A -> M St B) s b s',
  mbind m k s = (Ok b, s') ->
  exists a s1, m s = (Ok a, s1) /\ k a s1 = (Ok b, s').
Proof.
  intros St A B m k s b s'. unfold mbind.
  destruct (m s) as [[a|e] s1]; [eauto | discriminate].
Qed.

(** A property of the accumulator that every round keeps holds when a loop
    over a list ends. *)
Lemma for_list_acc : forall {X Acc : Type} (P : Acc -> Prop)
    (body : Acc -> M X Acc),
  (forall acc x acc' x', P acc -> body acc x = (Ok acc', x') -> P acc') ->
  forall l acc acc' l',
    P acc -> for_list body acc l = (Ok acc', l') -> P acc'.
Proof.
  intros X Acc P body Hbody. induction l as [|x l IH]; intros acc acc' l' HP.
  - simpl. intros H; inversion H; subst; assumption.
  - simpl. destruct (body acc x) as [[a1|e] x'] eqn:Hb; [|discriminate].
    destruct (for_list body a1 l) as [r rest'] eqn:Hl.
    intros H; inversion H; subst.
    eapply IH; [|exact Hl]. eapply Hbody; eauto.
Qed.

(** The same for a loop over a range. *)
Lemma for_range_acc : forall {St Acc : Type} (P : Acc -> Prop)
    (body : nat -> Acc -> M St Acc),
  (forall i acc s acc' s', P acc -> body i acc s = (Ok acc', s') -> P acc') ->
  forall n i0 acc s acc' s',
    P acc -> for_range n i0 body acc s = (Ok acc', s') -> P acc'.
Proof.
  intros St Acc P body Hbody.
  induction n as [|n IH]; intros i0 acc s acc' s' HP; simpl.
  - unfold ret. intros H; inversion H; subst; assumption.
  - intros H. apply mbind_ok in H. destruct H as (a & s1 & H1 & H2).
    eapply IH; [|exact H2]. eapply Hbody; eauto.
Qed.

Lemma zoom_result : forall {St T A : Type} (get : St -> T) (set : St -> T -> St)
    (m : M T A) s r s',
  zoom get set m s = (r, s') ->
  exists t, m (get s) = (r, t) /\ s' = set s t.
Proof.
  intros St T A get set m s r s'. unfold zoom.
  destruct (m (get s)) as [r0 t]. intros H; inversion H; subst. eauto.
Qed.

Lemma zoom_nth_ok : forall {X A : Type} (i : nat) (m : M X A) l a l',
  zoom_nth i m l = (Ok a, l') ->
  exists x x', nth_error l i = Some x /\ m x = (Ok a, x') /\
               l' = replace_at l i x'.
Proof.
  intros X A i m l a l'. unfold zoom_nth.
  destruct (nth_error l i) as [x|]; [|discriminate].
  destruct (m x) as [r x'] eqn:Hm. intros H; inversion H; subst. eauto.
Qed.

(** ** The length of the residual vector *)

Section Residuals.

Context {G : Galsim}.
Variable LOWVAL : float.

(** One epoch writes into [fdiff] in place. *)
Lemma calc_fdiff_kobs_length : forall acc k acc' k',
  calc_fdiff_kobs acc k = (Ok acc', k') ->
  length (snd acc') = length (snd acc).
Proof.
  intros [start fdiff] k acc' k'.
  unfold calc_fdiff_kobs, mbind, gets, lift, modify, ret.
  repeat match goal with
         | |- context [match ?r with Ok _ => _ | Raise _ => _ end] =>
           let E := fresh "E" in destruct r eqn:E; try discriminate
         end.
  intros Hres; inversion Hres; subst; simpl.
  repeat match goal with
         | E : set_slice _ _ _ _ = Ok _ |- _ =>
           apply set_slice_length in E
         end.
  congruence.
Qed.

Lemma calc_fdiff_band_length : forall band acc self acc' self',
  calc_fdiff_band band acc self = (Ok acc', self') ->
  length (snd acc') = length (snd acc).
Proof.
  intros band acc self acc' self' H. unfold calc_fdiff_band in H.
  apply zoom_result in H. destruct H as (t & H & _).
  apply zoom_nth_ok in H. destruct H as (x & x' & _ & H & _).
  revert H.
  apply (@for_list_acc _ _ (fun a => length (snd a) = length (snd acc)));
    [|reflexivity].
  intros a0 k a1 k1 Ha Hb. apply calc_fdiff_kobs_length in Hb. congruence.
Qed.

Lemma fill_priors_length : forall self pars fdiff n fdiff',
  _fill_priors self pars fdiff = Ok (n, fdiff') ->
  length fdiff' = length fdiff.
Proof.
  intros self pars fdiff n fdiff'. unfold _fill_priors.
  destruct (prior self) as [p|].
  - destruct (penalty_terms p pars) as [terms|e]; [|discriminate].
    cbn [bind].
    destruct (Nat.leb_spec (length terms) (length fdiff)) as [Hle|Hgt];
      [|discriminate].
    intros H; inversion H; subst. rewrite length_app, length_skipn. lia.
  - intros H; inversion H; subst. reflexivity.
Qed.

(** The [try] block gives back an array of the size it was given. *)
Lemma calc_fdiff_try_length : forall pars fdiff self fdiff' self',
  calc_fdiff_try pars fdiff self = (Ok fdiff', self') ->
  length fdiff' = length fdiff.
Proof.
  intros pars fdiff self fdiff' self' H. unfold calc_fdiff_try in H.
  apply mbind_ok in H. destruct H as ([] & s1 & _ & H).
  apply mbind_ok in H. destruct H as ([start fd1] & s2 & Hp & H).
  unfold lift in Hp. inversion Hp; subst s2. clear Hp.
  match goal with H1 : _fill_priors _ _ _ = _ |- _ =>
    apply fill_priors_length in H1; rename H1 into Hp end.
  apply mbind_ok in H. destruct H as (nb & s3 & _ & H).
  apply mbind_ok in H. destruct H as (acc' & s4 & Hl & H).
  unfold ret in H. inversion H; subst. clear H.
  rewrite <- Hp.
  revert Hl.
  apply (@for_range_acc _ _
           (fun a => length (snd a) = length (snd (start, fd1))));
    [|reflexivity].
  intros i a0 s a1 s' Ha Hb. apply calc_fdiff_band_length in Hb. congruence.
Qed.

(** Whatever [calc_fdiff] returns has [fdiff_size] entries. *)
Lemma calc_fdiff_length : forall pars self v self',
  calc_fdiff LOWVAL pars self = (Ok v, self') ->
  length v = fdiff_size self.
Proof.
  intros pars self v self'. unfold calc_fdiff.
  destruct (calc_fdiff_try pars (np_zeros (fdiff_size self)) self)
    as [[fd|e] s1] eqn:Ht.
  - intros H; inversion H; subst.
    apply calc_fdiff_try_length in Ht. rewrite Ht.
    unfold np_zeros. apply repeat_length.
  - destruct (isinstance_GMixRangeError e); [|discriminate].
    intros H; inversion H; subst.
    unfold fill_all, np_zeros. now rewrite length_map, repeat_length.
Qed.

(** An invalid-model-parameters failure in the [try] block is caught and
    answered with the sentinel in every entry. *)
Lemma calc_fdiff_catches : forall pars self self',
  calc_fdiff_try pars (np_zeros (fdiff_size self)) self
  = (Raise GMixRangeError, self') ->
  calc_fdiff LOWVAL pars self = (Ok (repeat LOWVAL (fdiff_size self)), self').
Proof.
  intros pars self self' H. unfold calc_fdiff. rewrite H. simpl.
  unfold fill_all, np_zeros. now rewrite map_repeat.
Qed.

(** A failure of [_fill_models] is a failure of the [try] block. *)
Lemma calc_fdiff_try_fill_models : forall pars fdiff self e self',
  _fill_models pars self = (Raise e, self') ->
  calc_fdiff_try pars fdiff self = (Raise e, self').
Proof.
  intros pars fdiff self e self' H. unfold calc_fdiff_try, mbind.
  now rewrite H.
Qed.

End Residuals.

(** ** What the methods leave untouched *)

Lemma for_range_state : forall {St Acc : Type} (P : St -> Prop)
    (body : nat -> Acc -> M St Acc),
  (forall i acc s, P s -> P (snd (body i acc s))) ->
  forall n i0 acc s, P s -> P (snd (for_range n i0 body acc s)).
Proof.
  intros St Acc P body Hbody.
  induction n as [|n IH]; intros i0 acc s HP; simpl; [exact HP|].
  unfold mbind. specialize (Hbody i0 acc s HP).
  destruct (body i0 acc s) as [[a|e] s1]; simpl in *; auto.
Qed.

Section Untouched.

Context {G : Galsim}.

(** A property of the model that does not depend on its buffers. *)
Variable P : Self -> Prop.
Hypothesis P_band_pars : forall self p, P self -> P (with_band_pars self p).
Hypothesis P_mb_kobs : forall self mb, P self -> P (with_mb_kobs self mb).

Lemma get_band_pars_keeps : forall pars band self,
  P self -> P (snd (get_band_pars pars band self)).
Proof.
  intros pars band self HP.
  destruct (get_band_pars_state pars band self) as [p ->]. auto.
Qed.

Lemma zoom_mb_kobs_keeps : forall {A : Type} (m : M (list (list KObs)) A) self,
  P self -> P (snd (zoom mb_kobs with_mb_kobs m self)).
Proof.
  intros A m self HP. unfold zoom.
  destruct (m (mb_kobs self)) as [r t]. simpl. auto.
Qed.

Lemma fill_models_keeps : forall pars self,
  P self -> P (snd (_fill_models pars self)).
Proof.
  intros pars self HP. unfold _fill_models, except_as_range.
  match goal with |- context [let (_, _) := ?m self in _] =>
    assert (H : P (snd (m self))); [|destruct (m self); exact H] end.
  unfold mbind, gets. apply for_range_state; [|exact HP].
  intros i acc s Hs. unfold _fill_models_band, mbind.
  pose proof (get_band_pars_keeps pars i s Hs) as H1.
  destruct (get_band_pars pars i s) as [[bp|e] s1]; simpl in *; [|exact H1].
  now apply zoom_mb_kobs_keeps.
Qed.

Lemma calc_fdiff_keeps : forall LOWVAL pars self,
  P self -> P (snd (calc_fdiff LOWVAL pars self)).
Proof.
  intros LOWVAL pars self HP. unfold calc_fdiff.
  match goal with |- context [match ?m with (_, _) => _ end] =>
    assert (H : P (snd m));
      [|destruct m as [[v|e] s1]; simpl in *;
        [|destruct (isinstance_GMixRangeError e)]; exact H] end.
  unfold calc_fdiff_try, mbind.
  pose proof (fill_models_keeps pars self HP) as H1.
  destruct (_fill_models pars self) as [[[]|e] s1]; simpl in *; [|exact H1].
  unfold lift. destruct (_fill_priors s1 pars _) as [acc|e]; [|exact H1].
  unfold gets.
  pose proof (@for_range_state _ _ P calc_fdiff_band) as H2.
  specialize (H2 (fun i a s Hs => zoom_mb_kobs_keeps _ s Hs)
                 (nband s1) 0 acc s1 H1).
  destruct (for_range (nband s1) 0 calc_fdiff_band acc s1) as [[a|e] s2];
    exact H2.
Qed.

End Untouched.

(** ** The sentinel *)

(** A Gaussian, exponential or de Vaucouleurs model with an epoch in its
    first band: a size below the threshold makes [_fill_models] raise the
    invalid-model-parameters failure, whatever the other parameters are. *)
Lemma fill_models_low_r50 : forall (G : Galsim) self pars k kl rest r50,
  cls self = GalsimFitModel ->
  length (_band_pars self) = 6 ->
  mb_kobs self = (k :: kl) :: rest ->
  5 < length pars ->
  nth_error pars 4 = Some r50 ->
  (r50 <? 0.0001)%float = true ->
  fst (_fill_models pars self) = Raise GMixRangeError.
Proof.
  intros G self pars k kl rest r50 Hc Hbuf Hmb Hlen H4 Hlow.
  assert (Hm : make_model self (band_slice (cls self) pars 0)
               = Raise GMixRangeError).
  { unfold make_model.
    rewrite (make_round_model_base_low_r50 G self _ r50 (nth 5 pars 0%float));
      try assumption; try reflexivity.
    - rewrite Hc. unfold band_slice. simpl nshared.
      rewrite nth_error_app1 by (rewrite length_firstn; lia).
      rewrite nth_error_firstn.
      replace (4 <? 5) with true by reflexivity. exact H4.
    - rewrite Hc. unfold band_slice. simpl nshared.
      rewrite nth_error_app2 by (rewrite length_firstn; lia).
      rewrite length_firstn.
      replace (5 - Nat.min 5 (length pars)) with 0 by lia. reflexivity. }
  unfold _fill_models, except_as_range, mbind, gets.
  rewrite Hmb. simpl length. simpl for_range.
  unfold mbind, _fill_models_band, mbind.
  rewrite get_band_pars_ok by (rewrite Hc; simpl; lia).
  unfold zoom, zoom_nth. simpl mb_kobs. rewrite Hmb. simpl nth_error.
  simpl for_list. unfold _fill_models_kobs at 1. unfold mbind at 1, lift at 1.
  rewrite make_model_with_band_pars, Hm. reflexivity.
Qed.

(** C1: when the evaluation of the models, over all bands and epochs, raises
    the invalid-model-parameters failure, [calc_fdiff] returns: the failure
    does not reach the caller, and the residual vector has [fdiff_size]
    entries, each equal to [LOWVAL]. *)
Theorem calc_fdiff_sentinel : forall (G : Galsim) (LOWVAL : float)
    (self : Self) (pars : list float),
  fst (_fill_models pars self) = Raise GMixRangeError ->
  fst (calc_fdiff LOWVAL pars self) = Ok (repeat LOWVAL (fdiff_size self)) /\
  length (repeat LOWVAL (fdiff_size self)) = fdiff_size self /\
  Forall (fun x => x = LOWVAL) (repeat LOWVAL (fdiff_size self)).
Proof.
  intros G LOWVAL self pars H.
  destruct (_fill_models pars self) as [r s1] eqn:Hf. simpl in H. subst r.
  rewrite (calc_fdiff_catches LOWVAL pars self s1).
  - split; [reflexivity|]. split; [apply repeat_length|].
    apply Forall_forall. intros x Hx. now apply repeat_spec in Hx.
  - now apply calc_fdiff_try_fill_models.
Qed.

(** The shear [g1 = 1.5], which the renderer refuses with a [ValueError]. *)
Lemma calc_fdiff_sentinel_witness :
  fst (calc_fdiff (G := flat_galsim) LOWVAL0 [0; 0; 1.5; 0; 0.3; 100]%float
         gauss_model)
  = Ok (repeat LOWVAL0 (fdiff_size gauss_model)) /\
  length (repeat LOWVAL0 (fdiff_size gauss_model)) = fdiff_size gauss_model /\
  Forall (fun x => x = LOWVAL0) (repeat LOWVAL0 (fdiff_size gauss_model)).
Proof.
  apply (calc_fdiff_sentinel flat_galsim LOWVAL0 gauss_model).
  vm_compute. reflexivity.
Defined.

(** A size below the threshold, on any model of the base class with an
    epoch in its first band and any renderer. *)
Lemma calc_fdiff_low_r50 : forall (G : Galsim) (LOWVAL : float) self pars
    k kl rest r50,
  cls self = GalsimFitModel ->
  length (_band_pars self) = 6 ->
  mb_kobs self = (k :: kl) :: rest ->
  5 < length pars ->
  nth_error pars 4 = Some r50 ->
  (r50 <? 0.0001)%float = true ->
  fst (calc_fdiff LOWVAL pars self) = Ok (repeat LOWVAL (fdiff_size self)).
Proof.
  intros G LOWVAL self pars k kl rest r50 Hc Hbuf Hmb Hlen H4 Hlow.
  pose proof (fill_models_low_r50 G self pars k kl rest r50
                Hc Hbuf Hmb Hlen H4 Hlow) as H.
  destruct (_fill_models pars self) as [r s1] eqn:Hf. simpl in H. subst r.
  rewrite (calc_fdiff_catches LOWVAL pars self s1); [reflexivity|].
  now apply calc_fdiff_try_fill_models.
Qed.

(** ** The size of the residual vector *)

Lemma set_totpix_total_pixels : forall mb, _set_totpix mb = total_pixels mb.
Proof.
  assert (Hin : forall kl t,
             fold_left (fun totpix k => totpix + length (array (kimage k)))
               kl t
             = t + list_sum (map (fun k => length (array (kimage k))) kl)).
  { induction kl as [|k kl IH]; intros t; simpl; [lia|]. rewrite IH. lia. }
  assert (Hout : forall mb t,
             fold_left
               (fun totpix kl =>
                  fold_left
                    (fun totpix k => totpix + length (array (kimage k)))
                    kl totpix) mb t
             = t + total_pixels mb).
  { induction mb as [|kl mb IH]; intros t; unfold total_pixels; simpl;
      [lia|].
    rewrite IH, Hin. unfold total_pixels. lia. }
  intros mb. unfold _set_totpix. now rewrite Hout.
Qed.

(** C2: a constructed model has the sizes of its observations and prior
    ([totpix] is the number of Fourier pixels over all bands and epochs,
    [n_prior_pars] is 0 without a prior), every call of [calc_fdiff] keeps
    them, and the residual vector a call returns has exactly
    [n_prior_pars + 2 * totpix] entries. *)
Theorem calc_fdiff_length_constructed : forall (G : Galsim) (LOWVAL : float)
    (c : fit_class) (mb : list (list KObservation)) (name : string)
    (guess : list float) (pr : option Prior) (self0 : Self),
  __init__ c mb name guess pr = Ok self0 ->
  sized mb pr self0 /\
  forall self pars r self',
    sized mb pr self ->
    calc_fdiff LOWVAL pars self = (r, self') ->
    sized mb pr self' /\
    forall v, r = Ok v ->
      length v = n_prior_pars self + 2 * total_pixels mb.
Proof.
  intros G LOWVAL c mb name guess pr self0 H. split.
  - destruct (init_inv _ _ _ _ _ _ _ H) as (s0 & p & Hs & -> & _).
    destruct (init_setup_inv _ _ _ _ _ Hs)
      as (_ & _ & _ & _ & Hn & Ht & Hf & _).
    unfold sized. simpl. repeat split.
    + exact Hf.
    + now rewrite Ht, set_totpix_total_pixels.
    + intros ->. rewrite Hn. destruct c; reflexivity.
  - intros self pars r self' Hsz Hcall. split.
    + replace self' with (snd (calc_fdiff LOWVAL pars self))
        by now rewrite Hcall.
      apply calc_fdiff_keeps; [| |exact Hsz]; intros s q Hq; exact Hq.
    + intros v ->. apply calc_fdiff_length in Hcall.
      destruct Hsz as (Hf & Ht & _). rewrite Hcall, Hf, Ht. reflexivity.
Qed.

(** Two bands, Spergel, a prior of seven terms: [7 + 2 * (4 + 2 + 2)]
    entries. *)
Lemma calc_fdiff_length_constructed_witness :
  sized two_bands (Some (unit_prior 7)) spergel_model /\
  forall self pars r self',
    sized two_bands (Some (unit_prior 7)) self ->
    calc_fdiff (G := flat_galsim) LOWVAL0 pars self = (r, self') ->
    sized two_bands (Some (unit_prior 7)) self' /\
    forall v, r = Ok v ->
      length v = n_prior_pars self + 2 * total_pixels two_bands.
Proof.
  apply (calc_fdiff_length_constructed flat_galsim LOWVAL0
           GalsimSpergelFitModel two_bands "" spergel_guess
           (Some (unit_prior 7)) spergel_model).
  vm_compute. reflexivity.
Defined.

Example calc_fdiff_spergel_length :
  exists v,
    fst (calc_fdiff (G := flat_galsim) LOWVAL0 spergel_guess spergel_model)
    = Ok v /\ length v = 7 + 2 * (4 + 2 + 2).
Proof. eexists. split; [vm_compute; reflexivity | reflexivity]. Qed.

(** ** Computations that do not see the contents of the buffers *)

Lemma per_refl_l : forall {St : Type} (R : St -> St -> Prop) a b,
  per R -> R a b -> R a a.
Proof.
  intros St R a b [Hsym Htrans] H. eapply Htrans; eauto.
Qed.

Lemma per_Forall2 : forall {X : Type} (R : X -> X -> Prop),
  per R -> per (Forall2 R).
Proof.
  intros X R [Hsym Htrans]. split.
  - intros a b H. induction H; constructor; auto.
  - intros a b c H. revert c.
    induction H as [|x y l l' Hxy Hl IH]; intros c Hc; inversion Hc; subst;
      constructor; eauto.
Qed.

Lemma respects_ret : forall {St A : Type} (R : St -> St -> Prop) (a : A),
  per R -> respects R R (ret a).
Proof.
  intros St A R a HR s1 s2 H. simpl. repeat split; auto.
  eapply per_refl_l; eauto.
Qed.

Lemma respects_mbind : forall {St A B : Type} (R : St -> St -> Prop)
    (m : M St A) (k : A -> M St B),
  per R -> respects R R m -> (forall a, respects R R (k a)) ->
  respects R R (mbind m k).
Proof.
  intros St A B R m k [Hsym Htrans] Hm Hk s1 s2 H. unfold mbind.
  destruct (Hm s1 s2 H) as (Hr & Hs & H1 & _).
  destruct (m s1) as [[a|e] s1'], (m s2) as [[a2|e2] s2']; simpl in *;
    try discriminate.
  - inversion Hr; subst a2.
    destruct (Hk a s1' s2' Hs) as (Hr' & Hs' & H1' & _).
    split; [exact Hr'|]. split; [exact Hs'|].
    split; [exact (Htrans _ _ _ H1 H1') | intros _ _; exact Hs'].
  - split; [congruence|]. split; [exact Hs|].
    split; [exact H1 | intros a Ha; discriminate].
Qed.

Lemma respects_for_range : forall {St Acc : Type} (R : St -> St -> Prop)
    (body : nat -> Acc -> M St Acc),
  per R -> (forall i acc, respects R R (body i acc)) ->
  forall n i0 acc, respects R R (for_range n i0 body acc).
Proof.
  intros St Acc R body HR Hbody. induction n as [|n IH]; intros i0 acc; simpl.
  - now apply respects_ret.
  - apply respects_mbind; auto.
Qed.

(** A loop over a list of objects, each round taking [RX] to [RXok] when it
    returns. *)
Lemma respects_for_list : forall {X Acc : Type} (RX RXok : X -> X -> Prop)
    (body : Acc -> M X Acc),
  per RX ->
  (forall acc, respects RX RXok (body acc)) ->
  forall acc, respects (Forall2 RX) (Forall2 RXok) (for_list body acc).
Proof.
  intros X Acc RX RXok body HRX Hbody acc l1 l2 H. revert acc.
  induction H as [|x1 x2 l1 l2 Hx Hl IH]; intros acc; simpl.
  - repeat split; auto; constructor.
  - assert (Hrefl : Forall2 RX l1 l1)
      by (eapply per_refl_l; [apply per_Forall2; exact HRX | exact Hl]).
    destruct (Hbody acc x1 x2 Hx) as (Hr & Hs & H1 & Hok).
    destruct (body acc x1) as [[a|e] x1'], (body acc x2) as [[a2|e2] x2'];
      simpl in *; try discriminate.
    + inversion Hr; subst a2.
      destruct (IH a) as (Hr' & Hs' & H1' & Hok').
      destruct (for_list body a l1) as [r1 l1'],
               (for_list body a l2) as [r2 l2']; simpl in *.
      split; [exact Hr'|]. split; [constructor; assumption|].
      split; [constructor; assumption|].
      intros a0 Ha. constructor; eauto.
    + split; [exact Hr|]. split; [constructor; assumption|].
      split; [constructor; assumption|].
      intros a Ha. discriminate.
Qed.

Lemma respects_except_as_range : forall {St A : Type} (R Rok : St -> St -> Prop)
    (is_cls : exn -> bool) (m : M St A),
  respects R Rok m -> respects R Rok (except_as_range is_cls m).
Proof.
  intros St A R Rok is_cls m Hm s1 s2 H. unfold except_as_range.
  destruct (Hm s1 s2 H) as (Hr & Hs & H1 & Hok).
  destruct (m s1) as [r1 s1'], (m s2) as [r2 s2']; simpl in *. subst r2.
  repeat split; auto.
  intros a Ha. destruct r1 as [a1|e]; simpl in Ha.
  - eauto.
  - destruct (is_cls e); discriminate.
Qed.

Lemma Forall2_nth_error : forall {X : Type} (R : X -> X -> Prop) l1 l2 i,
  Forall2 R l1 l2 ->
  match nth_error l1 i, nth_error l2 i with
  | Some a, Some b => R a b
  | None, None => True
  | _, _ => False
  end.
Proof.
  intros X R l1 l2 i H. revert i.
  induction H as [|x y l1 l2 Hxy Hl IH]; intros [|i]; simpl; auto.
  apply IH.
Qed.

Lemma Forall2_replace_at : forall {X : Type} (R : X -> X -> Prop) l1 l2 i x y,
  Forall2 R l1 l2 -> R x y ->
  Forall2 R (replace_at l1 i x) (replace_at l2 i y).
Proof.
  intros X R l1 l2 i x y H Hxy. revert i.
  induction H as [|a b l1 l2 Hab Hl IH]; intros [|i]; simpl;
    constructor; auto.
Qed.

Lemma Forall2_impl : forall {X : Type} (R R' : X -> X -> Prop) l1 l2,
  (forall a b, R a b -> R' a b) -> Forall2 R l1 l2 -> Forall2 R' l1 l2.
Proof.
  intros X R R' l1 l2 Hi H. induction H; constructor; auto.
Qed.

Lemma firstn_S_replace_at : forall {X : Type} (l : list X) i x,
  i < length l -> firstn (S i) (replace_at l i x) = firstn i l ++ [x].
Proof.
  induction l as [|h t IH]; intros [|i] x Hi; simpl in *; try lia.
  - reflexivity.
  - f_equal. apply IH. lia.
Qed.

Lemma Forall2_replace_at_self : forall {X : Type} (R : X -> X -> Prop)
    l i x y,
  Forall2 R l l -> nth_error l i = Some x -> R x y ->
  Forall2 R l (replace_at l i y).
Proof.
  intros X R l. induction l as [|a l IH]; intros [|i] x y Hl Hn Hx;
    simpl in *; try discriminate; inversion Hl; subst.
  - inversion Hn; subst. constructor; auto.
  - constructor; eauto.
Qed.

Lemma respects_zoom_nth : forall {X A : Type} (RX : X -> X -> Prop) (i : nat)
    (m : M X A),
  per RX -> respects RX RX m ->
  respects (Forall2 RX) (Forall2 RX) (zoom_nth i m).
Proof.
  intros X A RX i m HRX Hm l1 l2 H. unfold zoom_nth.
  assert (Hrefl : Forall2 RX l1 l1)
    by (eapply per_refl_l; [apply per_Forall2; exact HRX | exact H]).
  pose proof (Forall2_nth_error RX l1 l2 i H) as Hn.
  destruct (nth_error l1 i) as [x1|] eqn:E1, (nth_error l2 i) as [x2|];
    try contradiction.
  - destruct (Hm x1 x2 Hn) as (Hr & Hs & H1 & _).
    destruct (m x1) as [r1 y1], (m x2) as [r2 y2]; simpl in *.
    split; [exact Hr|].
    assert (H2 : Forall2 RX (replace_at l1 i y1) (replace_at l2 i y2))
      by now apply Forall2_replace_at.
    split; [exact H2|]. split; [|intros _ _; exact H2].
    eapply Forall2_replace_at_self; eauto.
  - simpl. repeat split; auto.
Qed.

(** ** Broadcasting *)

(** A weight map of one pixel is stretched to the image, a column to every
    column, and arrays of four entries of the shapes 2 x 2 and 1 x 4 do not
    combine. *)
Example elementwise_broadcasts :
  elementwise (fun x w => (x * w)%float) (image22 [1; 2; 3; 4]%float)
    {| bounds := {| xmin := 0; xmax := 0; ymin := 0; ymax := 0 |};
       wcs_scale := 1; shape := (1, 1); array := [10]%float |}
  = Ok (image22 [10; 20; 30; 40]%float) /\
  elementwise (fun x w => (x * w)%float) (image22 [1; 2; 3; 4]%float)
    {| bounds := {| xmin := 0; xmax := 0; ymin := 0; ymax := 1 |};
       wcs_scale := 1; shape := (2, 1); array := [10; 100]%float |}
  = Ok (image22 [10; 20; 300; 400]%float) /\
  elementwise (fun x w => (x * w)%float) (image22 [1; 2; 3; 4]%float)
    {| bounds := {| xmin := 0; xmax := 3; ymin := 0; ymax := 0 |};
       wcs_scale := 1; shape := (1, 4); array := [1; 1; 1; 1]%float |}
  = Raise ValueError.
Proof. repeat split; vm_compute; reflexivity. Qed.

(** ** Images that differ in their entries only *)

Ltac frames :=
  unfold same_frame, same_grid in *; simpl in *; intuition congruence.

Lemma same_frame_refl : forall {A : Type} (a : Image A), same_frame a a.
Proof. intros A a. frames. Qed.

Lemma same_frame_trans : forall {A : Type} (a b c : Image A),
  same_frame a b -> same_frame b c -> same_frame a c.
Proof. intros A a b c H1 H2. frames. Qed.

Lemma map2_length : forall {A B : Type} (f : A -> B -> A) a b,
  length a = length b -> length (map2 f a b) = length a.
Proof.
  intros A B f a. induction a as [|x a IH]; intros [|y b] H; simpl in *;
    try discriminate; auto.
Qed.

Lemma with_array_frame : forall {A : Type} (a : Image A) (v : list A),
  length v = length (array a) -> same_frame a (with_array a v).
Proof. intros A a v H. frames. Qed.

Lemma same_shape_spec : forall {A B : Type} (a : Image A) (b : Image B),
  same_shape a b = true <-> same_grid a b.
Proof.
  intros A B a b. unfold same_shape, same_grid.
  rewrite !andb_true_iff, !Nat.eqb_eq.
  destruct (shape a) as [r c], (shape b) as [r' c']. simpl.
  split.
  - intros [[-> ->] ->]. auto.
  - intros [H ->]. inversion H. auto.
Qed.

Lemma same_shape_grid : forall {A A' B : Type} (a : Image A) (a' : Image A')
    (b : Image B),
  same_grid a a' -> same_shape a b = same_shape a' b.
Proof.
  intros A A' B a a' b [Hs Hl]. unfold same_shape. now rewrite Hs, Hl.
Qed.

(** Arrays of one shape need no broadcasting. *)
Lemma broadcast_to_same : forall {B : Type} (s : nat * nat) (b : Image B),
  shape b = s -> broadcast_to s b = Some (array b).
Proof.
  intros B s b <-. unfold broadcast_to, stretch_columns, stretch_rows.
  now rewrite !Nat.eqb_refl.
Qed.

Lemma elementwise_ok : forall {A B : Type} (f : A -> B -> A)
    (a : Image A) (b : Image B),
  same_grid a b ->
  elementwise f a b = Ok (with_array a (map2 f (array a) (array b))).
Proof.
  intros A B f a b [Hs Hl]. unfold elementwise.
  rewrite broadcast_to_same by congruence.
  now rewrite Hl, Nat.eqb_refl.
Qed.

(** What an operation in place gives: the entries of the image updated from
    as many entries. *)
Lemma elementwise_result : forall {A B : Type} (f : A -> B -> A) a b c,
  elementwise f a b = Ok c ->
  exists b', broadcast_to (shape a) b = Some b' /\
             length b' = length (array a) /\
             c = with_array a (map2 f (array a) b').
Proof.
  intros A B f a b c. unfold elementwise.
  destruct (broadcast_to (shape a) b) as [b'|]; [|discriminate].
  destruct (Nat.eqb_spec (length b') (length (array a))); [|discriminate].
  intros H; inversion H; subst. eauto.
Qed.

(** The operations in place change the entries of the image only. *)
Lemma elementwise_frame : forall {A B : Type} (f : A -> B -> A) a b c,
  elementwise f a b = Ok c -> same_frame a c.
Proof.
  intros A B f a b c H. apply elementwise_result in H.
  destruct H as (b' & _ & Hl & ->).
  apply with_array_frame. now apply map2_length.
Qed.

Lemma image_op_ok : forall f (a b : karray),
  same_grid a b ->
  image_op f a b = Ok (with_array a (map2 f (array a) (array b))).
Proof.
  intros f a b H. unfold image_op.
  now rewrite (proj2 (same_shape_spec a b) H).
Qed.

Lemma image_op_result : forall f (a b c : karray),
  image_op f a b = Ok c ->
  same_grid a b /\ c = with_array a (map2 f (array a) (array b)).
Proof.
  intros f a b c. unfold image_op.
  destruct (same_shape a b) eqn:E; [|discriminate].
  intros H; inversion H; subst. split; [|reflexivity].
  now apply same_shape_spec.
Qed.

Lemma image_op_frame : forall f (a b c : karray),
  image_op f a b = Ok c -> same_frame a c.
Proof.
  intros f a b c H. apply image_op_result in H. destruct H as [[_ Hl] ->].
  apply with_array_frame. now apply map2_length.
Qed.

(** Whether an operation in place is refused depends on the shape and the
    size of the image only. *)
Lemma elementwise_raise : forall {A A' B : Type} (f : A -> B -> A)
    (g : A' -> B -> A') (a : Image A) (a' : Image A') (b : Image B) e,
  same_grid a a' ->
  elementwise f a b = Raise e -> elementwise g a' b = Raise e.
Proof.
  intros A A' B f g a a' b e [Hs Hl]. unfold elementwise. rewrite Hs, Hl.
  destruct (broadcast_to (shape a') b) as [b'|].
  - destruct (length b' =? length (array a')); [discriminate|].
    intros H; inversion H; reflexivity.
  - intros H; inversion H; reflexivity.
Qed.

(** ** Relations between states of one model *)

Lemma per_kobs_sim : per kobs_sim.
Proof.
  split.
  - intros a b (H1 & H2 & H3 & H4). unfold kobs_sim. frames.
  - intros a b c (H1 & H2 & H3 & H4) (H5 & H6 & H7 & H8).
    unfold kobs_sim. frames.
Qed.

Lemma per_kobs_eq : per kobs_eq.
Proof.
  destruct per_kobs_sim as [Hsym Htrans]. split.
  - intros a b [H1 H2]. split; [auto | congruence].
  - intros a b c [H1 H2] [H3 H4]. split; [eauto | congruence].
Qed.

Lemma per_sim : per sim.
Proof.
  destruct (per_Forall2 _ (per_Forall2 _ per_kobs_sim)) as [Hsym Htrans].
  split.
  - intros a b (H1 & H2 & H3 & H4 & H5 & H6 & H7 & H8 & H9).
    repeat split; try congruence. auto.
  - intros a b c (H1 & H2 & H3 & H4 & H5 & H6 & H7 & H8 & H9)
      (I1 & I2 & I3 & I4 & I5 & I6 & I7 & I8 & I9).
    repeat split; try congruence. eauto.
Qed.

Lemma per_sim_eq : per sim_eq.
Proof.
  destruct per_sim as [Hsym Htrans].
  destruct (per_Forall2 _ (per_Forall2 _ per_kobs_eq)) as [Hsym2 Htrans2].
  split.
  - intros a b [H1 H2]. split; auto.
  - intros a b c [H1 H2] [H3 H4]. split; eauto.
Qed.

Lemma kobs_eq_sim : forall l1 l2,
  Forall2 (Forall2 kobs_eq) l1 l2 -> Forall2 (Forall2 kobs_sim) l1 l2.
Proof.
  intros l1 l2. apply Forall2_impl. intros a b. apply Forall2_impl.
  intros x y [H _]. exact H.
Qed.

(** A model with a buffer of the right size is related to itself. *)
Lemma sim_refl : forall self,
  length (_band_pars self) = nshared (cls self) + 1 -> sim self self.
Proof.
  intros self H. repeat split; auto.
  induction (mb_kobs self) as [|kl mb IH]; constructor; auto.
  induction kl as [|k kl IHk]; constructor; auto.
  repeat split.
Qed.

(** ** The per-band buffer does not count *)

Lemma get_band_pars_at_sim : forall k pars_in band s1 s2,
  length (_band_pars s1) = k + 1 ->
  length (_band_pars s2) = k + 1 ->
  fst (get_band_pars_at k pars_in band s1)
  = fst (get_band_pars_at k pars_in band s2) /\
  exists p1 p2,
    snd (get_band_pars_at k pars_in band s1) = with_band_pars s1 p1 /\
    snd (get_band_pars_at k pars_in band s2) = with_band_pars s2 p2 /\
    length p1 = k + 1 /\ length p2 = k + 1.
Proof.
  intros k pars_in band s1 s2 H1 H2.
  destruct (Nat.ltb_spec (k + band) (length pars_in)) as [Hlt|Hge].
  - rewrite !get_band_pars_at_ok by assumption. simpl.
    split; [reflexivity|]. eexists _, _. repeat split.
    + rewrite length_app, length_firstn. simpl. lia.
    + rewrite length_app, length_firstn. simpl. lia.
  - assert (Hi : get_item pars_in (k + band) = Raise IndexError).
    { unfold get_item.
      now rewrite (proj2 (nth_error_None pars_in (k + band)) Hge). }
    unfold get_band_pars_at, mbind, gets, lift, modify, ret.
    rewrite Hi. cbn [bind].
    assert (Hs : forall buf, length buf = k + 1 ->
               (exists p, set_slice buf 0 k (get_slice pars_in 0 k) = Ok p /\
                          length p = k + 1) \/
               set_slice buf 0 k (get_slice pars_in 0 k) = Raise ValueError).
    { intros buf Hb. destruct (set_slice buf 0 k _) as [p|e] eqn:E.
      - left. exists p. split; [reflexivity|].
        apply set_slice_length in E. lia.
      - right. unfold set_slice in E.
        destruct (_ =? _); [discriminate|].
        destruct (get_slice pars_in 0 k) as [|x [|? ?]];
          try discriminate; congruence. }
    assert (Hsame : forall b1 b2, length b1 = k + 1 -> length b2 = k + 1 ->
               forall e, set_slice b1 0 k (get_slice pars_in 0 k) = Raise e ->
                         set_slice b2 0 k (get_slice pars_in 0 k) = Raise e).
    { intros b1 b2 Hb1 Hb2 e. unfold set_slice. rewrite Hb1, Hb2.
      destruct (_ =? _); [discriminate|].
      destruct (get_slice pars_in 0 k) as [|x [|? ?]];
        try discriminate; auto. }
    destruct (Hs _ H1) as [(p1 & E1 & L1)|E1],
             (Hs _ H2) as [(p2 & E2 & L2)|E2].
    + rewrite E1, E2. simpl. split; [reflexivity|].
      exists p1, p2. auto.
    + apply (Hsame _ (_band_pars s1)) in E2; auto. congruence.
    + apply (Hsame _ (_band_pars s2)) in E1; auto. congruence.
    + rewrite E1, E2. simpl. split; [reflexivity|].
      exists (_band_pars s1), (_band_pars s2).
      now rewrite !with_band_pars_same.
Qed.

Lemma get_band_pars_sim : forall pars band s1 s2,
  sim s1 s2 ->
  fst (get_band_pars pars band s1) = fst (get_band_pars pars band s2) /\
  exists p1 p2,
    snd (get_band_pars pars band s1) = with_band_pars s1 p1 /\
    snd (get_band_pars pars band s2) = with_band_pars s2 p2 /\
    length p1 = nshared (cls s1) + 1 /\ length p2 = nshared (cls s2) + 1.
Proof.
  intros pars band s1 s2 (Hc & _ & _ & _ & _ & _ & H1 & H2 & _).
  unfold get_band_pars. rewrite <- Hc in *.
  destruct (cls s1); simpl in *; now apply get_band_pars_at_sim.
Qed.

(** Replacing the buffer keeps a model related to what it was. *)
Lemma sim_with_band_pars : forall s1 s2 p1 p2,
  sim s1 s2 ->
  length p1 = nshared (cls s1) + 1 -> length p2 = nshared (cls s2) + 1 ->
  sim (with_band_pars s1 p1) (with_band_pars s2 p2).
Proof.
  intros s1 s2 p1 p2 (H1 & H2 & H3 & H4 & H5 & H6 & H7 & H8 & H9) L1 L2.
  repeat split; simpl; assumption.
Qed.

Lemma sim_with_mb_kobs : forall s1 s2 mb1 mb2,
  sim s1 s2 -> Forall2 (Forall2 kobs_sim) mb1 mb2 ->
  sim (with_mb_kobs s1 mb1) (with_mb_kobs s2 mb2).
Proof.
  intros s1 s2 mb1 mb2 (H1 & H2 & H3 & H4 & H5 & H6 & H7 & H8 & H9) Hmb.
  repeat split; simpl; assumption.
Qed.

(** ** Filling the model images *)

Lemma make_model_sim : forall (G : Galsim) s1 s2 pars,
  cls s1 = cls s2 -> _model_class s1 = _model_class s2 ->
  make_model s1 pars = make_model s2 pars.
Proof.
  intros G s1 s2 pars Hc Hm. unfold make_model, make_round_model.
  now rewrite Hc, Hm.
Qed.

(** One epoch of [_fill_models], the steps spelled out. *)
Lemma fill_models_kobs_unfold : forall (G : Galsim) self band_pars k,
  _fill_models_kobs self band_pars k
  = match make_model self band_pars with
    | Raise e => (Raise e, k)
    | Ok gal =>
      match _drawKImage gal (meta_kmodel k) with
      | Raise e => (Raise e, k)
      | Ok km =>
        match psf (kobs k) with
        | None => (Ok tt, with_kmodel k km)
        | Some p =>
          match image_op complex_mul km p with
          | Raise e => (Raise e, with_kmodel k km)
          | Ok km2 => (Ok tt, with_kmodel k km2)
          end
        end
      end
    end.
Proof.
  intros G self band_pars k.
  unfold _fill_models_kobs, mbind, gets, lift, modify, ret.
  destruct (make_model self band_pars) as [gal|e]; [|reflexivity].
  destruct (_drawKImage gal (meta_kmodel k)) as [km|e]; [|reflexivity].
  simpl. destruct (psf (kobs k)) as [p|]; [|reflexivity].
  destruct (image_op complex_mul km p); reflexivity.
Qed.

(** One epoch of [_fill_models] sees of the observation its data only, and
    leaves a model image that depends on them only. *)
Lemma fill_models_kobs_respects : forall (G : Galsim) self band_pars,
  draws_in_place G ->
  respects kobs_sim kobs_eq (_fill_models_kobs self band_pars).
Proof.
  intros G self band_pars [Hsize Hover] k1 k2 Hsim.
  pose proof Hsim as (Hk & Hi & Hlm & Hls).
  rewrite !fill_models_kobs_unfold.
  assert (Hrefl : kobs_sim k1 k1) by (unfold kobs_sim; frames).
  destruct (make_model self band_pars) as [gal|e].
  2:{ simpl. split; [reflexivity|]. split; [exact Hsim|].
      split; [exact Hrefl | intros ? ?; discriminate]. }
  rewrite <- (Hover gal _ _ Hlm). rewrite <- Hk.
  destruct (_drawKImage gal (meta_kmodel k1)) as [km|e] eqn:Ed.
  2:{ simpl. split; [reflexivity|]. split; [exact Hsim|].
      split; [exact Hrefl | intros ? ?; discriminate]. }
  apply Hsize in Ed.
  assert (Hkm : forall v, same_frame km v ->
            kobs_sim (with_kmodel k1 v) (with_kmodel k2 v) /\
            kobs_sim k1 (with_kmodel k1 v) /\
            kobs_eq (with_kmodel k1 v) (with_kmodel k2 v)).
  { intros v Hv. unfold kobs_eq, kobs_sim. frames. }
  destruct (psf (kobs k1)) as [p|].
  - destruct (image_op complex_mul km p) as [km2|e] eqn:Ei.
    + apply image_op_frame in Ei. simpl.
      destruct (Hkm km2 Ei) as (Ha & Hb & Hc).
      split; [reflexivity|]. split; [exact Ha|].
      split; [exact Hb | intros ? ?; exact Hc].
    + simpl. destruct (Hkm km (same_frame_refl km)) as (Ha & Hb & Hc).
      split; [reflexivity|]. split; [exact Ha|].
      split; [exact Hb | intros ? ?; discriminate].
  - simpl. destruct (Hkm km (same_frame_refl km)) as (Ha & Hb & Hc).
    split; [reflexivity|]. split; [exact Ha|].
    split; [exact Hb | intros ? ?; exact Hc].
Qed.

(** ** Assembling the residuals of one epoch *)

(** One epoch of [calc_fdiff], the steps spelled out. *)
Lemma calc_fdiff_kobs_unfold : forall start fdiff k,
  calc_fdiff_kobs (start, fdiff) k
  = match elementwise (fun _ z => z) (meta_scratch k) (meta_kmodel k) with
    | Raise e => (Raise e, k)
    | Ok s1 =>
    match image_op csub s1 (kimage (kobs k)) with
    | Raise e => (Raise e, with_scratch k s1)
    | Ok s2 =>
    match elementwise (fun z e => (real z * e, imag z)%float) s2 (meta_ierr k)
    with
    | Raise e => (Raise e, with_scratch k s2)
    | Ok s3 =>
    match elementwise (fun z e => (real z, imag z * e)%float) s3 (meta_ierr k)
    with
    | Raise e => (Raise e, with_scratch k s3)
    | Ok s4 =>
    let n := length (array s4) in
    match set_slice fdiff start (start + n) (map real (array s4)) with
    | Raise e => (Raise e, with_scratch k s4)
    | Ok fd1 =>
    match set_slice fd1 (start + n) (start + n + n) (map imag (array s4)) with
    | Raise e => (Raise e, with_scratch k s4)
    | Ok fd2 => (Ok (start + n + n, fd2), with_scratch k s4)
    end end end end end end.
Proof.
  intros start fdiff k.
  unfold calc_fdiff_kobs, mbind, gets, lift, modify, ret.
  destruct (elementwise _ (meta_scratch k) _) as [s1|e]; [|reflexivity].
  simpl.
  destruct (image_op csub s1 _) as [s2|e]; [|reflexivity].
  destruct (elementwise _ s2 _) as [s3|e]; [|reflexivity].
  destruct (elementwise _ s3 _) as [s4|e]; [|reflexivity].
  destruct (set_slice fdiff _ _ _) as [fd1|e]; [|reflexivity].
  destruct (set_slice fd1 _ _ _) as [fd2|e]; reflexivity.
Qed.


Lemma map2_second : forall {A : Type} (a b : list A),
  length a = length b -> map2 (fun _ z => z) a b = b.
Proof.
  intros A a. induction a as [|x a IH]; intros [|y b] H; simpl in *;
    try discriminate; [reflexivity|].
  f_equal. apply IH. lia.
Qed.

(** The copy [scratch.array[:, :] = kmodel.array[:, :]] sees of [scratch] its
    frame only. *)
Lemma elementwise_copy : forall {A : Type} (a a' b : Image A),
  same_frame a a' ->
  match elementwise (fun _ z => z) a b, elementwise (fun _ z => z) a' b with
  | Ok c, Ok c' => array c = array c' /\ same_frame a c /\ same_frame a' c'
  | Raise e, Raise e' => e = e'
  | _, _ => False
  end.
Proof.
  intros A a a' b Hf.
  destruct (elementwise (fun _ z => z) a b) as [c|e] eqn:E1.
  - pose proof (elementwise_frame _ _ _ _ E1) as F1.
    apply elementwise_result in E1. destruct E1 as (b' & Hb & Hl & ->).
    unfold elementwise.
    replace (shape a') with (shape a) by frames.
    rewrite Hb.
    replace (length (array a')) with (length (array a)) by frames.
    rewrite Hl, Nat.eqb_refl. simpl.
    rewrite !map2_second by frames.
    split; [reflexivity|]. split; apply with_array_frame; frames.
  - rewrite (elementwise_raise (fun _ z => z) (fun _ z => z) a a' b e);
      [reflexivity | frames | exact E1].
Qed.

Lemma image_eq : forall {A : Type} (a b : Image A),
  bounds a = bounds b -> wcs_scale a = wcs_scale b -> shape a = shape b ->
  array a = array b -> a = b.
Proof.
  intros A [] []; simpl; intros; subst; reflexivity.
Qed.

(** One epoch of [calc_fdiff] sees of the observation its data and its model
    image only. *)
Lemma calc_fdiff_kobs_respects : forall acc,
  respects kobs_eq kobs_eq (calc_fdiff_kobs acc).
Proof.
  intros [start fdiff] k1 k2 Heq.
  pose proof Heq as ((Hk & Hi & Hlm & Hls) & Hm).
  assert (Hrefl : kobs_eq k1 k1) by (unfold kobs_eq, kobs_sim; frames).
  assert (Hsc : forall v, same_frame (meta_scratch k1) v ->
            kobs_eq (with_scratch k1 v) (with_scratch k2 v) /\
            kobs_eq k1 (with_scratch k1 v)).
  { intros v Hv. unfold kobs_eq, kobs_sim. frames. }
  rewrite !calc_fdiff_kobs_unfold.
  pose proof (elementwise_copy (meta_scratch k1) (meta_scratch k2)
                (meta_kmodel k1) Hls) as Hc.
  rewrite <- Hk, <- Hi, <- Hm.
  destruct (elementwise _ (meta_scratch k1) _) as [c1|e1],
           (elementwise _ (meta_scratch k2) _) as [c2|e2];
    try contradiction.
  2:{ subst e2. simpl. split; [reflexivity|]. split; [exact Heq|].
      split; [exact Hrefl | intros ? ?; discriminate]. }
  destruct Hc as (Ha & F1 & F2).
  assert (Hcc : c1 = c2) by (apply image_eq; frames).
  subst c2. clear F2 Ha.
  destruct (image_op csub c1 _) as [s2|e] eqn:E2.
  2:{ simpl. destruct (Hsc _ F1) as [Ha Hb].
      split; [reflexivity|]. split; [exact Ha|].
      split; [exact Hb | intros ? ?; discriminate]. }
  apply image_op_frame in E2.
  pose proof (same_frame_trans _ _ _ F1 E2) as F2.
  destruct (elementwise _ s2 _) as [s3|e] eqn:E3.
  2:{ simpl. destruct (Hsc _ F2) as [Ha Hb].
      split; [reflexivity|]. split; [exact Ha|].
      split; [exact Hb | intros ? ?; discriminate]. }
  apply elementwise_frame in E3.
  pose proof (same_frame_trans _ _ _ F2 E3) as F3.
  destruct (elementwise _ s3 _) as [s4|e] eqn:E4.
  2:{ simpl. destruct (Hsc _ F3) as [Ha Hb].
      split; [reflexivity|]. split; [exact Ha|].
      split; [exact Hb | intros ? ?; discriminate]. }
  apply elementwise_frame in E4.
  pose proof (same_frame_trans _ _ _ F3 E4) as F4.
  destruct (Hsc _ F4) as [Ha Hb].
  cbv zeta.
  destruct (set_slice fdiff _ _ _) as [fd1|e].
  2:{ simpl. split; [reflexivity|]. split; [exact Ha|].
      split; [exact Hb | intros ? ?; discriminate]. }
  destruct (set_slice fd1 _ _ _) as [fd2|e].
  2:{ simpl. split; [reflexivity|]. split; [exact Ha|].
      split; [exact Hb | intros ? ?; discriminate]. }
  simpl. split; [reflexivity|]. split; [exact Ha|].
  split; [exact Hb | intros ? ?; exact Ha].
Qed.

(** Writing a block right after what is written already. *)
Lemma set_slice_append : forall (w r b : list float),
  length b <= length r ->
  set_slice (w ++ r) (length w) (length w + length b) b
  = Ok (w ++ b ++ skipn (length b) r).
Proof.
  intros w r b Hb. unfold set_slice, slice_len.
  rewrite length_app.
  replace (Nat.min (length w + length b) (length w + length r)
           - Nat.min (length w) (length w + length r))
    with (length b) by lia.
  rewrite Nat.eqb_refl.
  rewrite firstn_app, firstn_all, Nat.sub_diag. simpl firstn.
  rewrite app_nil_r.
  rewrite skipn_app, skipn_all2 by lia.
  replace (length w + length b - length w) with (length b) by lia.
  reflexivity.
Qed.

Lemma map2_map2_ierr : forall (s : list complex) (e : list float),
  map2 (fun z x => (real z, imag z * x)%float)
    (map2 (fun z x => (real z * x, imag z)%float) s e) e
  = map2 (fun z x => (real z * x, imag z * x)%float) s e.
Proof.
  induction s as [|z s IH]; intros [|x e]; simpl; try reflexivity.
  now rewrite IH.
Qed.

Lemma with_array_twice : forall {A B C : Type} (a : Image A) (u : list B)
    (v : list C),
  with_array (with_array a u) v = with_array a v.
Proof. reflexivity. Qed.

(** One epoch of [calc_fdiff] on an observation whose images have one
    shape, the array having room for the block: the block is written after
    what is written already. *)
Lemma calc_fdiff_kobs_layout : forall (w r : list float) k,
  kobs_wf k ->
  length (residual_block k) <= length r ->
  calc_fdiff_kobs (length w, w ++ r) k
  = (Ok (length (w ++ residual_block k),
         (w ++ residual_block k) ++ skipn (length (residual_block k)) r),
     with_scratch k (with_array (meta_scratch k) (normalized_diff k))).
Proof.
  intros w r k (Hm & Hs & Hi) Hr.
  remember (length (array (kimage (kobs k)))) as n eqn:En.
  assert (Hd1 : length (map2 csub (array (meta_kmodel k))
                          (array (kimage (kobs k)))) = n)
    by (rewrite map2_length; frames).
  assert (Hn : length (normalized_diff k) = n).
  { unfold normalized_diff. rewrite map2_length; frames. }
  assert (Hblock : length (residual_block k) = n + n).
  { unfold residual_block. now rewrite length_app, !length_map, Hn. }
  rewrite calc_fdiff_kobs_unfold.
  rewrite (elementwise_ok _ (meta_scratch k) (meta_kmodel k)) by frames.
  rewrite map2_second by frames.
  rewrite image_op_ok by frames.
  rewrite with_array_twice. cbn [array with_array].
  rewrite elementwise_ok by frames.
  rewrite with_array_twice. cbn [array with_array].
  rewrite elementwise_ok
    by (split; [frames | cbn [array with_array]; rewrite map2_length; frames]).
  rewrite with_array_twice. cbn [array with_array].
  rewrite map2_map2_ierr. fold (normalized_diff k). cbv zeta. rewrite Hn.
  assert (H1 : set_slice (w ++ r) (length w) (length w + n)
                 (map real (normalized_diff k))
               = Ok (w ++ map real (normalized_diff k) ++ skipn n r)).
  { pose proof (set_slice_append w r (map real (normalized_diff k))) as H.
    rewrite length_map, Hn in H. apply H. lia. }
  rewrite H1.
  assert (H2 : set_slice (w ++ map real (normalized_diff k) ++ skipn n r)
                 (length w + n) (length w + n + n)
                 (map imag (normalized_diff k))
               = Ok ((w ++ map real (normalized_diff k))
                     ++ map imag (normalized_diff k)
                     ++ skipn n (skipn n r))).
  { pose proof (set_slice_append (w ++ map real (normalized_diff k))
                  (skipn n r) (map imag (normalized_diff k))) as H.
    rewrite length_app, !length_map, Hn, length_skipn in H.
    rewrite <- app_assoc in H. apply H. lia. }
  rewrite H2. rewrite skipn_skipn. unfold residual_block.
  rewrite !length_app, !length_map, Hn, <- !app_assoc.
  replace (length w + (n + n)) with (length w + n + n) by lia.
  reflexivity.
Qed.

(** ** The two loops over the bands *)

Lemma with_mb_kobs_same : forall self, with_mb_kobs self (mb_kobs self) = self.
Proof. intros []; reflexivity. Qed.

Lemma for_list_ext : forall {X Acc : Type} (body1 body2 : Acc -> M X Acc),
  (forall acc x, body1 acc x = body2 acc x) ->
  forall l acc, for_list body1 acc l = for_list body2 acc l.
Proof.
  intros X Acc body1 body2 He. induction l as [|x l IH]; intros acc; simpl;
    [reflexivity|].
  rewrite He. destruct (body2 acc x) as [[a|e] y]; [|reflexivity].
  now rewrite IH.
Qed.

(** A model stays related to itself when its buffers are replaced by
    buffers of the same sizes. *)
Lemma sim_update : forall s1 s2 p mb,
  sim s1 s2 -> length p = nshared (cls s1) + 1 ->
  Forall2 (Forall2 kobs_sim) (mb_kobs s1) mb ->
  sim s1 (with_mb_kobs (with_band_pars s1 p) mb).
Proof.
  intros s1 s2 p mb (H1 & H2 & H3 & H4 & H5 & H6 & H7 & H8 & H9) Hp Hmb.
  repeat split; simpl; assumption.
Qed.

Lemma respects_zoom_mb_eq : forall {A : Type} (m : M (list (list KObs)) A),
  respects (Forall2 (Forall2 kobs_eq)) (Forall2 (Forall2 kobs_eq)) m ->
  respects sim_eq sim_eq (zoom mb_kobs with_mb_kobs m).
Proof.
  intros A m Hm s1 s2 [Hsim Heq]. unfold zoom.
  destruct (Hm _ _ Heq) as (Hr & Hs & H1 & _).
  destruct (m (mb_kobs s1)) as [r1 t1], (m (mb_kobs s2)) as [r2 t2];
    simpl in *.
  assert (Ha : sim_eq (with_mb_kobs s1 t1) (with_mb_kobs s2 t2)).
  { split; [|exact Hs]. apply sim_with_mb_kobs; [exact Hsim|].
    now apply kobs_eq_sim. }
  split; [exact Hr|]. split; [exact Ha|]. split; [|intros _ _; exact Ha].
  split; [|exact H1].
  rewrite <- (with_band_pars_same s1) at 2.
  apply (sim_update s1 s2); [exact Hsim | | now apply kobs_eq_sim].
  destruct Hsim as (_ & _ & _ & _ & _ & _ & H7 & _). exact H7.
Qed.

(** The loop of [calc_fdiff] over one band sees the data and the filled
    model images only. *)
Lemma calc_fdiff_band_respects : forall band acc,
  respects sim_eq sim_eq (calc_fdiff_band band acc).
Proof.
  intros band acc. unfold calc_fdiff_band.
  apply respects_zoom_mb_eq.
  apply respects_zoom_nth; [apply per_Forall2, per_kobs_eq|].
  apply respects_for_list; [apply per_kobs_eq|].
  apply calc_fdiff_kobs_respects.
Qed.

Section Determinism.

Context {G : Galsim}.
Hypothesis G_in_place : draws_in_place G.

Lemma fill_models_kobs_ext : forall s1 s2 band_pars k,
  make_model s1 band_pars = make_model s2 band_pars ->
  _fill_models_kobs s1 band_pars k = _fill_models_kobs s2 band_pars k.
Proof.
  intros s1 s2 band_pars k H. rewrite !fill_models_kobs_unfold.
  now rewrite H.
Qed.

(** One band of [_fill_models]: it sees the data only, and when it returns
    the model images of this band are filled alike. *)
Lemma fill_models_band_step : forall pars b s1 s2,
  sim_upto b s1 s2 -> b < length (mb_kobs s1) ->
  fst (_fill_models_band pars b tt s1) = fst (_fill_models_band pars b tt s2) /\
  sim (snd (_fill_models_band pars b tt s1))
      (snd (_fill_models_band pars b tt s2)) /\
  sim s1 (snd (_fill_models_band pars b tt s1)) /\
  (fst (_fill_models_band pars b tt s1) = Ok tt ->
   sim_upto (S b) (snd (_fill_models_band pars b tt s1))
                  (snd (_fill_models_band pars b tt s2))).
Proof.
  intros pars b s1 s2 [Hsim Hup] Hb.
  unfold _fill_models_band, mbind.
  destruct (get_band_pars_sim pars b s1 s2 Hsim)
    as (Hr & p1 & p2 & E1 & E2 & L1 & L2).
  destruct (get_band_pars pars b s1) as [r1 t1],
           (get_band_pars pars b s2) as [r2 t2]; simpl in *.
  subst t1 t2 r2.
  pose proof Hsim as (Hc & Hmc & _ & _ & _ & _ & _ & _ & Hmb).
  assert (Hrefl : Forall2 (Forall2 kobs_sim) (mb_kobs s1) (mb_kobs s1)).
  { eapply per_refl_l;
      [apply per_Forall2, per_Forall2, per_kobs_sim | exact Hmb]. }
  destruct r1 as [bp|e].
  2:{ simpl. split; [reflexivity|].
      split; [now apply sim_with_band_pars|].
      split; [|intros ?; discriminate].
      rewrite <- (with_mb_kobs_same (with_band_pars s1 p1)).
      now apply (sim_update s1 s2). }
  unfold zoom, zoom_nth. simpl mb_kobs.
  assert (Hb2 : b < length (mb_kobs s2))
    by (rewrite <- (Forall2_length Hmb); exact Hb).
  pose proof (Forall2_nth_error _ _ _ b Hmb) as Hn.
  destruct (nth_error (mb_kobs s1) b) as [kl1|] eqn:N1;
    [|apply nth_error_None in N1; lia].
  destruct (nth_error (mb_kobs s2) b) as [kl2|] eqn:N2; [|contradiction].
  rewrite (for_list_ext
             (fun _ => _fill_models_kobs (with_band_pars s2 p2) bp)
             (fun _ => _fill_models_kobs (with_band_pars s1 p1) bp)).
  2:{ intros _ x. apply fill_models_kobs_ext. symmetry.
      now apply make_model_sim. }
  destruct (respects_for_list kobs_sim kobs_eq
              (fun _ : unit => _fill_models_kobs (with_band_pars s1 p1) bp)
              per_kobs_sim
              (fun _ => fill_models_kobs_respects G _ bp G_in_place)
              tt kl1 kl2 Hn) as (Hr & Hs & H1 & Hok).
  destruct (for_list _ tt kl1) as [r1 kl1'], (for_list _ tt kl2) as [r2 kl2'].
  simpl in *.
  split; [exact Hr|].
  assert (Hpost : sim
            (with_mb_kobs (with_band_pars s1 p1)
               (replace_at (mb_kobs s1) b kl1'))
            (with_mb_kobs (with_band_pars s2 p2)
               (replace_at (mb_kobs s2) b kl2'))).
  { apply sim_with_mb_kobs; [now apply sim_with_band_pars|].
    now apply Forall2_replace_at. }
  split; [exact Hpost|]. split.
  - apply (sim_update s1 s2); [assumption | assumption|].
    eapply Forall2_replace_at_self; eauto.
  - intros Hok1. split; [exact Hpost|]. simpl mb_kobs.
    rewrite !firstn_S_replace_at by assumption.
    apply Forall2_app; [exact Hup|]. constructor; [|constructor].
    apply (Hok tt). exact Hok1.
Qed.

(** The loop of [_fill_models] from band [b] on. *)
Lemma fill_models_loop : forall pars n b s1 s2,
  sim_upto b s1 s2 -> b + n = length (mb_kobs s1) ->
  fst (for_range n b (_fill_models_band pars) tt s1)
  = fst (for_range n b (_fill_models_band pars) tt s2) /\
  sim (snd (for_range n b (_fill_models_band pars) tt s1))
      (snd (for_range n b (_fill_models_band pars) tt s2)) /\
  sim s1 (snd (for_range n b (_fill_models_band pars) tt s1)) /\
  (fst (for_range n b (_fill_models_band pars) tt s1) = Ok tt ->
   sim_upto (b + n) (snd (for_range n b (_fill_models_band pars) tt s1))
                    (snd (for_range n b (_fill_models_band pars) tt s2))).
Proof.
  intros pars n. induction n as [|n IH]; intros b s1 s2 Hup Hlen.
  - simpl. destruct Hup as [Hsim Hup].
    split; [reflexivity|]. split; [exact Hsim|].
    split; [eapply per_refl_l; [apply per_sim | exact Hsim]|].
    intros _. rewrite Nat.add_0_r. split; assumption.
  - simpl for_range. unfold mbind.
    destruct (fill_models_band_step pars b s1 s2 Hup ltac:(lia))
      as (Hr & Hs & H1 & Hok).
    destruct (_fill_models_band pars b tt s1) as [[[]|e] t1],
             (_fill_models_band pars b tt s2) as [[[]|e2] t2];
      simpl in *; try discriminate.
    + assert (Hlen1 : S b + n = length (mb_kobs t1)).
      { destruct H1 as (_ & _ & _ & _ & _ & _ & _ & _ & Hmb).
        rewrite <- (Forall2_length Hmb). lia. }
      destruct (IH (S b) t1 t2 (Hok eq_refl) Hlen1) as (Hr' & Hs' & H1' & Hok').
      split; [exact Hr'|]. split; [exact Hs'|].
      split; [exact (proj2 per_sim _ _ _ H1 H1')|].
      intros Ho. replace (b + S n) with (S b + n) by lia. auto.
    + split; [exact Hr|]. split; [exact Hs|].
      split; [exact H1 | intros ?; discriminate].
Qed.

(** [_fill_models] sees the data only, and when it returns all model images
    are filled alike. *)
Lemma fill_models_respects : forall pars,
  respects sim sim_eq (_fill_models pars).
Proof.
  intros pars. unfold _fill_models. apply respects_except_as_range.
  intros s1 s2 Hsim. unfold mbind, gets.
  pose proof Hsim as (_ & _ & _ & _ & _ & _ & _ & _ & Hmb).
  rewrite <- (Forall2_length Hmb).
  assert (Hup : sim_upto 0 s1 s2) by (split; [exact Hsim | constructor]).
  pose proof (fill_models_loop pars (length (mb_kobs s1)) 0 s1 s2 Hup eq_refl)
    as Hloop.
  remember (length (mb_kobs s1)) as n eqn:En.
  destruct (for_range n 0 (_fill_models_band pars) tt s1) as [r1 t1],
           (for_range n 0 (_fill_models_band pars) tt s2) as [r2 t2].
  simpl in *. destruct Hloop as (Hr & Hs & H1 & Hok).
  split; [exact Hr|]. split; [exact Hs|]. split; [exact H1|].
  intros [] Ha. destruct (Hok Ha) as [Hsim' Heq].
  split; [exact Hsim'|].
  destruct Hsim' as (_ & _ & _ & _ & _ & _ & _ & _ & Hmb').
  pose proof (Forall2_length Hmb') as Hl2.
  destruct H1 as (_ & _ & _ & _ & _ & _ & _ & _ & Hmb1).
  pose proof (Forall2_length Hmb1) as Hl1.
  rewrite firstn_all2 in Heq by lia.
  rewrite firstn_all2 in Heq by lia. exact Heq.
Qed.

End Determinism.

(** ** Determinism of the residuals *)

Section Deterministic.

Context {G : Galsim}.
Hypothesis G_in_place : draws_in_place G.
Variable LOWVAL : float.

Lemma fill_priors_sim : forall s1 s2 pars fdiff,
  sim s1 s2 -> _fill_priors s1 pars fdiff = _fill_priors s2 pars fdiff.
Proof.
  intros s1 s2 pars fdiff (_ & _ & Hp & _). unfold _fill_priors.
  now rewrite Hp.
Qed.

(** The [try] block of [calc_fdiff] sees the data only. *)
Lemma calc_fdiff_try_sim : forall pars fdiff s1 s2,
  sim s1 s2 ->
  fst (calc_fdiff_try pars fdiff s1) = fst (calc_fdiff_try pars fdiff s2) /\
  sim (snd (calc_fdiff_try pars fdiff s1))
      (snd (calc_fdiff_try pars fdiff s2)) /\
  sim s1 (snd (calc_fdiff_try pars fdiff s1)).
Proof.
  intros pars fdiff s1 s2 Hsim. unfold calc_fdiff_try, mbind.
  destruct (fill_models_respects G_in_place pars s1 s2 Hsim)
    as (Hr & Hs & H1 & Hok).
  destruct (_fill_models pars s1) as [[[]|e] t1],
           (_fill_models pars s2) as [[[]|e2] t2]; simpl in *;
    try discriminate.
  2:{ split; [congruence|]. split; assumption. }
  specialize (Hok tt eq_refl).
  unfold lift. rewrite (fill_priors_sim t1 t2 pars fdiff Hs).
  destruct (_fill_priors t2 pars fdiff) as [acc|e]; simpl.
  2:{ split; [reflexivity|]. split; assumption. }
  unfold gets.
  replace (nband t2) with (nband t1)
    by (destruct Hs as (_ & _ & _ & Hn & _); exact Hn).
  destruct (respects_for_range sim_eq calc_fdiff_band per_sim_eq
              calc_fdiff_band_respects (nband t1) 0 acc t1 t2 Hok)
    as (Hr' & Hs' & H1' & _).
  destruct (for_range (nband t1) 0 calc_fdiff_band acc t1) as [[a|e] u1],
           (for_range (nband t1) 0 calc_fdiff_band acc t2) as [[a2|e2] u2];
    simpl in *; try discriminate.
  - inversion Hr'; subst a2. unfold ret. simpl.
    split; [reflexivity|]. split; [exact (proj1 Hs')|].
    exact (proj2 per_sim _ _ _ H1 (proj1 H1')).
  - split; [congruence|]. split; [exact (proj1 Hs')|].
    exact (proj2 per_sim _ _ _ H1 (proj1 H1')).
Qed.

(** [calc_fdiff] sees the data only, and leaves buffers of the sizes it
    found. *)
Lemma calc_fdiff_sim : forall pars s1 s2,
  sim s1 s2 ->
  fst (calc_fdiff LOWVAL pars s1) = fst (calc_fdiff LOWVAL pars s2) /\
  sim s1 (snd (calc_fdiff LOWVAL pars s1)).
Proof.
  intros pars s1 s2 Hsim. unfold calc_fdiff.
  replace (fdiff_size s2) with (fdiff_size s1)
    by (destruct Hsim as (_ & _ & _ & _ & Hf & _); exact Hf).
  destruct (calc_fdiff_try_sim pars (np_zeros (fdiff_size s1)) s1 s2 Hsim)
    as (Hr & _ & H1).
  destruct (calc_fdiff_try pars _ s1) as [[v|e] t1],
           (calc_fdiff_try pars _ s2) as [[v2|e2] t2]; simpl in *;
    try discriminate.
  - split; assumption.
  - inversion Hr; subst e2.
    destruct (isinstance_GMixRangeError e); simpl; split;
      reflexivity || assumption.
Qed.

(** Two calls in a row return the same. *)
Lemma calc_fdiff_twice : forall pars self r1 s1 r2 s2,
  length (_band_pars self) = nshared (cls self) + 1 ->
  calc_fdiff LOWVAL pars self = (r1, s1) ->
  calc_fdiff LOWVAL pars s1 = (r2, s2) ->
  r1 = r2.
Proof.
  intros pars self r1 s1 r2 s2 Hbuf E1 E2.
  destruct (calc_fdiff_sim pars self self (sim_refl self Hbuf)) as [_ H1].
  rewrite E1 in H1. simpl in H1.
  destruct (calc_fdiff_sim pars self s1 H1) as [Hr _].
  rewrite E1, E2 in Hr. exact Hr.
Qed.

End Deterministic.

(** ** The layout of the residuals *)

Lemma residual_block_length : forall k,
  kobs_wf k ->
  length (residual_block k) = 2 * length (array (kimage (kobs k))).
Proof.
  intros k (Hm & Hs & Hi). unfold residual_block, normalized_diff.
  assert (H1 : length (map2 csub (array (meta_kmodel k))
                         (array (kimage (kobs k))))
               = length (array (kimage (kobs k))))
    by (rewrite map2_length; frames).
  rewrite length_app, !length_map, map2_length by frames.
  rewrite H1. lia.
Qed.

(** The epochs of one band, the array having room for their blocks. *)
Lemma calc_fdiff_kobs_list_layout : forall kl (w r : list float),
  Forall kobs_wf kl ->
  length (concat (map residual_block kl)) <= length r ->
  for_list calc_fdiff_kobs (length w, w ++ r) kl
  = (Ok (length (w ++ concat (map residual_block kl)),
         (w ++ concat (map residual_block kl))
         ++ skipn (length (concat (map residual_block kl))) r),
     map (fun k =>
            with_scratch k (with_array (meta_scratch k) (normalized_diff k)))
       kl).
Proof.
  induction kl as [|k kl IH]; intros w r Hwf Hr.
  - simpl. now rewrite !app_nil_r.
  - inversion Hwf as [|? ? Hk Hkl]; subst.
    simpl in Hr. rewrite length_app in Hr.
    cbn [for_list]. rewrite calc_fdiff_kobs_layout by (assumption || lia).
    rewrite IH; [|assumption | rewrite length_skipn; lia].
    cbn [map concat]. rewrite skipn_skipn, <- !app_assoc.
    rewrite !length_app.
    replace (length (concat (map residual_block kl))
             + length (residual_block k))
      with (length (residual_block k)
            + length (concat (map residual_block kl))) by lia.
    rewrite Nat.add_assoc. reflexivity.
Qed.

(** The loop over the bands [suf] that follow the bands [pre], the array
    having room for their blocks. *)
Lemma calc_fdiff_bands_layout : forall suf pre (w r : list float) self,
  mb_kobs self = pre ++ suf ->
  Forall (Forall kobs_wf) suf ->
  length (concat (map (fun kl => concat (map residual_block kl)) suf))
  <= length r ->
  fst (for_range (length suf) (length pre) calc_fdiff_band
         (length w, w ++ r) self)
  = Ok (length
          (w ++ concat (map (fun kl => concat (map residual_block kl)) suf)),
        (w ++ concat (map (fun kl => concat (map residual_block kl)) suf))
        ++ skipn
             (length
                (concat (map (fun kl => concat (map residual_block kl)) suf)))
             r).
Proof.
  induction suf as [|kl suf IH]; intros pre w r self Hmb Hwf Hr.
  - simpl. now rewrite !app_nil_r.
  - inversion Hwf as [|? ? Hkl Hsuf]; subst.
    cbn [map concat] in *. rewrite length_app in Hr.
    cbn [length for_range]. unfold mbind.
    unfold calc_fdiff_band at 1. unfold zoom, zoom_nth. rewrite Hmb.
    rewrite nth_error_app2, Nat.sub_diag by lia. cbn [nth_error].
    rewrite calc_fdiff_kobs_list_layout by (assumption || lia).
    rewrite replace_at_app.
    set (kl' := map (fun k =>
                       with_scratch k
                         (with_array (meta_scratch k) (normalized_diff k)))
                  kl).
    set (B1 := concat (map residual_block kl)) in *.
    set (B2 := concat (map (fun kl => concat (map residual_block kl)) suf))
      in *.
    pose proof (IH (pre ++ [kl']) (w ++ B1) (skipn (length B1) r)
                  (with_mb_kobs self (pre ++ kl' :: suf))) as H.
    rewrite length_app in H. simpl length in H.
    replace (length pre + 1) with (S (length pre)) in H by lia.
    rewrite H.
    + rewrite skipn_skipn, <- !app_assoc, !length_app.
      replace (length B2 + length B1) with (length B1 + length B2) by lia.
      rewrite Nat.add_assoc. reflexivity.
    + simpl. now rewrite <- app_assoc.
    + assumption.
    + rewrite length_skipn. fold B2. lia.
Qed.

Lemma kobs_wf_sim : forall k k1, kobs_sim k k1 -> kobs_wf k -> kobs_wf k1.
Proof.
  intros k k1 (Hk & Hi & Hm & Hs) (W1 & W2 & W3).
  unfold kobs_wf. rewrite <- Hk, <- Hi. frames.
Qed.

Lemma mb_kobs_wf_sim : forall mb mb1,
  Forall2 (Forall2 kobs_sim) mb mb1 ->
  Forall (Forall kobs_wf) mb -> Forall (Forall kobs_wf) mb1.
Proof.
  intros mb mb1 H. induction H as [|kl kl1 mb mb1 Hkl Hmb IH]; intros Hwf;
    inversion Hwf; subst; constructor; auto.
  clear - Hkl H1. induction Hkl; inversion H1; subst; constructor; auto.
  eapply kobs_wf_sim; eauto.
Qed.

Lemma total_pixels_sim : forall mb mb1,
  Forall2 (Forall2 kobs_sim) mb mb1 ->
  total_pixels (map (map kobs) mb1) = total_pixels (map (map kobs) mb).
Proof.
  intros mb mb1 H. unfold total_pixels.
  induction H as [|kl kl1 mb mb1 Hkl Hmb IH]; simpl; [reflexivity|].
  rewrite IH. f_equal.
  clear - Hkl. induction Hkl as [|k k1 kl kl1 Hk Hkl IH]; simpl;
    [reflexivity|].
  destruct Hk as (Hk & _). now rewrite IH, Hk.
Qed.

Lemma blocks_length : forall mb,
  Forall (Forall kobs_wf) mb ->
  length (concat (map (fun kl => concat (map residual_block kl)) mb))
  = 2 * total_pixels (map (map kobs) mb).
Proof.
  intros mb H. unfold total_pixels.
  induction H as [|kl mb Hkl Hmb IH]; simpl; [reflexivity|].
  rewrite length_app, IH.
  assert (Hb : length (concat (map residual_block kl))
               = 2 * list_sum (map (fun k => length (array (kimage k)))
                                 (map kobs kl))).
  { clear - Hkl. induction Hkl as [|k kl Hk Hkl IH]; simpl; [reflexivity|].
    rewrite length_app, IH, (residual_block_length k Hk). lia. }
  rewrite Hb. lia.
Qed.

Section Layout.

Context {G : Galsim}.
Hypothesis G_in_place : draws_in_place G.
Variable LOWVAL : float.

(** When the models are filled and the prior gives as many terms as
    [n_prior_pars] counts, [calc_fdiff] returns the prior's terms followed
    by the blocks of the observations, band by band and epoch by epoch. *)
Lemma calc_fdiff_layout : forall pars self s1 terms,
  wf self ->
  _fill_models pars self = (Ok tt, s1) ->
  prior_terms self pars = Ok terms ->
  length terms = n_prior_pars self ->
  fst (calc_fdiff LOWVAL pars self)
  = Ok (residual_layout terms (mb_kobs s1)).
Proof.
  intros pars self s1 terms (Wn & Wf & Wt & Wb & Wk) Hfill Hterms Hlen.
  destruct (fill_models_respects G_in_place pars self self (sim_refl self Wb))
    as (_ & _ & Hsim & _).
  rewrite Hfill in Hsim. simpl in Hsim.
  pose proof Hsim as (_ & _ & Hp & Hnb & Hfs & _ & _ & _ & Hmb).
  set (B := concat (map (fun kl => concat (map residual_block kl))
                      (mb_kobs s1))).
  assert (HB : length B = 2 * totpix self).
  { subst B. rewrite blocks_length by (eapply mb_kobs_wf_sim; eauto).
    now rewrite (total_pixels_sim _ _ Hmb), Wt. }
  set (r := skipn (length terms) (np_zeros (fdiff_size self))).
  assert (Hr : length r = length B).
  { subst r. rewrite length_skipn. unfold np_zeros.
    rewrite repeat_length. lia. }
  assert (Hpri : _fill_priors s1 pars (np_zeros (fdiff_size self))
                 = Ok (length terms, terms ++ r)).
  { unfold _fill_priors, prior_terms in *. rewrite <- Hp.
    destruct (prior self) as [p|].
    - rewrite Hterms. cbn [bind].
      replace (length terms <=? length (np_zeros (fdiff_size self)))
        with true; [reflexivity|].
      symmetry. apply Nat.leb_le. unfold np_zeros.
      rewrite repeat_length. lia.
    - inversion Hterms; subst terms. reflexivity. }
  unfold calc_fdiff, calc_fdiff_try, mbind. rewrite Hfill.
  unfold lift. rewrite Hpri. unfold gets.
  pose proof (calc_fdiff_bands_layout (mb_kobs s1) [] terms r s1 eq_refl
                (mb_kobs_wf_sim _ _ Hmb Wk)) as Hl.
  fold B in Hl. change (length (@nil (list KObs))) with 0 in Hl.
  replace (length (mb_kobs s1)) with (nband s1) in Hl
    by (rewrite <- Hnb, Wn; exact (Forall2_length Hmb)).
  specialize (Hl ltac:(lia)).
  destruct (for_range (nband s1) 0 calc_fdiff_band (length terms, terms ++ r)
              s1) as [racc u1].
  simpl in Hl. subst racc. unfold ret. simpl.
  rewrite skipn_all2 by lia. rewrite app_nil_r. reflexivity.
Qed.

End Layout.

(** The constructor establishes what the methods rely on, when the weight
    map of every observation has the shape of its image. *)
Lemma init_wf : forall (G : Galsim) c mb name guess pr self,
  __init__ c mb name guess pr = Ok self ->
  Forall (Forall (fun k => same_grid (weight k) (kimage k))) mb ->
  wf self.
Proof.
  intros G c mb name guess pr self H Hshape.
  destruct (init_inv _ _ _ _ _ _ _ H) as (s0 & p & Hs & -> & Hp).
  destruct (init_setup_inv _ _ _ _ _ Hs)
    as (Hc & _ & Hnb & Hmb & _ & Ht & Hf & _).
  unfold wf. simpl. rewrite Hmb, Hc. repeat split.
  - rewrite Hnb. unfold _init_model_images. now rewrite length_map.
  - exact Hf.
  - rewrite Ht, set_totpix_total_pixels. f_equal.
    unfold _init_model_images. rewrite map_map.
    rewrite <- (map_id mb) at 1. apply map_ext. intros kl.
    rewrite map_map. rewrite <- (map_id kl) at 1. now apply map_ext.
  - exact Hp.
  - unfold _init_model_images. apply Forall_map.
    eapply Forall_impl; [|exact Hshape]. intros kl Hkl. apply Forall_map.
    eapply Forall_impl; [|exact Hkl]. intros k Hk.
    unfold kobs_wf, same_grid in *. simpl. rewrite length_map. auto.
Qed.

Lemma map_const_length : forall {A B : Type} (y : B) (a a' : list A),
  length a = length a' -> map (fun _ => y) a = map (fun _ => y) a'.
Proof.
  intros A B y a. induction a as [|x a IH]; intros [|x' a'] H; simpl in *;
    try discriminate; [reflexivity|].
  f_equal. apply IH. lia.
Qed.

(** The small renderer draws in place. *)
Lemma flat_galsim_in_place : draws_in_place flat_galsim.
Proof.
  split.
  - intros g im im' H. simpl in H. inversion H; subst.
    apply with_array_frame. apply length_map.
  - intros g im1 im2 H. simpl. f_equal. apply image_eq; try frames.
    simpl. apply map_const_length. frames.
Qed.

Lemma spergel_model_wf : wf spergel_model.
Proof.
  apply (init_wf flat_galsim GalsimSpergelFitModel two_bands ""
           spergel_guess (Some (unit_prior 7))).
  - vm_compute. reflexivity.
  - repeat constructor.
Qed.

(** C6: with a renderer that draws in place, on a model as the constructor
    leaves it, two calls of [calc_fdiff] in a row with the same parameters
    return the same, and so does a call from any other state of the model's
    buffers; and when the models are filled and the prior gives its
    [n_prior_pars] terms, the vector returned is these terms followed, band
    by band in index order and epoch by epoch in list order, by the real
    parts and then the imaginary parts of (model - data) * ierr. *)
Theorem calc_fdiff_deterministic_layout : forall (G : Galsim) (LOWVAL : float)
    (self : Self) (pars : list float),
  draws_in_place G -> wf self ->
  (forall r1 s1 r2 s2,
     calc_fdiff LOWVAL pars self = (r1, s1) ->
     calc_fdiff LOWVAL pars s1 = (r2, s2) ->
     r1 = r2) /\
  (forall self', sim self self' ->
     fst (calc_fdiff LOWVAL pars self') = fst (calc_fdiff LOWVAL pars self)) /\
  (forall s1 terms,
     _fill_models pars self = (Ok tt, s1) ->
     prior_terms self pars = Ok terms ->
     length terms = n_prior_pars self ->
     fst (calc_fdiff LOWVAL pars self)
     = Ok (terms
           ++ concat
                (map (fun kobs_list =>
                        concat
                          (map (fun k =>
                                  map real (normalized_diff k)
                                  ++ map imag (normalized_diff k))
                             kobs_list))
                   (mb_kobs s1)))).
Proof.
  intros G LOWVAL self pars HG Hwf. split; [|split].
  - intros r1 s1 r2 s2. apply (calc_fdiff_twice HG).
    destruct Hwf as (_ & _ & _ & Hb & _). exact Hb.
  - intros self' Hsim. symmetry.
    exact (proj1 (calc_fdiff_sim HG LOWVAL pars self self' Hsim)).
  - intros s1 terms Hfill Hterms Hlen.
    exact (calc_fdiff_layout HG LOWVAL pars self s1 terms Hwf Hfill Hterms
             Hlen).
Qed.

Lemma calc_fdiff_deterministic_layout_witness :
  (forall r1 s1 r2 s2,
     calc_fdiff (G := flat_galsim) LOWVAL0 spergel_guess spergel_model
     = (r1, s1) ->
     calc_fdiff (G := flat_galsim) LOWVAL0 spergel_guess s1 = (r2, s2) ->
     r1 = r2) /\
  fst (calc_fdiff (G := flat_galsim) LOWVAL0 spergel_guess spergel_model)
  = Ok (repeat 1%float 7
        ++ ([18; 16; 0; 6; 0; -2; 0; 1] ++ [9; 10; -1; -2])
        ++ [19; 20; -1; -2])%float.
Proof.
  pose proof (calc_fdiff_deterministic_layout flat_galsim LOWVAL0
                spergel_model spergel_guess flat_galsim_in_place
                spergel_model_wf) as (H1 & _ & H3).
  split; [exact H1|].
  rewrite (H3 (snd (_fill_models (G := flat_galsim) spergel_guess
                      spergel_model))
              (repeat 1%float 7)).
  - vm_compute. reflexivity.
  - vm_compute. reflexivity.
  - reflexivity.
  - reflexivity.
Defined.

(** ** The accumulated weighted power *)

(** The two multiplications by an array in place, of the real parts and
    then of the imaginary parts, are refused together or give together
    what one multiplication of both parts gives. *)
Lemma elementwise_twice : forall (a : karray) (w : Image float),
  match elementwise (fun z x => (real z * x, imag z)%float) a w with
  | Raise e =>
    elementwise (fun z x => (real z * x, imag z * x)%float) a w = Raise e
  | Ok a1 =>
    exists a2,
      elementwise (fun z x => (real z, imag z * x)%float) a1 w = Ok a2 /\
      elementwise (fun z x => (real z * x, imag z * x)%float) a w = Ok a2
  end.
Proof.
  intros a w.
  destruct (elementwise (fun z x => (real z * x, imag z)%float) a w)
    as [a1|e] eqn:E1.
  - apply elementwise_result in E1. destruct E1 as (b' & Hb & Hl & ->).
    eexists. unfold elementwise. cbn [shape array with_array].
    rewrite Hb, Hl, Nat.eqb_refl.
    rewrite map2_length by (symmetry; exact Hl).
    rewrite Nat.eqb_refl, with_array_twice, map2_map2_ierr.
    split; reflexivity.
  - eapply elementwise_raise; [|exact E1].
    split; reflexivity.
Qed.

Section AccumulatedPower.

Context {G : Galsim}.
Variable np_sum : list float -> float.

(** One epoch of [calc_s2n_r], the steps spelled out. *)
Lemma calc_s2n_r_kobs_unfold : forall self bp acc k,
  calc_s2n_r_kobs np_sum self bp acc k
  = match make_model self (round_slice bp) with
    | Raise e => (Raise e, k)
    | Ok gal =>
    match drawKImage gal (meta_kmodel k) with
    | Raise e => (Raise e, k)
    | Ok km =>
    match
      match psf (kobs k) with
      | Some p => image_op complex_mul km p
      | None => Ok km
      end
    with
    | Raise e => (Raise e, with_kmodel k km)
    | Ok km2 =>
    match elementwise (fun z w => (real z * w, imag z)%float) (squares km2)
            (weight (kobs k)) with
    | Raise e => (Raise e, with_kmodel k (squares km2))
    | Ok a =>
    match elementwise (fun z w => (real z, imag z * w)%float) a
            (weight (kobs k)) with
    | Raise e => (Raise e, with_kmodel k a)
    | Ok a0 =>
      (Ok (acc + np_sum (map real (array a0))
           + np_sum (map imag (array a0)))%float,
       with_kmodel k a0)
    end end end end end.
Proof.
  intros self bp acc k.
  unfold calc_s2n_r_kobs, round_slice, mbind, gets, lift, modify, ret.
  destruct (make_model self _) as [gal|e]; [|reflexivity].
  destruct (drawKImage gal (meta_kmodel k)) as [km|e]; [|reflexivity].
  assert (Hsq : forall v : karray,
            with_array
              (with_array v
                 (map (fun z => (real z * real z, imag z)%float) (array v)))
              (map (fun z => (real z, imag z * imag z)%float)
                 (array
                    (with_array v
                       (map (fun z => (real z * real z, imag z)%float)
                          (array v)))))
            = squares v).
  { intros v. unfold squares, with_array. simpl. f_equal.
    rewrite map_map. reflexivity. }
  simpl. destruct (psf (kobs k)) as [p|].
  - destruct (image_op complex_mul km p) as [km2|e]; [|reflexivity].
    simpl. rewrite Hsq.
    destruct (elementwise _ (squares km2) _) as [a|e]; [|reflexivity].
    destruct (elementwise _ a _) as [a0|e]; reflexivity.
  - simpl. rewrite Hsq.
    destruct (elementwise _ (squares km) _) as [a|e]; [|reflexivity].
    destruct (elementwise _ a _) as [a0|e]; reflexivity.
Qed.

(** One epoch adds the weighted power of its round model image, whatever the
    state of the per-band buffer is. *)
Lemma calc_s2n_r_kobs_power : forall self s bp acc k,
  cls s = cls self -> _model_class s = _model_class self ->
  fst (calc_s2n_r_kobs np_sum s bp acc k) = add_power np_sum self bp acc k.
Proof.
  intros self s bp acc k Hc Hm.
  rewrite calc_s2n_r_kobs_unfold.
  unfold add_power, round_image, weighted_power.
  rewrite (make_model_sim G s self (round_slice bp) Hc Hm).
  destruct (make_model self (round_slice bp)) as [gal|e]; [|reflexivity].
  cbn [bind].
  destruct (drawKImage gal (meta_kmodel k)) as [km|e]; [|reflexivity].
  cbn [bind].
  destruct (match psf (kobs k) with
            | Some p => image_op complex_mul km p
            | None => Ok km
            end) as [km2|e]; [|reflexivity].
  cbn [bind].
  pose proof (elementwise_twice (squares km2) (weight (kobs k))) as H.
  destruct (elementwise (fun z w => (real z * w, imag z)%float) (squares km2)
              (weight (kobs k))) as [a|e].
  - destruct H as (a2 & H1 & H2). rewrite H1, H2. reflexivity.
  - rewrite H. reflexivity.
Qed.

(** The epochs of one band, in list order. *)
Lemma calc_s2n_r_kobs_list_power : forall self s bp kl acc,
  cls s = cls self -> _model_class s = _model_class self ->
  fst (for_list (calc_s2n_r_kobs np_sum s bp) acc kl)
  = add_powers np_sum self bp acc kl.
Proof.
  intros self s bp kl. induction kl as [|k kl IH]; intros acc Hc Hm.
  - reflexivity.
  - cbn [for_list add_powers].
    rewrite <- (calc_s2n_r_kobs_power self s bp acc k Hc Hm).
    destruct (calc_s2n_r_kobs np_sum s bp acc k) as [[a|e] k'];
      [|reflexivity].
    cbn [fst bind]. rewrite <- (IH a Hc Hm).
    destruct (for_list (calc_s2n_r_kobs np_sum s bp) a kl); reflexivity.
Qed.

(** The loop of [calc_s2n_r] over the bands [suf] that follow the bands
    [pre], from any state of the per-band buffer and of the model images of
    the bands [pre]. *)
Lemma calc_s2n_r_bands_power : forall self pars suf pre acc s,
  cls s = cls self -> _model_class s = _model_class self ->
  length (_band_pars s) = nshared (cls s) + 1 ->
  mb_kobs s = pre ++ suf ->
  nshared (cls self) + length pre + length suf <= length pars ->
  fst (for_range (length suf) (length pre) (calc_s2n_r_band np_sum pars) acc s)
  = power_of_bands np_sum self pars (length pre) suf acc.
Proof.
  intros self pars. induction suf as [|kl suf IH];
    intros pre acc s Hc Hm Hb Hmb Hlen.
  - reflexivity.
  - cbn [length for_range power_of_bands]. unfold mbind.
    unfold calc_s2n_r_band at 1. unfold mbind.
    rewrite get_band_pars_ok;
      [|exact Hb | rewrite Hc; simpl in Hlen; lia].
    unfold zoom, zoom_nth. simpl mb_kobs. rewrite Hmb.
    rewrite nth_error_app2, Nat.sub_diag by lia. cbn [nth_error].
    rewrite Hc.
    rewrite <- (calc_s2n_r_kobs_list_power self
                  (with_band_pars s (band_slice (cls self) pars (length pre)))
                  (band_slice (cls self) pars (length pre)) kl acc Hc Hm).
    destruct (for_list _ acc kl) as [[a|e] kl1]; [|reflexivity].
    cbn [fst bind]. rewrite replace_at_app.
    pose proof (IH (pre ++ [kl1]) a
                  (with_mb_kobs
                     (with_band_pars s
                        (band_slice (cls self) pars (length pre)))
                     (pre ++ kl1 :: suf))) as H.
    rewrite length_app in H. simpl length in H.
    replace (length pre + 1) with (S (length pre)) in H by lia.
    apply H; simpl; try assumption.
    + rewrite Hc. apply band_slice_length. simpl in Hlen. lia.
    + now rewrite <- app_assoc.
    + simpl in Hlen. lia.
Qed.

End AccumulatedPower.

(** C8: whatever [calc_s2n_r] returns is not below 0; and for a parameter
    vector that has a flux for every band, on a model whose per-band buffer
    has its size, it returns the square root of the accumulated weighted
    model power when that is greater than 0 and 0 otherwise, and raises
    what the accumulation raises. The accumulated power is, over the bands
    and their epochs in order, the sum over the pixels of the squared real
    parts and of the squared imaginary parts of the round model image
    (ellipticity set to zero, rendered, multiplied by the PSF image), each
    multiplied by the weight. *)
Theorem calc_s2n_r_value_and_sign : forall (G : Galsim)
    (np_sum : list float -> float) (pars : list float) (self : Self),
  (forall v self',
     calc_s2n_r np_sum pars self = (Ok v, self') ->
     (0 <=? v)%float = true) /\
  (length (_band_pars self) = nshared (cls self) + 1 ->
   nshared (cls self) + length (mb_kobs self) <= length pars ->
   fst (calc_s2n_r np_sum pars self)
   = (s <- weighted_model_power np_sum self pars ;;
      Ok (if (0 <? s)%float then PrimFloat.sqrt s else 0%float))).
Proof.
  intros G np_sum pars self. split.
  - intros v self'. unfold calc_s2n_r, mbind, ret.
    destruct (calc_s2n_sum np_sum pars self) as [[s|e] s1]; [|discriminate].
    destruct (0 <? s)%float eqn:Hs; intros H; inversion H; subst.
    + now apply sqrt_of_positive_nonneg.
    + reflexivity.
  - intros Hb Hlen.
    pose proof (calc_s2n_r_bands_power np_sum self pars (mb_kobs self) []
                  0%float self eq_refl eq_refl Hb eq_refl) as H.
    simpl length in H. rewrite Nat.add_0_r in H. specialize (H Hlen).
    unfold weighted_model_power. rewrite <- H.
    unfold calc_s2n_r, calc_s2n_sum, mbind, gets, ret.
    destruct (for_range (length (mb_kobs self)) 0
                (calc_s2n_r_band np_sum pars) 0%float self) as [[s|e] s1];
      [|reflexivity].
    cbn [fst bind]. destruct (0 <? s)%float; reflexivity.
Qed.

(** On the Gaussian model of one epoch the weighted power is
    [100 * 100 * 4 + 100 * 100 * 4 + 0 + 100 * 100 * 1 = 90000] and the
    signal-to-noise its square root. *)
Lemma calc_s2n_r_value_and_sign_witness :
  weighted_model_power (G := flat_galsim) left_sum gauss_model gauss_guess
  = Ok 90000%float /\
  fst (calc_s2n_r (G := flat_galsim) left_sum gauss_guess gauss_model)
  = Ok 300%float.
Proof.
  split; [vm_compute; reflexivity|].
  rewrite (proj2 (calc_s2n_r_value_and_sign flat_galsim left_sum gauss_guess
                    gauss_model) eq_refl ltac:(simpl; lia)).
  vm_compute. reflexivity.
Defined.

(* ================================================================== *)
(** * Further properties of the fit models *)

(** ** The inverse errors *)

Lemma ierr_entry_nonneg : forall w : float,
  (0 <=? (if (0 <? w)%float then PrimFloat.sqrt w else 0%float))%float = true.
Proof.
  intros w. destruct (0 <? w)%float eqn:E.
  - now apply sqrt_of_positive_nonneg.
  - reflexivity.
Qed.

(** X1: [_init_model_images] gives every observation an inverse-error map
    with the bounds, the scale and the shape of its weight map whose
    entries are never negative nor NaN: the square root of the weight where
    the weight is greater than 0 and 0 elsewhere (also where the weight is
    NaN); the model and scratch images start as copies of the data image,
    and the data are kept. *)
Theorem init_model_images_ierr : forall (mb : list (list KObservation)),
  Forall2
    (Forall2
       (fun k0 k =>
          kobs k = k0 /\
          meta_kmodel k = kimage k0 /\ meta_scratch k = kimage k0 /\
          same_frame (weight k0) (meta_ierr k) /\
          Forall2
            (fun w e =>
               (0 <=? e)%float = true /\
               ((0 <? w)%float = true -> e = PrimFloat.sqrt w) /\
               ((0 <? w)%float = false -> e = 0%float))
            (array (weight k0)) (array (meta_ierr k))))
    mb (_init_model_images mb).
Proof.
  intros mb. unfold _init_model_images.
  induction mb as [|kl mb IH]; simpl; constructor; [|exact IH].
  clear IH. induction kl as [|k0 kl IH]; simpl; constructor; [|exact IH].
  clear IH.
  split; [reflexivity|]. split; [reflexivity|]. split; [reflexivity|].
  split; [apply with_array_frame, length_map|]. simpl.
  induction (array (weight k0)) as [|w ws IH]; simpl; constructor;
    [|exact IH].
  split; [apply ierr_entry_nonneg|].
  split; intros E; rewrite E; reflexivity.
Qed.

(** ** The constructor *)

(** X2: the base class knows 'exp', 'dev' and 'gauss' only: with any other
    model name, 'spergel' and 'moffat' included, its constructor raises
    [NotImplementedError], whatever the observations, the guess and the
    prior are. *)
Theorem init_unsupported_model : forall (G : Galsim)
    (mb : list (list KObservation)) (name : string) (guess : list float)
    (pr : option Prior),
  ~ In name ["exp"; "dev"; "gauss"]%string ->
  __init__ GalsimFitModel mb name guess pr = Raise NotImplementedError.
Proof.
  intros G mb name guess pr H. unfold __init__, init_setup. simpl.
  destruct (String.eqb_spec name "exp"); [exfalso; apply H; subst; simpl; auto|].
  destruct (String.eqb_spec name "dev"); [exfalso; apply H; subst; simpl; auto|].
  destruct (String.eqb_spec name "gauss");
    [exfalso; apply H; subst; simpl; auto|].
  reflexivity.
Qed.

Lemma init_unsupported_model_witness :
  __init__ (G := flat_galsim) GalsimFitModel two_bands "spergel" spergel_guess
    None = Raise NotImplementedError.
Proof.
  apply (init_unsupported_model flat_galsim two_bands "spergel" spergel_guess
           None).
  simpl. intros [H | [H | [H | []]]]; discriminate.
Defined.

Lemma init_guess_length : forall (G : Galsim) c mb name guess pr self s0,
  __init__ c mb name guess pr = Ok self ->
  init_setup c mb name pr = Ok s0 ->
  Z.of_nat (length guess) = npars s0.
Proof.
  intros G c mb name guess pr self s0 H Hs.
  unfold __init__, _get_guess in H. rewrite Hs in H. cbn [bind] in H.
  destruct (Z.eq_dec (Z.of_nat (length guess)) (npars s0)) as [E|E];
    [exact E|].
  unfold _check_guess, mbind, gets, lift in H.
  replace (Z.of_nat (length guess) =? npars s0)%Z with false in H
    by (symmetry; now apply Z.eqb_neq).
  discriminate.
Qed.

(** X3: a model the constructor returns has the class and the prior it was
    given and the name of its class; its parameter count is the registry's
    for that name and its number of bands, which is the number of shared
    parameters plus the number of bands; the guess had that many entries;
    the per-band buffer has [npars - nband + 1] entries; and, when every
    weight map has the shape and the size of its image, the buffers of
    every observation have the shape and the size of its data image. *)
Theorem init_postconditions : forall (G : Galsim) (c : fit_class)
    (mb : list (list KObservation)) (name : string) (guess : list float)
    (pr : option Prior) (self : Self),
  __init__ c mb name guess pr = Ok self ->
  cls self = c /\ model self = model_of c name /\ prior self = pr /\
  nband self = length mb /\
  get_galsim_npars (model self) (Z.of_nat (nband self)) = Ok (npars self) /\
  npars self = Z.of_nat (nshared c + nband self) /\
  Z.of_nat (length guess) = npars self /\
  Z.of_nat (length (_band_pars self))
  = (npars self - Z.of_nat (nband self) + 1)%Z /\
  (Forall (Forall (fun k => same_grid (weight k) (kimage k))) mb ->
   wf self).
Proof.
  intros G c mb name guess pr self H.
  pose proof (init_wf G c mb name guess pr self H) as Hwf.
  destruct (init_inv _ _ _ _ _ _ _ H) as (s0 & p & Hs & -> & Hp).
  pose proof (init_guess_length G _ _ _ _ _ _ _ H Hs) as Hlen.
  destruct (init_setup_inv _ _ _ _ _ Hs)
    as (Hc & Hpr & Hnb & _ & _ & _ & _ & Hnp & _).
  assert (Hm : model s0 = model_of c name /\
               get_galsim_npars (model s0) (Z.of_nat (length mb))
               = Ok (npars s0)).
  { clear - Hs. unfold init_setup in Hs.
    destruct (_set_model_class c (model_of c name)); [|discriminate].
    cbn [bind] in Hs. unfold _set_band_pars in Hs.
    destruct (get_galsim_npars (model_of c name) (Z.of_nat (length mb)))
      as [np|] eqn:E; [|discriminate].
    cbn [bind] in Hs. destruct (_ <? 0)%Z; [discriminate|].
    inversion Hs; subst. simpl. split; [reflexivity | exact E]. }
  destruct Hm as [Hm1 Hm2].
  simpl. rewrite Hnb.
  split; [exact Hc|]. split; [exact Hm1|]. split; [exact Hpr|].
  split; [reflexivity|]. split; [exact Hm2|]. split; [exact Hnp|].
  split; [exact Hlen|]. split; [rewrite Hp, Hnp; lia | exact Hwf].
Qed.

Lemma init_postconditions_witness :
  cls spergel_model = GalsimSpergelFitModel /\
  model spergel_model = "spergel"%string /\
  prior spergel_model = Some (unit_prior 7) /\
  nband spergel_model = 2 /\
  get_galsim_npars (model spergel_model) (Z.of_nat (nband spergel_model))
  = Ok (npars spergel_model) /\
  npars spergel_model = 8%Z /\
  Z.of_nat (length spergel_guess) = npars spergel_model /\
  Z.of_nat (length (_band_pars spergel_model)) = 7%Z /\
  (Forall (Forall (fun k => same_grid (weight k) (kimage k))) two_bands ->
   wf spergel_model).
Proof.
  apply (init_postconditions flat_galsim GalsimSpergelFitModel two_bands ""
           spergel_guess (Some (unit_prior 7)) spergel_model).
  vm_compute. reflexivity.
Defined.

(** ** The per-band buffer at the bounds *)

Lemma set_slice_shared : forall k (buf pars : list float),
  length buf = k + 1 -> k <= length pars ->
  set_slice buf 0 k (get_slice pars 0 k)
  = Ok (firstn k pars ++ skipn k buf).
Proof.
  intros k buf pars Hb Hp. unfold set_slice, slice_len, get_slice.
  rewrite Hb, Nat.sub_0_r. simpl skipn at 1. rewrite length_firstn.
  replace (Nat.min k (length pars)) with k by lia.
  replace (Nat.min k (k + 1) - Nat.min 0 (k + 1)) with k by lia.
  rewrite Nat.eqb_refl. reflexivity.
Qed.

(** X4: [get_band_pars] for a band whose flux the parameter vector does not
    have raises [IndexError], and by then it has overwritten the shared
    entries of the buffer: the buffer is left with the shared parameters of
    the vector followed by the flux that was there before. *)
Theorem get_band_pars_out_of_range : forall (self : Self) (pars : list float)
    (band : nat),
  length (_band_pars self) = nshared (cls self) + 1 ->
  nshared (cls self) <= length pars ->
  length pars <= nshared (cls self) + band ->
  get_band_pars pars band self
  = (Raise IndexError,
     with_band_pars self
       (firstn (nshared (cls self)) pars
        ++ skipn (nshared (cls self)) (_band_pars self))).
Proof.
  intros self pars band Hb Hlo Hhi.
  assert (H : forall k, length (_band_pars self) = k + 1 ->
            k <= length pars -> length pars <= k + band ->
            get_band_pars_at k pars band self
            = (Raise IndexError,
               with_band_pars self
                 (firstn k pars ++ skipn k (_band_pars self)))).
  { intros k Hk Hl Hh.
    unfold get_band_pars_at, mbind, gets, lift, modify, ret.
    rewrite set_slice_shared by assumption.
    unfold get_item.
    rewrite (proj2 (nth_error_None pars (k + band)) Hh). reflexivity. }
  unfold get_band_pars. destruct (cls self); simpl in *; now apply H.
Qed.

Lemma get_band_pars_out_of_range_witness :
  get_band_pars spergel_guess 2 spergel_model
  = (Raise IndexError,
     with_band_pars spergel_model
       (firstn 6 spergel_guess ++ skipn 6 (_band_pars spergel_model))).
Proof.
  apply (get_band_pars_out_of_range spergel_model spergel_guess 2).
  - reflexivity.
  - simpl. lia.
  - simpl. lia.
Defined.

(** ** Parameter vectors that are too short *)

Lemma get_band_pars_at_short : forall k pars band self,
  length (_band_pars self) = k + 1 -> length pars <= k ->
  fst (get_band_pars_at k pars band self)
  = Raise (if (length pars =? k) || (length pars =? 1)
           then IndexError else ValueError).
Proof.
  intros k pars band self Hb Hp.
  assert (Hi : get_item pars (k + band) = Raise IndexError).
  { unfold get_item.
    rewrite (proj2 (nth_error_None pars (k + band))) by lia. reflexivity. }
  unfold get_band_pars_at, mbind, gets, lift, modify, ret.
  rewrite Hi. cbn [bind].
  destruct (Nat.eqb_spec (length pars) k) as [E|E].
  - rewrite set_slice_shared by lia. reflexivity.
  - unfold set_slice, slice_len, get_slice.
    rewrite Hb, Nat.sub_0_r. change (skipn 0 pars) with pars.
    rewrite firstn_all2 by lia.
    replace (Nat.min k (k + 1) - Nat.min 0 (k + 1)) with k by lia.
    replace (length pars =? k) with false by (symmetry; now apply Nat.eqb_neq).
    destruct pars as [|x [|y pars]]; reflexivity.
Qed.

(** X5: a parameter vector without a flux entry (no more entries than the
    shared parameters) is not answered with the sentinel: on a model with
    at least one band [calc_fdiff] raises, an [IndexError] when the vector
    has exactly the shared parameters or a single entry and numpy's
    broadcast [ValueError] otherwise. *)
Theorem calc_fdiff_short_pars : forall (G : Galsim) (LOWVAL : float)
    (self : Self) (pars : list float),
  length (_band_pars self) = nshared (cls self) + 1 ->
  mb_kobs self <> [] ->
  length pars <= nshared (cls self) ->
  fst (calc_fdiff LOWVAL pars self)
  = Raise (if (length pars =? nshared (cls self)) || (length pars =? 1)
           then IndexError else ValueError).
Proof.
  intros G LOWVAL self pars Hb Hmb Hp.
  assert (Hg : fst (get_band_pars pars 0 self)
               = Raise (if (length pars =? nshared (cls self))
                           || (length pars =? 1)
                        then IndexError else ValueError)).
  { unfold get_band_pars.
    destruct (cls self); simpl in *; now apply get_band_pars_at_short. }
  set (e := if (length pars =? nshared (cls self)) || (length pars =? 1)
            then IndexError else ValueError) in *.
  assert (He : isinstance_RuntimeError e = false
               /\ isinstance_GMixRangeError e = false)
    by (subst e; destruct (_ || _); split; reflexivity).
  destruct He as [He1 He2].
  assert (Hf : fst (_fill_models pars self) = Raise e).
  { unfold _fill_models, except_as_range, mbind, gets.
    destruct (mb_kobs self) as [|kl rest]; [congruence|].
    simpl length. simpl for_range. unfold mbind, _fill_models_band, mbind.
    destruct (get_band_pars pars 0 self) as [r s1]. simpl in Hg. subst r.
    simpl. now rewrite He1. }
  unfold calc_fdiff, calc_fdiff_try, mbind.
  destruct (_fill_models pars self) as [r s1]. simpl in Hf. subst r.
  now rewrite He2.
Qed.

Lemma calc_fdiff_short_pars_witness :
  fst (calc_fdiff (G := flat_galsim) LOWVAL0 [0; 0; 0]%float gauss_model)
  = Raise ValueError.
Proof.
  apply (calc_fdiff_short_pars flat_galsim LOWVAL0 gauss_model
           [0; 0; 0]%float).
  - reflexivity.
  - discriminate.
  - simpl. lia.
Defined.

(** ** The round signal-to-noise *)

(** The round parameters of a band: the ellipticity entries of the slice are
    replaced by 0, the others are kept. *)
Lemma round_pars_agree : forall c (pars pars' : list float) b,
  firstn 2 pars = firstn 2 pars' ->
  skipn 4 pars = skipn 4 pars' ->
  nshared c + b < length pars ->
  fill_slice (band_slice c pars' b) 2 (2 + 2) 0%float
  = fill_slice (band_slice c pars b) 2 (2 + 2) 0%float.
Proof.
  intros c pars pars' b H2 H4 Hlen.
  assert (Hk : 5 <= nshared c) by (destruct c; simpl; lia).
  destruct pars as [|p0 [|p1 [|p2 [|p3 rest]]]]; simpl in Hlen; try lia.
  destruct pars' as [|q0 [|q1 [|q2 [|q3 rest']]]]; simpl in H2, H4;
    try discriminate; try (subst; simpl in Hlen; lia).
  inversion H2; subst. destruct c; reflexivity.
Qed.

Lemma round_pars_r50 : forall c (pars : list float) b,
  nshared c + b < length pars ->
  nth_error (fill_slice (band_slice c pars b) 2 (2 + 2) 0%float) 4
  = nth_error pars 4 /\
  nth_error (fill_slice (band_slice c pars b) 2 (2 + 2) 0%float) 5
  = nth_error (band_slice c pars b) 5.
Proof.
  intros c pars b Hlen.
  assert (Hk : 5 <= nshared c) by (destruct c; simpl; lia).
  destruct pars as [|p0 [|p1 [|p2 [|p3 [|p4 rest]]]]]; simpl in Hlen;
    try lia.
  destruct c; split; reflexivity.
Qed.

Section RoundS2N.

Context {G : Galsim}.
Variable np_sum : list float -> float.

Lemma calc_s2n_r_kobs_ext : forall s s' bp bp' acc k,
  make_model s = make_model s' ->
  fill_slice bp' 2 (2 + 2) 0%float = fill_slice bp 2 (2 + 2) 0%float ->
  calc_s2n_r_kobs np_sum s' bp' acc k = calc_s2n_r_kobs np_sum s bp acc k.
Proof.
  intros s s' bp bp' acc k Hm Hf. unfold calc_s2n_r_kobs.
  now rewrite Hf, Hm.
Qed.

(** One band of [calc_s2n_r] on a buffer of the right size. *)
Lemma calc_s2n_r_band_ok : forall pars b acc self,
  length (_band_pars self) = nshared (cls self) + 1 ->
  nshared (cls self) + b < length pars ->
  calc_s2n_r_band np_sum pars b acc self
  = (let bp := band_slice (cls self) pars b in
     let (r, t) :=
       zoom_nth b (for_list (calc_s2n_r_kobs np_sum self bp) acc)
         (mb_kobs self) in
     (r, with_mb_kobs (with_band_pars self bp) t)).
Proof.
  intros pars b acc self Hb Hp. unfold calc_s2n_r_band, mbind.
  rewrite get_band_pars_ok by assumption. unfold zoom. simpl mb_kobs.
  unfold zoom_nth. destruct (nth_error (mb_kobs self) b) as [kl|];
    [|reflexivity].
  rewrite (for_list_ext
             (calc_s2n_r_kobs np_sum
                (with_band_pars self (band_slice (cls self) pars b))
                (band_slice (cls self) pars b))
             (calc_s2n_r_kobs np_sum self (band_slice (cls self) pars b)));
    [reflexivity|].
  intros a x. now apply calc_s2n_r_kobs_ext.
Qed.

(** The loops of [calc_s2n_r] on two parameter vectors that differ in the
    ellipticity entries only, and from two states that differ in the
    per-band buffer only. *)
Lemma calc_s2n_sum_loop_round : forall pars pars' n b acc self p,
  firstn 2 pars = firstn 2 pars' ->
  skipn 4 pars = skipn 4 pars' ->
  length pars = length pars' ->
  length (_band_pars self) = nshared (cls self) + 1 ->
  length p = nshared (cls self) + 1 ->
  nshared (cls self) + b + n <= length pars ->
  fst (for_range n b (calc_s2n_r_band np_sum pars') acc
         (with_band_pars self p))
  = fst (for_range n b (calc_s2n_r_band np_sum pars) acc self).
Proof.
  intros pars pars' n. induction n as [|n IH];
    intros b acc self p H2 H4 Hl Hb Hp Hn.
  - reflexivity.
  - cbn [for_range]. unfold mbind.
    rewrite !calc_s2n_r_band_ok; try assumption; try (simpl; lia).
    simpl cls. simpl mb_kobs. cbv zeta.
    assert (He : zoom_nth b
                   (for_list
                      (calc_s2n_r_kobs np_sum (with_band_pars self p)
                         (band_slice (cls self) pars' b)) acc)
                   (mb_kobs self)
                 = zoom_nth b
                     (for_list
                        (calc_s2n_r_kobs np_sum self
                           (band_slice (cls self) pars b)) acc)
                     (mb_kobs self)).
    { unfold zoom_nth. destruct (nth_error (mb_kobs self) b) as [kl|];
        [|reflexivity].
      rewrite (for_list_ext
                 (calc_s2n_r_kobs np_sum (with_band_pars self p)
                    (band_slice (cls self) pars' b))
                 (calc_s2n_r_kobs np_sum self
                    (band_slice (cls self) pars b))); [reflexivity|].
      intros a x. apply calc_s2n_r_kobs_ext; [reflexivity|].
      apply round_pars_agree; assumption || lia. }
    rewrite He. clear He.
    destruct (zoom_nth b
                (for_list
                   (calc_s2n_r_kobs np_sum self
                      (band_slice (cls self) pars b)) acc)
                (mb_kobs self)) as [[a|e] t]; [|reflexivity].
    apply (IH (S b) a
             (with_mb_kobs (with_band_pars self
                              (band_slice (cls self) pars b)) t)
             (band_slice (cls self) pars' b)); try assumption.
    + simpl. apply band_slice_length. lia.
    + simpl. apply band_slice_length. lia.
    + simpl. lia.
Qed.

End RoundS2N.

(** X6: the round signal-to-noise does not depend on the ellipticity: two
    parameter vectors that differ in the entries 2 and 3 only ([e1] and
    [e2]) give the same result of [calc_s2n_r], value or exception alike,
    on a model whose buffer has its size and for vectors that have a flux
    for every band. *)
Theorem calc_s2n_r_ignores_ellipticity : forall (G : Galsim)
    (np_sum : list float -> float) (self : Self) (pars pars' : list float),
  length (_band_pars self) = nshared (cls self) + 1 ->
  nshared (cls self) + length (mb_kobs self) <= length pars ->
  length pars = length pars' ->
  firstn 2 pars = firstn 2 pars' ->
  skipn 4 pars = skipn 4 pars' ->
  fst (calc_s2n_r np_sum pars' self) = fst (calc_s2n_r np_sum pars self).
Proof.
  intros G np_sum self pars pars' Hb Hn Hl H2 H4.
  pose proof (calc_s2n_sum_loop_round np_sum pars pars'
                (length (mb_kobs self)) 0 0%float self (_band_pars self)
                H2 H4 Hl Hb Hb ltac:(lia)) as H.
  rewrite with_band_pars_same in H.
  unfold calc_s2n_r, calc_s2n_sum, mbind, gets.
  destruct (for_range _ 0 (calc_s2n_r_band np_sum pars') _ self)
    as [[a'|e'] t'],
    (for_range _ 0 (calc_s2n_r_band np_sum pars) _ self) as [[a|e] t];
    simpl in H; try discriminate; inversion H; subst.
  - destruct (0 <? a)%float; reflexivity.
  - reflexivity.
Qed.

Lemma calc_s2n_r_ignores_ellipticity_witness :
  fst (calc_s2n_r (G := flat_galsim) left_sum
         [0; 0; 0.5; -0.25; 0.3; 0.5; 10; 20]%float spergel_model)
  = fst (calc_s2n_r (G := flat_galsim) left_sum spergel_guess spergel_model).
Proof.
  apply (calc_s2n_r_ignores_ellipticity flat_galsim left_sum spergel_model
           spergel_guess [0; 0; 0.5; -0.25; 0.3; 0.5; 10; 20]%float);
    reflexivity || (simpl; lia).
Defined.

(** X7: [calc_s2n_r] does not catch the invalid-model-parameters failure:
    on a Gaussian, exponential or de Vaucouleurs model with an epoch in its
    first band, a size below the threshold makes it raise [GMixRangeError]
    where [calc_fdiff] answers with the sentinel. *)
Theorem calc_s2n_r_low_r50_raises : forall (G : Galsim)
    (np_sum : list float -> float) (LOWVAL : float) (self : Self)
    (pars : list float) k kl rest r50,
  cls self = GalsimFitModel ->
  length (_band_pars self) = 6 ->
  mb_kobs self = (k :: kl) :: rest ->
  5 < length pars ->
  nth_error pars 4 = Some r50 ->
  (r50 <? 0.0001)%float = true ->
  fst (calc_s2n_r np_sum pars self) = Raise GMixRangeError /\
  fst (calc_fdiff LOWVAL pars self) = Ok (repeat LOWVAL (fdiff_size self)).
Proof.
  intros G np_sum LOWVAL self pars k kl rest r50 Hc Hbuf Hmb Hlen H4 Hlow.
  split; [|now apply (calc_fdiff_low_r50 G LOWVAL self pars k kl rest r50)].
  assert (Hp : nshared (cls self) + 0 < length pars)
    by (rewrite Hc; simpl; lia).
  destruct (round_pars_r50 (cls self) pars 0 Hp) as [R4 R5].
  assert (Hm : make_model self
                 (fill_slice (band_slice (cls self) pars 0) 2 (2 + 2) 0%float)
               = Raise GMixRangeError).
  { unfold make_model.
    rewrite (make_round_model_base_low_r50 G self _ r50 (nth 5 pars 0%float));
      try assumption; try reflexivity.
    - now rewrite R4.
    - rewrite R5, Hc. unfold band_slice. simpl nshared.
      rewrite nth_error_app2 by (rewrite length_firstn; lia).
      rewrite length_firstn.
      replace (5 - Nat.min 5 (length pars)) with 0 by lia. reflexivity. }
  unfold calc_s2n_r, calc_s2n_sum, mbind, gets.
  rewrite Hmb. simpl length. cbn [for_range]. unfold mbind.
  rewrite calc_s2n_r_band_ok by (rewrite ?Hc; simpl; lia).
  cbv zeta. unfold zoom_nth. rewrite Hmb. cbn [nth_error for_list].
  unfold calc_s2n_r_kobs at 1. unfold mbind at 1, lift at 1.
  rewrite Hm. reflexivity.
Qed.

Lemma calc_s2n_r_low_r50_raises_witness :
  fst (calc_s2n_r (G := flat_galsim) left_sum
         [0; 0; 0; 0; 0.00001; 100]%float gauss_model)
  = Raise GMixRangeError /\
  fst (calc_fdiff (G := flat_galsim) LOWVAL0
         [0; 0; 0; 0; 0.00001; 100]%float gauss_model)
  = Ok (repeat LOWVAL0 (fdiff_size gauss_model)).
Proof.
  apply (calc_s2n_r_low_r50_raises flat_galsim left_sum LOWVAL0 gauss_model
           [0; 0; 0; 0; 0.00001; 100]%float
           (init_kobs kobs4) [] [] 0.00001%float);
    reflexivity || (simpl; lia).
Defined.

(** ** What the calls leave of a model *)

Lemma for_list_state_on : forall {X Acc : Type} (P : X -> Prop)
    (RX : X -> X -> Prop) (body : Acc -> M X Acc),
  (forall x, RX x x) ->
  (forall acc x, P x -> RX x (snd (body acc x))) ->
  forall l acc, Forall P l -> Forall2 RX l (snd (for_list body acc l)).
Proof.
  intros X Acc P RX body Hrefl Hbody. induction l as [|x l IH];
    intros acc HP; simpl; [constructor|].
  inversion HP as [|? ? Hx Hl]; subst.
  pose proof (Hbody acc x Hx) as Hb.
  destruct (body acc x) as [[a|e] y]; simpl in *.
  - specialize (IH a Hl). destruct (for_list body a l) as [r l']; simpl in *.
    constructor; assumption.
  - constructor; [assumption|].
    clear - Hrefl. induction l; constructor; auto.
Qed.

Lemma zoom_nth_state_on : forall {X A : Type} (P : X -> Prop)
    (RX : X -> X -> Prop) (i : nat) (m : M X A),
  (forall x, RX x x) ->
  (forall x, P x -> RX x (snd (m x))) ->
  forall l, Forall P l -> Forall2 RX l (snd (zoom_nth i m l)).
Proof.
  intros X A P RX i m Hrefl Hm l HP. unfold zoom_nth.
  assert (Hl : Forall2 RX l l) by (clear - Hrefl; induction l; constructor; auto).
  destruct (nth_error l i) as [x|] eqn:E; [|exact Hl].
  assert (Hx : P x).
  { apply nth_error_In in E. rewrite Forall_forall in HP. auto. }
  specialize (Hm x Hx). destruct (m x) as [r y]; simpl in *.
  eapply Forall2_replace_at_self; eauto.
Qed.

Lemma kobs_sim_refl : forall k, kobs_sim k k.
Proof. intros k. unfold kobs_sim. frames. Qed.

Section KeepsModel.

Context {G : Galsim}.

Lemma squares_frame : forall km, same_frame km (squares km).
Proof.
  intros km. unfold squares. apply with_array_frame. apply length_map.
Qed.

(** One epoch of [calc_s2n_r] keeps the data and, on an image that
    [drawKImage] leaves in its frame, the frames of the buffers. *)
Lemma calc_s2n_r_kobs_state : forall np_sum self bp acc k,
  settled G (meta_kmodel k) ->
  kobs_sim k (snd (calc_s2n_r_kobs np_sum self bp acc k)).
Proof.
  intros np_sum self bp acc k Hset.
  assert (Hkm : forall v, same_frame (meta_kmodel k) v ->
            kobs_sim k (with_kmodel k v)).
  { intros v Hv. unfold kobs_sim. frames. }
  rewrite calc_s2n_r_kobs_unfold.
  destruct (make_model self _) as [gal|e]; [|apply kobs_sim_refl].
  destruct (drawKImage gal (meta_kmodel k)) as [km|e] eqn:Ed;
    [|apply kobs_sim_refl].
  apply (Hset gal _ _ (same_frame_refl _)) in Ed.
  assert (Hrest : forall km2, same_frame (meta_kmodel k) km2 ->
     kobs_sim k
       (snd
          (match
             elementwise (fun z w => (real z * w, imag z)%float) (squares km2)
               (weight (kobs k))
           with
           | Ok a =>
             match
               elementwise (fun z w => (real z, imag z * w)%float) a
                 (weight (kobs k))
             with
             | Ok a0 =>
               (Ok (acc + np_sum (map real (array a0))
                    + np_sum (map imag (array a0)))%float,
                with_kmodel k a0)
             | Raise e => (Raise e, with_kmodel k a)
             end
           | Raise e => (Raise e, with_kmodel k (squares km2))
           end))).
  { intros km2 F2.
    pose proof (same_frame_trans _ _ _ F2 (squares_frame km2)) as F3.
    destruct (elementwise _ (squares km2) _) as [a|e] eqn:E1.
    - apply elementwise_frame in E1.
      pose proof (same_frame_trans _ _ _ F3 E1) as F4.
      destruct (elementwise _ a _) as [a0|e] eqn:E2; simpl.
      + apply elementwise_frame in E2. apply Hkm.
        exact (same_frame_trans _ _ _ F4 E2).
      + now apply Hkm.
    - simpl. now apply Hkm. }
  destruct (psf (kobs k)) as [p|].
  - destruct (image_op complex_mul km p) as [km2|e] eqn:Ei.
    + apply image_op_frame in Ei. apply Hrest.
      exact (same_frame_trans _ _ _ Ed Ei).
    + simpl. now apply Hkm.
  - now apply Hrest.
Qed.

Lemma sim_trans : forall a b c, sim a b -> sim b c -> sim a c.
Proof. exact (proj2 per_sim). Qed.

Lemma Forall2_refl : forall {X : Type} (R : X -> X -> Prop),
  (forall x, R x x) -> forall l, Forall2 R l l.
Proof. intros X R H l. induction l; constructor; auto. Qed.

(** Being left in its frame is a property of the frame of an image. *)
Lemma settled_sim : forall mb mb1,
  Forall2 (Forall2 kobs_sim) mb mb1 ->
  Forall (Forall (fun k => settled G (meta_kmodel k))) mb ->
  Forall (Forall (fun k => settled G (meta_kmodel k))) mb1.
Proof.
  intros mb mb1 H. induction H as [|kl kl1 mb mb1 Hkl Hmb IH]; intros Hs;
    inversion Hs as [|? ? H1 H2]; subst; constructor; auto.
  clear - Hkl H1. induction Hkl as [|k k1 kl kl1 Hk Hkl IH];
    inversion H1 as [|? ? Hk1 Hkl1]; subst; constructor; auto.
  destruct Hk as (_ & _ & Hm & _).
  intros g im1 im' F E. apply (Hk1 g im1 im'); [|exact E].
  exact (same_frame_trans _ _ _ Hm F).
Qed.

(** [calc_s2n_r] changes the contents of the buffers only, when
    [drawKImage] leaves the model images in their frames. *)
Lemma calc_s2n_r_state : forall np_sum pars self,
  Forall (Forall (fun k => settled G (meta_kmodel k))) (mb_kobs self) ->
  length (_band_pars self) = nshared (cls self) + 1 ->
  sim self (snd (calc_s2n_r np_sum pars self)).
Proof.
  intros np_sum pars self Hset Hbuf.
  pose proof (sim_refl self Hbuf) as Hrefl.
  assert (Hsum : sim self (snd (calc_s2n_sum np_sum pars self))).
  { unfold calc_s2n_sum, mbind, gets.
    apply (for_range_state (sim self)); [|exact Hrefl].
    intros i acc s Hs. unfold calc_s2n_r_band, mbind.
    assert (Hss : sim s s)
      by (eapply per_refl_l; [apply per_sim | apply (proj1 per_sim), Hs]).
    assert (Hset1 : Forall (Forall (fun k => settled G (meta_kmodel k)))
                      (mb_kobs s)).
    { apply (settled_sim (mb_kobs self)); [|exact Hset].
      destruct Hs as (_ & _ & _ & _ & _ & _ & _ & _ & Hmb). exact Hmb. }
    destruct (get_band_pars_sim pars i s s Hss)
      as (_ & p1 & _ & E1 & _ & L1 & _).
    destruct (get_band_pars pars i s) as [[bp|e] s1]; simpl in *; subst s1.
    - unfold zoom. simpl mb_kobs.
      pose proof (zoom_nth_state_on
                    (Forall (fun k => settled G (meta_kmodel k)))
                    (Forall2 kobs_sim) i
                    (for_list
                       (calc_s2n_r_kobs np_sum (with_band_pars s p1) bp) acc)
                    (Forall2_refl kobs_sim kobs_sim_refl)
                    (fun l Hl =>
                       for_list_state_on
                         (fun k => settled G (meta_kmodel k)) kobs_sim
                         (calc_s2n_r_kobs np_sum (with_band_pars s p1) bp)
                         kobs_sim_refl
                         (fun a x Hx =>
                            calc_s2n_r_kobs_state np_sum
                              (with_band_pars s p1) bp a x Hx)
                         l acc Hl)
                    (mb_kobs s) Hset1) as Hz.
      destruct (zoom_nth i _ (mb_kobs s)) as [r t]. simpl in *.
      eapply sim_trans; [exact Hs|].
      now apply (sim_update s s).
    - eapply sim_trans; [exact Hs|].
      rewrite <- (with_mb_kobs_same (with_band_pars s p1)).
      apply (sim_update s s); try assumption.
      destruct Hss as (_ & _ & _ & _ & _ & _ & _ & _ & Hmb). exact Hmb. }
  unfold calc_s2n_r, mbind.
  destruct (calc_s2n_sum np_sum pars self) as [[a|e] s1]; simpl in *.
  - destruct (0 <? a)%float; exact Hsum.
  - exact Hsum.
Qed.

End KeepsModel.

(** The small renderer has nothing to move in an image that is centred. *)
Lemma flat_galsim_settled : forall im : karray,
  recentred (bounds im) = bounds im -> settled flat_galsim im.
Proof.
  intros im Hc g im1 im' F H. simpl in H. inversion H; subst.
  unfold same_frame, same_grid. simpl.
  replace (bounds im1) with (bounds im) by frames.
  rewrite Hc, length_map. auto.
Qed.

(** X8: with a renderer that draws in place, [calc_fdiff] changes nothing of
    a model but the contents of its buffers: class, prior, sizes, data
    images, weights, PSF images and inverse errors are what they were, the
    buffers keep their sizes, and the model the call leaves is again one
    [calc_fdiff] can be called on. *)
Theorem calc_fdiff_keeps_model : forall (G : Galsim) (LOWVAL : float)
    (self : Self) (pars : list float),
  draws_in_place G -> wf self ->
  sim self (snd (calc_fdiff LOWVAL pars self)) /\
  map (map kobs) (mb_kobs (snd (calc_fdiff LOWVAL pars self)))
  = map (map kobs) (mb_kobs self) /\
  map (map meta_ierr) (mb_kobs (snd (calc_fdiff LOWVAL pars self)))
  = map (map meta_ierr) (mb_kobs self) /\
  wf (snd (calc_fdiff LOWVAL pars self)).
Proof.
  intros G LOWVAL self pars HG (Wn & Wf & Wt & Wb & Wk).
  destruct (calc_fdiff_sim HG LOWVAL pars self self (sim_refl self Wb))
    as [_ Hsim].
  pose proof (calc_fdiff_keeps
                (fun s => n_prior_pars s = n_prior_pars self /\
                          totpix s = totpix self)
                (fun s p H => H) (fun s mb H => H) LOWVAL pars self
                (conj eq_refl eq_refl)) as [Hn Ht].
  set (s1 := snd (calc_fdiff LOWVAL pars self)) in *.
  pose proof Hsim as (_ & _ & _ & Hnb & Hfs & _ & _ & Hb1 & Hmb).
  assert (Hdata : forall mb mb1, Forall2 (Forall2 kobs_sim) mb mb1 ->
            map (map kobs) mb1 = map (map kobs) mb /\
            map (map meta_ierr) mb1 = map (map meta_ierr) mb).
  { clear. intros mb mb1 H.
    induction H as [|kl kl1 mb mb1 Hkl Hmb [IH1 IH2]]; simpl;
      [split; reflexivity|].
    rewrite IH1, IH2.
    assert (Hk : map kobs kl1 = map kobs kl /\
                 map meta_ierr kl1 = map meta_ierr kl).
    { clear - Hkl. induction Hkl as [|k k1 kl kl1 Hk Hkl [IH1 IH2]]; simpl;
        [split; reflexivity|].
      destruct Hk as (H1 & H2 & _). rewrite IH1, IH2, H1, H2.
      split; reflexivity. }
    destruct Hk as [-> ->]. split; reflexivity. }
  destruct (Hdata _ _ Hmb) as [Hk Hi].
  split; [exact Hsim|]. split; [exact Hk|]. split; [exact Hi|].
  unfold wf. rewrite Hn, Ht, <- Hfs, <- Hnb, Hk, <- Wt.
  split; [rewrite Wn; exact (Forall2_length Hmb)|].
  split; [exact Wf|]. split; [reflexivity|]. split; [exact Hb1|].
  eapply mb_kobs_wf_sim; eauto.
Qed.

Lemma calc_fdiff_keeps_model_witness :
  sim spergel_model
    (snd (calc_fdiff (G := flat_galsim) LOWVAL0 spergel_guess spergel_model))
  /\
  map (map kobs)
    (mb_kobs
       (snd (calc_fdiff (G := flat_galsim) LOWVAL0 spergel_guess
               spergel_model)))
  = map (map kobs) (mb_kobs spergel_model) /\
  map (map meta_ierr)
    (mb_kobs
       (snd (calc_fdiff (G := flat_galsim) LOWVAL0 spergel_guess
               spergel_model)))
  = map (map meta_ierr) (mb_kobs spergel_model) /\
  wf (snd (calc_fdiff (G := flat_galsim) LOWVAL0 spergel_guess
             spergel_model)).
Proof.
  exact (calc_fdiff_keeps_model flat_galsim LOWVAL0 spergel_model
           spergel_guess flat_galsim_in_place spergel_model_wf).
Defined.

(** X9: the signal-to-noise computation overwrites the model images the
    residuals are computed from, and its draw method may move the image it
    draws into. When the model images of the object are such that
    [drawKImage] has nothing to move or to rescale in them (as in images
    that are centred already), a call of [calc_s2n_r], with any parameters,
    before a call of [calc_fdiff] does not change what [calc_fdiff]
    returns, the renderer drawing in place. *)
Theorem calc_fdiff_after_calc_s2n_r : forall (G : Galsim) (LOWVAL : float)
    (np_sum : list float -> float) (self : Self) (pars pars' : list float),
  draws_in_place G ->
  Forall (Forall (fun k => settled G (meta_kmodel k))) (mb_kobs self) ->
  length (_band_pars self) = nshared (cls self) + 1 ->
  fst (calc_fdiff LOWVAL pars (snd (calc_s2n_r np_sum pars' self)))
  = fst (calc_fdiff LOWVAL pars self).
Proof.
  intros G LOWVAL np_sum self pars pars' HG Hset Hbuf. symmetry.
  apply (calc_fdiff_sim HG LOWVAL pars self).
  now apply calc_s2n_r_state.
Qed.

Lemma calc_fdiff_after_calc_s2n_r_witness :
  fst (calc_fdiff (G := flat_galsim) LOWVAL0 spergel_guess
         (snd (calc_s2n_r (G := flat_galsim) left_sum
                 [0; 0; 0; 0; 0.7; 0.5; 3; 4]%float spergel_model)))
  = fst (calc_fdiff (G := flat_galsim) LOWVAL0 spergel_guess spergel_model).
Proof.
  apply (calc_fdiff_after_calc_s2n_r flat_galsim LOWVAL0 left_sum
           spergel_model spergel_guess [0; 0; 0; 0; 0.7; 0.5; 3; 4]%float
           flat_galsim_in_place).
  - repeat (apply Forall_nil || apply Forall_cons);
      apply flat_galsim_settled; reflexivity.
  - reflexivity.
Defined.

(** Where [drawKImage] does move the image the two calls do not commute: a
    profile with all its power at [k = 0], drawn into an image of two
    pixels whose bounds do not hold the origin, leaves no power in it;
    after [calc_s2n_r] has recentred the image, the same call of
    [calc_fdiff] finds the profile's flux in its last pixel. *)
Example calc_s2n_r_moves_the_image :
  fst (calc_fdiff (G := point_galsim) LOWVAL0 gauss_guess off_centre_model)
  = Ok [-1; 0; -1; -2]%float /\
  fst (calc_fdiff (G := point_galsim) LOWVAL0 gauss_guess
         (snd (calc_s2n_r (G := point_galsim) left_sum gauss_guess
                 off_centre_model)))
  = Ok [-1; 100; -1; -2]%float.
Proof. split; vm_compute; reflexivity. Qed.

(** ** What [_fill_models] leaves in the model images *)

Section Filled.

Context {G : Galsim}.

(** A call of [get_band_pars] that returns had the band's flux to read. *)
Lemma get_band_pars_ok_inv : forall pars band self bp,
  length (_band_pars self) = nshared (cls self) + 1 ->
  fst (get_band_pars pars band self) = Ok bp ->
  nshared (cls self) + band < length pars.
Proof.
  intros pars band self bp Hb H.
  destruct (Nat.ltb_spec (nshared (cls self) + band) (length pars))
    as [Hlt|Hge]; [exact Hlt|].
  exfalso. revert H. unfold get_band_pars.
  assert (Hk : forall k, nshared (cls self) = k ->
            fst (get_band_pars_at k pars band self) <> Ok bp).
  { intros k Hk. unfold get_band_pars_at, mbind, gets, lift, modify, ret.
    assert (Hi : get_item pars (k + band) = Raise IndexError).
    { unfold get_item.
      rewrite (proj2 (nth_error_None pars (k + band))) by lia.
      reflexivity. }
    rewrite Hi. cbn [bind].
    destruct (set_slice _ 0 k _); simpl; discriminate. }
  destruct (cls self); simpl in *; intros H; eapply Hk; eauto.
Qed.

(** The epochs of one band, filled in list order. *)
Lemma fill_models_kobs_list_post : forall self bp kl kl1,
  for_list (fun _ : unit => _fill_models_kobs self bp) tt kl = (Ok tt, kl1) ->
  Forall2 (rendered self bp) kl kl1.
Proof.
  intros self bp. induction kl as [|k kl IH]; intros kl1; simpl.
  - intros H; inversion H; subst. constructor.
  - rewrite fill_models_kobs_unfold.
    destruct (make_model self bp) as [gal|e] eqn:Em; [|discriminate].
    destruct (_drawKImage gal (meta_kmodel k)) as [km|e] eqn:Ed;
      [|discriminate].
    assert (Hk : forall k1,
              kobs k1 = kobs k -> meta_ierr k1 = meta_ierr k ->
              meta_scratch k1 = meta_scratch k ->
              match psf (kobs k) with
              | None => meta_kmodel k1 = km
              | Some p =>
                same_grid km p /\
                meta_kmodel k1
                = with_array km (map2 complex_mul (array km) (array p))
              end ->
              rendered self bp k k1).
    { intros k1 H1 H2 H3 H4. repeat split; try assumption.
      exists gal, km. auto. }
    destruct (psf (kobs k)) as [p|] eqn:Ep.
    + destruct (image_op complex_mul km p) as [km2|e] eqn:Ei;
        [|discriminate].
      apply image_op_result in Ei. destruct Ei as [El ->].
      destruct (for_list _ tt kl) as [[[]|e] rest] eqn:Er; [|discriminate].
      intros H; inversion H; subst. constructor; [|now apply IH].
      apply Hk; try reflexivity. split; [exact El | reflexivity].
    + destruct (for_list _ tt kl) as [[[]|e] rest] eqn:Er; [|discriminate].
      intros H; inversion H; subst. constructor; [|now apply IH].
      apply Hk; reflexivity.
Qed.

(** The loop of [_fill_models] over the bands [suf] that follow the bands
    [pre]. *)
Lemma fill_models_bands_post : forall self pars suf pre s s1,
  cls s = cls self -> _model_class s = _model_class self ->
  length (_band_pars s) = nshared (cls s) + 1 ->
  mb_kobs s = pre ++ suf ->
  for_range (length suf) (length pre) (_fill_models_band pars) tt s
  = (Ok tt, s1) ->
  exists suf1,
    mb_kobs s1 = pre ++ suf1 /\
    Forall2_from
      (fun b => Forall2 (rendered self (band_slice (cls self) pars b)))
      (length pre) suf suf1.
Proof.
  intros self pars. induction suf as [|kl suf IH];
    intros pre s s1 Hc Hmc Hb Hmb.
  - simpl. unfold ret. intros H; inversion H; subst.
    exists []. split; [exact Hmb | exact I].
  - cbn [length for_range]. unfold mbind.
    destruct (_fill_models_band pars (length pre) tt s) as [[[]|e] s2] eqn:Eb;
      [|discriminate].
    intros Hloop.
    unfold _fill_models_band, mbind in Eb.
    destruct (get_band_pars pars (length pre) s) as [[bp|e] s3] eqn:Eg;
      [|discriminate].
    assert (Hlt : nshared (cls s) + length pre < length pars).
    { apply (get_band_pars_ok_inv pars (length pre) s bp Hb).
      now rewrite Eg. }
    rewrite get_band_pars_ok in Eg by assumption.
    inversion Eg; subst bp s3. clear Eg.
    unfold zoom, zoom_nth in Eb. simpl mb_kobs in Eb. rewrite Hmb in Eb.
    rewrite nth_error_app2, Nat.sub_diag in Eb by lia. cbn [nth_error] in Eb.
    destruct (for_list _ tt kl) as [r kl1] eqn:Ek.
    inversion Eb; subst r s2. clear Eb.
    rewrite replace_at_app in Hloop.
    apply fill_models_kobs_list_post in Ek.
    assert (Hk : Forall2 (rendered self (band_slice (cls self) pars
                                           (length pre))) kl kl1).
    { rewrite <- Hc. clear - Ek Hc Hmc.
      induction Ek as [|k k1 kl kl1 Hk Hkl IH]; constructor; [|exact IH].
      destruct Hk as (H1 & H2 & H3 & gal & km & Hm & Hd & Hp).
      repeat split; try assumption. exists gal, km.
      split; [|split; assumption].
      rewrite <- Hm. apply make_model_sim; simpl; congruence. }
    replace (S (length pre)) with (length (pre ++ [kl1])) in Hloop
      by (rewrite length_app; simpl; lia).
    apply IH in Hloop; simpl; try assumption.
    + destruct Hloop as (suf1 & Hs1 & Hf).
      exists (kl1 :: suf1). split; [now rewrite Hs1, <- app_assoc|].
      rewrite length_app in Hf. simpl in Hf.
      replace (length pre + 1) with (S (length pre)) in Hf by lia.
      split; assumption.
    + rewrite Hc. apply band_slice_length. rewrite <- Hc. lia.
    + now rewrite <- app_assoc.
Qed.

End Filled.

(** X10: when [_fill_models] returns on a model with bands, the parameter
    vector had a flux for every band; and every observation of every band
    [b] has its model image filled from the slice of band [b]: the profile
    of the slice is drawn
    into the image and multiplied entry by entry with the PSF image when
    the observation has one; data, weights, inverse errors and scratch
    images are untouched. *)
Theorem fill_models_post : forall (G : Galsim) (self : Self)
    (pars : list float) (s1 : Self),
  length (_band_pars self) = nshared (cls self) + 1 ->
  _fill_models pars self = (Ok tt, s1) ->
  (mb_kobs self <> [] ->
   nshared (cls self) + length (mb_kobs self) <= length pars) /\
  Forall2_from
    (fun b => Forall2 (rendered self (band_slice (cls self) pars b)))
    0 (mb_kobs self) (mb_kobs s1).
Proof.
  intros G self pars s1 Hb H.
  unfold _fill_models, except_as_range, mbind, gets in H.
  destruct (for_range (length (mb_kobs self)) 0 (_fill_models_band pars) tt
              self) as [[[]|e] s2] eqn:El.
  2:{ simpl in H. destruct (isinstance_RuntimeError e); discriminate. }
  simpl in H. inversion H; subst s2. clear H.
  split.
  - intros Hne.
    destruct (mb_kobs self) as [|kl rest] eqn:Emb; [congruence|].
    assert (Hlast : forall n b s s',
              length (_band_pars s) = nshared (cls s) + 1 ->
              for_range (S n) b (_fill_models_band pars) tt s = (Ok tt, s') ->
              exists t, cls t = cls s /\ nshared (cls t) + (b + n) < length pars).
    { induction n as [|n IH]; intros b s s' Hbs Hr.
      - cbn [for_range] in Hr. unfold mbind in Hr.
        destruct (_fill_models_band pars b tt s) as [[[]|e] s2] eqn:Eb;
          [|discriminate].
        unfold _fill_models_band, mbind in Eb.
        destruct (get_band_pars pars b s) as [[bp|e] s3] eqn:Eg;
          [|discriminate].
        exists s. split; [reflexivity|]. rewrite Nat.add_0_r.
        apply (get_band_pars_ok_inv pars b s bp Hbs). now rewrite Eg.
      - remember (S n) as m eqn:Em. cbn [for_range] in Hr.
        unfold mbind in Hr.
        destruct (_fill_models_band pars b tt s) as [[[]|e] s2] eqn:Eb;
          [|discriminate].
        assert (Hs2 : cls s2 = cls s /\
                      length (_band_pars s2) = nshared (cls s2) + 1).
        { unfold _fill_models_band, mbind in Eb.
          destruct (get_band_pars pars b s) as [[bp|e] s3] eqn:Eg;
            [|discriminate].
          assert (Hlt : nshared (cls s) + b < length pars).
          { apply (get_band_pars_ok_inv pars b s bp Hbs). now rewrite Eg. }
          rewrite get_band_pars_ok in Eg by assumption.
          inversion Eg; subst bp s3.
          unfold zoom in Eb. destruct (zoom_nth b _ _) as [r t].
          inversion Eb; subst. simpl. split; [reflexivity|].
          apply band_slice_length. lia. }
        destruct Hs2 as [Hc2 Hb2]. subst m.
        destruct (IH (S b) s2 s' Hb2 Hr) as (t & Ht & Hlt).
        exists t. split; [congruence|].
        replace (b + S n) with (S b + n) by lia. exact Hlt. }
    simpl length in El.
    destruct (Hlast (length rest) 0 self s1 Hb El) as (t & Ht & Hlt).
    rewrite Ht in Hlt. simpl. lia.
  - destruct (fill_models_bands_post self pars (mb_kobs self) [] self s1
                eq_refl eq_refl Hb eq_refl El) as (suf1 & Hs1 & Hf).
    simpl in Hs1. now rewrite Hs1.
Qed.

Lemma fill_models_post_witness :
  (mb_kobs spergel_model <> [] ->
   nshared (cls spergel_model) + length (mb_kobs spergel_model)
   <= length spergel_guess) /\
  Forall2_from
    (fun b =>
       Forall2
         (rendered (G := flat_galsim) spergel_model
            (band_slice (cls spergel_model) spergel_guess b)))
    0 (mb_kobs spergel_model)
    (mb_kobs (snd (_fill_models (G := flat_galsim) spergel_guess
                     spergel_model))).
Proof.
  apply (fill_models_post flat_galsim spergel_model spergel_guess).
  - reflexivity.
  - vm_compute. reflexivity.
Defined.

(** ** Shapes and flags of the weighted moments *)

(** X11: a result [_measure_moments] returns has the flags and the flag
    string of the measurement, and arrays of the shapes the measurement
    gave ([pars], [sums], [sums_err], and [sums_cov] row by row), rescaled
    or not; a successful measurement whose [pars] has fewer than six
    entries makes it raise [IndexError]. *)
Theorem measure_moments_keeps_shapes : forall (Obs : Type)
    (get_weighted_moments : Obs -> bool -> MomResult)
    (jacobian_area : Obs -> float) (float_pow : float -> float -> float)
    (with_higher_order : bool) (obs : Obs),
  let res := get_weighted_moments obs with_higher_order in
  let measured :=
    _measure_moments get_weighted_moments jacobian_area float_pow
      with_higher_order obs in
  (forall res', measured = Ok res' ->
     flags res' = flags res /\ flagstr res' = flagstr res /\
     length (pars res') = length (pars res) /\
     length (sums res') = length (sums res) /\
     length (sums_err res') = length (sums_err res) /\
     map (@length float) (sums_cov res')
     = map (@length float) (sums_cov res)) /\
  (flags res = 0%Z -> length (pars res) <= 5 ->
   measured = Raise IndexError).
Proof.
  intros Obs gwm area fpow who obs res measured.
  subst measured. unfold _measure_moments. fold res.
  destruct (Z.eqb_spec (flags res) 0) as [E|E]; simpl negb; cbv iota.
  - split.
    + intros res'. unfold get_item, set_item.
      destruct (nth_error (pars res) 5) as [p5|]; [|discriminate].
      cbn [bind]. destruct (5 <? length (pars res)); [|discriminate].
      cbn [bind]. intros H; inversion H; subst; simpl. clear H.
      unfold scale. rewrite replace_at_length, !length_map, map_map.
      repeat split; try reflexivity.
      apply map_ext. intros row. now rewrite length_map.
    + intros _ Hlen. unfold get_item.
      rewrite (proj2 (nth_error_None (pars res) 5)) by lia. reflexivity.
  - split.
    + intros res' H. inversion H; subst. repeat split; reflexivity.
    + intros E0. contradiction.
Qed.

Example measure_moments_short_pars :
  _measure_moments
    (fun _ _ =>
       {| flags := 0; flagstr := ""; flux := 8; flux_err := 2;
          pars := [0; 0; 0; 0; 1]%float; sums := []; sums_cov := [];
          sums_norm := 4; wsum := 12; sums_err := [] |})
    (fun _ => 4%float) (fun x _ => (x * x)%float) false tt
  = Raise IndexError.
Proof. reflexivity. Qed.

(** ** Failures of the renderer in the first epoch *)

Section FirstEpoch.

Context {G : Galsim}.
Variable LOWVAL : float.

(** A failure in the first epoch of the first band is what [_fill_models]
    raises, a [RuntimeError] as [GMixRangeError]. *)
Lemma fill_models_first_epoch : forall self pars k kl rest e k',
  length (_band_pars self) = nshared (cls self) + 1 ->
  mb_kobs self = (k :: kl) :: rest ->
  nshared (cls self) < length pars ->
  _fill_models_kobs self (band_slice (cls self) pars 0) k = (Raise e, k') ->
  fst (_fill_models pars self)
  = Raise (if isinstance_RuntimeError e then GMixRangeError else e).
Proof.
  intros self pars k kl rest e k' Hb Hmb Hp Hk.
  unfold _fill_models, except_as_range, mbind, gets.
  rewrite Hmb. simpl length. cbn [for_range].
  unfold mbind, _fill_models_band, mbind.
  rewrite get_band_pars_ok by (assumption || lia).
  unfold zoom, zoom_nth. simpl mb_kobs. rewrite Hmb. cbn [nth_error for_list].
  rewrite (fill_models_kobs_ext
             (with_band_pars self (band_slice (cls self) pars 0)) self)
    by reflexivity.
  rewrite Hk. simpl. destruct (isinstance_RuntimeError e); reflexivity.
Qed.

Lemma calc_fdiff_of_fill_models : forall self pars e,
  fst (_fill_models pars self) = Raise e ->
  fst (calc_fdiff LOWVAL pars self)
  = if isinstance_GMixRangeError e
    then Ok (repeat LOWVAL (fdiff_size self)) else Raise e.
Proof.
  intros self pars e H. unfold calc_fdiff, calc_fdiff_try, mbind.
  destruct (_fill_models pars self) as [r s1]. simpl in H. subst r.
  destruct (isinstance_GMixRangeError e); [|reflexivity].
  simpl. unfold fill_all, np_zeros. now rewrite map_repeat.
Qed.

Lemma band_slice_shear : forall c (pars : list float),
  nshared c < length pars ->
  get_item (band_slice c pars 0) 2 = Ok (nth 2 pars 0%float) /\
  get_item (band_slice c pars 0) 3 = Ok (nth 3 pars 0%float).
Proof.
  intros c pars H.
  assert (Hk : 5 <= nshared c) by (destruct c; simpl; lia).
  destruct pars as [|p0 [|p1 [|p2 [|p3 [|p4 rest]]]]]; simpl in H; try lia.
  destruct c; split; reflexivity.
Qed.

End FirstEpoch.

(** X12: on a model with an epoch in its first band and a parameter vector
    with a flux for it, what goes wrong with the renderer in that epoch is
    answered as follows: a shear the renderer refuses with a [ValueError]
    and a drawing it refuses with a [RuntimeError] give the sentinel in
    every entry of the residual vector; so does every exception of
    [make_model] that is a [RuntimeError] (a [NotImplementedError] is one)
    or the invalid-model-parameters failure; an exception of [make_model]
    that is neither leaves [calc_fdiff] as it is. *)
Theorem calc_fdiff_renderer_failures : forall (G : Galsim) (LOWVAL : float)
    (self : Self) (pars : list float) k kl rest,
  length (_band_pars self) = nshared (cls self) + 1 ->
  mb_kobs self = (k :: kl) :: rest ->
  nshared (cls self) < length pars ->
  (forall gal e,
     make_round_model self (band_slice (cls self) pars 0) = Ok gal ->
     gs_shear gal (nth 2 pars 0%float) (nth 3 pars 0%float) = Raise e ->
     isinstance_ValueError e = true ->
     fst (calc_fdiff LOWVAL pars self)
     = Ok (repeat LOWVAL (fdiff_size self))) /\
  (forall gal e,
     make_model self (band_slice (cls self) pars 0) = Ok gal ->
     _drawKImage gal (meta_kmodel k) = Raise e ->
     isinstance_RuntimeError e = true ->
     fst (calc_fdiff LOWVAL pars self)
     = Ok (repeat LOWVAL (fdiff_size self))) /\
  (forall e,
     make_model self (band_slice (cls self) pars 0) = Raise e ->
     isinstance_RuntimeError e = true \/ isinstance_GMixRangeError e = true ->
     fst (calc_fdiff LOWVAL pars self)
     = Ok (repeat LOWVAL (fdiff_size self))) /\
  (forall e,
     make_model self (band_slice (cls self) pars 0) = Raise e ->
     isinstance_RuntimeError e = false ->
     isinstance_GMixRangeError e = false ->
     fst (calc_fdiff LOWVAL pars self) = Raise e).
Proof.
  intros G LOWVAL self pars k kl rest Hb Hmb Hp.
  split; [|split; [|split]].
  - intros gal e Hr Hs He.
    destruct (band_slice_shear (cls self) pars Hp) as [H2 H3].
    assert (Hm : make_model self (band_slice (cls self) pars 0)
                 = Raise GMixRangeError).
    { unfold make_model. rewrite Hr. cbn [bind]. rewrite H2, H3.
      cbn [bind]. rewrite Hs. simpl. now rewrite He. }
    rewrite (calc_fdiff_of_fill_models LOWVAL self pars GMixRangeError);
      [reflexivity|].
    rewrite (fill_models_first_epoch self pars k kl rest GMixRangeError k);
      try assumption; [reflexivity|].
    rewrite fill_models_kobs_unfold, Hm. reflexivity.
  - intros gal e Hm Hd He.
    rewrite (calc_fdiff_of_fill_models LOWVAL self pars GMixRangeError);
      [reflexivity|].
    rewrite (fill_models_first_epoch self pars k kl rest e k);
      try assumption; [now rewrite He|].
    rewrite fill_models_kobs_unfold, Hm, Hd. reflexivity.
  - intros e Hm He.
    rewrite (calc_fdiff_of_fill_models LOWVAL self pars
               (if isinstance_RuntimeError e then GMixRangeError else e)).
    + destruct (isinstance_RuntimeError e); [reflexivity|].
      destruct He as [He|He]; [discriminate | now rewrite He].
    + apply (fill_models_first_epoch self pars k kl rest e k);
        try assumption.
      rewrite fill_models_kobs_unfold, Hm. reflexivity.
  - intros e Hm He1 He2.
    rewrite (calc_fdiff_of_fill_models LOWVAL self pars e);
      [now rewrite He2|].
    rewrite (fill_models_first_epoch self pars k kl rest e k);
      try assumption; [now rewrite He1|].
    rewrite fill_models_kobs_unfold, Hm. reflexivity.
Qed.

Lemma calc_fdiff_renderer_failures_witness :
  fst (calc_fdiff (G := flat_galsim) LOWVAL0 [0; 0; 1.5; 0; 0.3; 100]%float
         gauss_model)
  = Ok (repeat LOWVAL0 (fdiff_size gauss_model)) /\
  fst (calc_fdiff (G := abstract_galsim) LOWVAL0 gauss_guess gauss_model)
  = Ok (repeat LOWVAL0 (fdiff_size gauss_model)).
Proof.
  split.
  - apply (proj1 (calc_fdiff_renderer_failures flat_galsim LOWVAL0
                    gauss_model [0; 0; 1.5; 0; 0.3; 100]%float
                    (init_kobs kobs4) [] []
                    eq_refl eq_refl ltac:(simpl; lia))
             100%float ValueError);
      reflexivity.
  - apply (proj1 (proj2 (proj2
             (calc_fdiff_renderer_failures abstract_galsim LOWVAL0
                gauss_model gauss_guess (init_kobs kobs4) [] []
                eq_refl eq_refl ltac:(simpl; lia))))
             NotImplementedError).
    + reflexivity.
    + left. reflexivity.
Defined.

(** ** Earlier calls do not count *)

(** X13: what [calc_fdiff] returns for a parameter vector does not depend
    on the calls made before: after any sequence of calls of [calc_fdiff]
    with other parameter vectors, accepted or answered with the sentinel or
    an exception, a call returns what it returns on the model as
    constructed (the renderer drawing in place). *)
Theorem calc_fdiff_history_independent : forall (G : Galsim) (LOWVAL : float)
    (self : Self) (history : list (list float)) (pars : list float),
  draws_in_place G ->
  length (_band_pars self) = nshared (cls self) + 1 ->
  fst (calc_fdiff LOWVAL pars
         (fold_left (fun s p => snd (calc_fdiff LOWVAL p s)) history self))
  = fst (calc_fdiff LOWVAL pars self).
Proof.
  intros G LOWVAL self history pars HG Hb.
  assert (H : forall h s, sim self s ->
            sim self (fold_left (fun s p => snd (calc_fdiff LOWVAL p s)) h s)).
  { induction h as [|p h IH]; intros s Hs; simpl; [exact Hs|].
    apply IH. eapply sim_trans; [exact Hs|].
    apply (calc_fdiff_sim HG LOWVAL p s s).
    eapply per_refl_l; [apply per_sim | apply (proj1 per_sim), Hs]. }
  symmetry. apply (calc_fdiff_sim HG LOWVAL pars self).
  apply H. now apply sim_refl.
Qed.

Lemma calc_fdiff_history_independent_witness :
  fst (calc_fdiff (G := flat_galsim) LOWVAL0 gauss_guess
         (fold_left
            (fun s p => snd (calc_fdiff (G := flat_galsim) LOWVAL0 p s))
            [[0; 0; 1.5; 0; 0.3; 100]; [1; 2]; [0; 0; 0; 0; 0.5; 7]]%float
            gauss_model))
  = fst (calc_fdiff (G := flat_galsim) LOWVAL0 gauss_guess gauss_model).
Proof.
  apply (calc_fdiff_history_independent flat_galsim LOWVAL0 gauss_model
           [[0; 0; 1.5; 0; 0.3; 100]; [1; 2]; [0; 0; 0; 0; 0.5; 7]]%float
           gauss_guess flat_galsim_in_place).
  reflexivity.
Defined.
